(** * GPX-Bodyboard: wave detection over a recorded GPS track

    A shallow embedding of the detection pipeline of the viewer
    (kinematics, local statistics window, wave segmenter, direction
    stability filter, direction post-filter, file loading) and the
    properties its specification states about it.

    Numbers.  A JavaScript number is modelled as an exact real; rounding
    and overflow of IEEE doubles are outside the model.  A value the code
    tests with [Number.isFinite] or [isNaN] is a [num]: [Some r] for the
    finite number [r], [None] for a non-finite one ([NaN], [undefined],
    [null]).  The infinities are not told apart from [NaN].

    Two places are known where rounding moves the code away from the
    exact value: the addition [w + 360] of [normalizeBearing] rounds to
    360 for a negative [w] within about [2.8e-14] of 0, and
    [circularStdDeg] of equal samples is a rounding error above 0.  The
    further properties of bearings and of the circular deviation
    therefore state closed bounds and rules on the computed value, which
    hold of the doubles too, and no strict bound or exact value that
    rounding can break. *)

From Stdlib Require Import Reals Lra Lia List Bool Arith PeanoNat.
From Stdlib Require Import Sorted Permutation Mergesort Orders.
Import ListNotations.
Local Open Scope R_scope.

(** ** JavaScript numbers and comparisons *)

Definition num := option R.

Definition isFinite (x : num) : bool :=
  match x with Some _ => true | None => false end.

Definition isNaN (x : num) : bool := negb (isFinite x).

(** [a <= b] and [a < b] on finite numbers, as booleans. *)
Definition Rleb (a b : R) : bool := if Rle_dec a b then true else false.
Definition Rltb (a b : R) : bool := if Rlt_dec a b then true else false.

(** [x >= y], [x > y] and [x <= y] where [x] may be non-finite: every
    comparison with [NaN] is false. *)
Definition num_ge (x : num) (y : R) : bool :=
  match x with Some a => Rleb y a | None => false end.
Definition num_gt (x : num) (y : R) : bool :=
  match x with Some a => Rltb y a | None => false end.
Definition num_le (x y : num) : bool :=
  match x, y with Some a, Some b => Rleb a b | _, _ => false end.

(** [x || 0] and [Number.isFinite(x) ? x : 0]: both read a non-finite
    value as 0 (and [0 || 0] is 0). *)
Definition or0 (x : num) : R :=
  match x with Some a => a | None => 0 end.

(** [xs.filter(Number.isFinite)]. *)
Fixpoint finite_vals (xs : list num) : list R :=
  match xs with
  | [] => []
  | Some a :: r => a :: finite_vals r
  | None :: r => finite_vals r
  end.

(** [xs.reduce((a,v)=>a+f(v),0)]. *)
Definition reduce_sum (f : R -> R) (xs : list R) : R :=
  fold_left (fun a v => a + f v) xs 0.

(** Truncation towards zero, and the remainder [a % n] of JavaScript,
    which has the sign of the dividend. *)
Definition Rtrunc (x : R) : Z :=
  if Rle_dec 0 x then Int_part x else (- Int_part (- x))%Z.

Definition js_rem (a n : R) : R := a - n * IZR (Rtrunc (a / n)).

Definition toRad (d : R) : R := d * PI / 180.

(** [Math.sqrt] and [Math.asin] answer [NaN] outside their domains. *)
Definition js_sqrt (x : num) : num :=
  match x with
  | Some a => if Rleb 0 a then Some (sqrt a) else None
  | None => None
  end.

Definition js_asin (x : num) : num :=
  match x with
  | Some a => if Rleb (-1) a && Rleb a 1 then Some (asin a) else None
  | None => None
  end.

(** [Math.atan2(y,x)] on finite arguments (signed zeros are not modelled:
    [atan2(0,0)] is 0 and [atan2(0,x)] is [PI] for negative [x]). *)
Definition atan2 (y x : R) : R :=
  if Rltb 0 x then atan (y / x)
  else if Rltb x 0 then
    (if Rleb 0 y then atan (y / x) + PI else atan (y / x) - PI)
  else if Rltb 0 y then PI / 2
  else if Rltb y 0 then - (PI / 2)
  else 0.

(** ** Data model *)

Record Point := mkPoint {
  lat : R;
  lon : R;
  ele : num;
  (** [time?.getTime?.() ?? NaN] in milliseconds: [None] for a missing
      or invalid date. *)
  time : num
}.

Record Segment := mkSegment {
  a : R * R;
  b : R * R;
  distM : num;
  dtS : num;
  speedKmh : num;
  bearingDeg : num;
  accelKmhS : num
}.

Record Stats := mkStats {
  st_distM : R;
  st_durationS : R;
  avgKmh : R;
  st_maxKmh : R
}.

Record LocalStat := mkLocalStat { median : R; std : R }.

(** The candidate wave the detector accumulates ([cur]); [wDistM] is its
    field [distM]. *)
Record Wave := mkWave {
  startIdx : nat;
  endIdx : nat;
  wDistM : R;
  durationS : R;
  maxKmh : R;
  segmentIndices : list nat;
  bearings : list R;
  ended : bool;
  peak : R
}.

Record Options := mkOptions {
  baseThresholdKmh : R;
  minDurationS : R;
  useAdaptive : bool;
  winSec : R;
  kSigma : R;
  dropPct : R;
  endGraceS : R;
  dirStdMaxDeg : num
}.

(** ** Geometry helpers *)

(** [normalizeBearing]: the remainder is exact in doubles too; the sum
    [w + 360] is the exact one here, below 360, where the doubles round
    it to 360 for a negative [w] very close to 0. *)
Definition normalizeBearing (deg : num) : num :=
  match deg with
  | None => None
  | Some d => let w := js_rem d 360 in
              Some (if Rltb w 0 then w + 360 else w)
  end.

Definition angularDifference (x y : num) : num :=
  match x, y with
  | Some _, Some _ =>
      match normalizeBearing x, normalizeBearing y with
      | Some nx, Some ny =>
          let diff := js_rem (Rabs (nx - ny)) 360 in
          Some (if Rltb 180 diff then 360 - diff else diff)
      | _, _ => None
      end
  | _, _ => None
  end.

Definition haversineDistanceM (p q : Point) : num :=
  let R0 := 6371000 in
  let dLat := toRad (lat q - lat p) in
  let dLon := toRad (lon q - lon p) in
  let lat1 := toRad (lat p) in
  let lat2 := toRad (lat q) in
  let h := (sin (dLat / 2))² + cos lat1 * cos lat2 * (sin (dLon / 2))² in
  match js_asin (js_sqrt (Some h)) with
  | Some x => Some (2 * R0 * x)
  | None => None
  end.

Definition bearingDegrees (p q : R * R) : num :=
  let lat1 := toRad (fst p) in
  let lat2 := toRad (fst q) in
  let dLon := toRad (snd q - snd p) in
  let y := sin dLon * cos lat2 in
  let x := cos lat1 * sin lat2 - sin lat1 * cos lat2 * cos dLon in
  normalizeBearing (Some (atan2 y x * 180 / PI)).

(** [circularStdDeg]: the exact value of the formula; the doubles of the
    code differ from it by the rounding of the sines, cosines, sums,
    root and logarithm. *)
Definition circularStdDeg (samples : list num) : num :=
  let vals := finite_vals samples in
  match vals with
  | [] => None
  | _ =>
      let sn := reduce_sum (fun d => sin (toRad d)) vals in
      let cs := reduce_sum (fun d => cos (toRad d)) vals in
      let R0 := sqrt (sn * sn + cs * cs) / INR (length vals) in
      Some (sqrt (Rmax 0 (-2 * ln (Rmax R0 (1e-9)))) * 180 / PI)
  end.

(** ** Kinematics: [computeSegmentsAndStats] *)

(** Arithmetic on possibly non-finite numbers: [NaN] is absorbing. *)
Definition num_map2 (f : R -> R -> R) (x y : num) : num :=
  match x, y with Some u, Some v => Some (f u v) | _, _ => None end.

(** [Number.isFinite(dt) && dt > 0]. *)
Definition positive (dt : num) : bool :=
  match dt with Some d => Rltb 0 d | None => false end.

(** [dt]: the difference of the two timestamps in seconds, [NaN] when
    one of them is not finite. *)
Definition elapsed (p q : Point) : num :=
  match time p, time q with
  | Some tA, Some tB => Some ((tB - tA) / 1000)
  | _, _ => None
  end.

(** The accumulators of the loop: the segments pushed so far and the
    running totals. *)
Record KinAcc := mkKinAcc {
  k_segments : list Segment;
  k_distM : R;
  k_durationS : R;
  k_maxKmh : R
}.

(** One iteration of the loop, for the points [i-1] and [i];
    [segments[i-2]] is the last segment pushed, if any. *)
Definition kin_body (acc : KinAcc) (pa pb : Point) : KinAcc :=
  let d := haversineDistanceM pa pb in
  let dt := elapsed pa pb in
  let speedMS := if positive dt then num_map2 Rdiv d dt else Some 0 in
  let speed := num_map2 Rmult speedMS (Some 3.6) in
  let bearing := if isFinite d
                 then bearingDegrees (lat pa, lon pa) (lat pb, lon pb)
                 else None in
  let accel :=
    match last (map Some (k_segments acc)) None with
    | Some prev =>
        if positive (dtS prev)
        then num_map2 Rdiv (num_map2 Rminus speed (speedKmh prev)) (dtS prev)
        else Some 0
    | None => Some 0
    end in
  let s := mkSegment (lat pa, lon pa) (lat pb, lon pb) d dt speed bearing accel in
  mkKinAcc (k_segments acc ++ [s])
           (match d with Some x => k_distM acc + x | None => k_distM acc end)
           (if positive dt then k_durationS acc + or0 dt else k_durationS acc)
           (if num_gt speed (k_maxKmh acc) then or0 speed else k_maxKmh acc).

(** [for (let i=1; i<points.length; i++)]: [pa] is [points[i-1]] and
    [rest] the points from index [i] on. *)
Fixpoint kin_loop (pa : Point) (rest : list Point) (acc : KinAcc) : KinAcc :=
  match rest with
  | [] => acc
  | pb :: rest' => kin_loop pb rest' (kin_body acc pa pb)
  end.

Definition kin_init : KinAcc := mkKinAcc [] 0 0 0.

Definition kin_run (points : list Point) : KinAcc :=
  match points with
  | [] => kin_init
  | p0 :: rest => kin_loop p0 rest kin_init
  end.

(** The pair [(segments, stats)] the function assigns. *)
Definition computeSegmentsAndStats (points : list Point) : list Segment * Stats :=
  let acc := kin_run points in
  let hours := k_durationS acc / 3600 in
  let denom := if Req_dec_T hours 0 then 1e-9 else hours in
  (k_segments acc,
   mkStats (k_distM acc) (k_durationS acc)
           (k_distM acc / 1000 / denom) (k_maxKmh acc)).

(** ** Local statistics window: [computeLocalStats] *)

Module ROrder <: TotalLeBool.

Definition t := R.

Definition leb := Rleb.

Theorem leb_total : forall x y, leb x y = true \/ leb y x = true.
Proof.
  intros x y. unfold leb, Rleb.
  destruct (Rle_dec x y); [now left|].
  destruct (Rle_dec y x); [now right|]. lra.
Qed.

End ROrder.

(** [[...slice].sort((a,b)=>a-b)]: the ascending sort. *)
Module RSort := Sort ROrder.

(** [{median, std}] of a window's speed values. *)
Definition window_stat (slice : list R) : LocalStat :=
  match slice with
  | [] => mkLocalStat 0 0
  | _ =>
      let sorted := RSort.sort slice in
      let n := length sorted in
      let mid := (n / 2)%nat in
      let med := if Nat.odd n then nth mid sorted 0
                 else 0.5 * (nth (mid - 1) sorted 0 + nth mid sorted 0) in
      let mean := reduce_sum (fun v => v) sorted / INR n in
      let variance :=
        reduce_sum (fun v => (v - mean) * (v - mean)) sorted
        / Rmax 1 (INR n - 1) in
      mkLocalStat med (sqrt variance)
  end.

(** [Number.isFinite(segments[k].dtS) ? segments[k].dtS : 0]. *)
Definition dt_at (segments : list Segment) (k : nat) : R :=
  match nth_error segments k with
  | Some s => or0 (dtS s)
  | None => 0
  end.

(** [while (timeSpan > winSec && left < right)]; [n] is [right - left],
    which the loop decreases by one each turn. *)
Fixpoint shrink (segments : list Segment) (win : R) (n left : nat)
    (timeSpan : R) : nat * R :=
  match n with
  | O => (left, timeSpan)
  | S n' =>
      if Rltb win timeSpan
      then shrink segments win n' (S left) (timeSpan - dt_at segments left)
      else (left, timeSpan)
  end.

(** [speeds.slice(left, right+1)]. *)
Definition slice {A} (l : list A) (from to : nat) : list A :=
  firstn (to - from) (skipn from l).

(** [for (let right=0; right<segments.length; right++)]: [rest] holds the
    segments from index [right] on. *)
Fixpoint stats_loop (segments : list Segment) (win : R) (speeds : list num)
    (rest : list Segment) (right left : nat) (timeSpan : R)
    : list (option LocalStat) :=
  match rest with
  | [] => []
  | sR :: rest' =>
      let '(left', span') :=
        shrink segments win (right - left) left (timeSpan + or0 (dtS sR)) in
      let sl := finite_vals (slice speeds left' (S right)) in
      Some (window_stat sl)
        :: stats_loop segments win speeds rest' (S right) left' span'
  end.

Definition computeLocalStats (segments : list Segment) (win : R)
    : list (option LocalStat) :=
  if (length segments =? 0)%nat || Rleb win 0
  then repeat None (length segments)
  else
    let speeds := map (fun s => Some (or0 (speedKmh s))) segments in
    stats_loop segments win speeds segments 0 0 0.

(** ** Wave segmenter: [detectWavesV2] *)

(** The variables the loop updates: the waves pushed so far, the current
    candidate ([None] for [null]: the Idle state) and the two timers. *)
Record DetState := mkDetState {
  found : list Wave;
  cur : option Wave;
  timeOver : R;
  timeUnderPeak : R
}.

Definition det_init : DetState := mkDetState [] None 0 0.

(** [dt]: the segment's elapsed time when finite and positive, else 0. *)
Definition seg_dt (s : Segment) : R :=
  if positive (dtS s) then or0 (dtS s) else 0.

(** [thr]: the threshold of segment [i]; [local] is [null] ([None]) in
    non-adaptive mode, and [local[i]] may be [null]. *)
Definition threshold (o : Options) (local : option (list (option LocalStat)))
    (i : nat) : R :=
  if useAdaptive o then
    match local with
    | Some l =>
        match nth i l None with
        | Some ls => Rmax (baseThresholdKmh o) (median ls + kSigma o * std ls)
        | None => baseThresholdKmh o
        end
    | None => baseThresholdKmh o
    end
  else baseThresholdKmh o.

(** [over]: [(s.speedKmh >= thr) && dt > 0]. *)
Definition over (o : Options) (local : option (list (option LocalStat)))
    (i : nat) (s : Segment) : bool :=
  num_ge (speedKmh s) (threshold o local i) && Rltb 0 (seg_dt s).

(** The object literal a new candidate starts from. *)
Definition new_wave (i : nat) : Wave := mkWave i i 0 0 0 [] [] false 0.

(** [drop] and [below] of the end criterion. *)
Definition drop_of (c : Wave) (s : Segment) : R :=
  let v := or0 (speedKmh s) in
  if Rltb 0 (peak c) then (1 - v / peak c) * 100 else 100.

Definition below (o : Options) (c : Wave) (s : Segment) : bool :=
  Rleb (dropPct o) (drop_of c s).

(** [cur.durationS >= minDurationS && cur.segmentIndices.length]. *)
Definition valid_wave (o : Options) (c : Wave) : bool :=
  Rleb (minDurationS o) (durationS c)
  && negb (length (segmentIndices c) =? 0)%nat.

(** The body of the [for] loop at segment [i]. *)
Definition det_body (o : Options) (local : option (list (option LocalStat)))
    (i : nat) (s : Segment) (st : DetState) : DetState :=
  let dt := seg_dt s in
  if over o local i s then
    let c := match cur st with Some c => c | None => new_wave i end in
    let tOver := match cur st with Some _ => timeOver st | None => 0 end in
    let higher := num_gt (speedKmh s) (maxKmh c) in
    mkDetState (found st)
      (Some (mkWave (startIdx c) i
               (wDistM c + or0 (distM s))
               (durationS c + dt)
               (if higher then or0 (speedKmh s) else maxKmh c)
               (segmentIndices c ++ [i])
               (match bearingDeg s with
                | Some bd => bearings c ++ [bd]
                | None => bearings c
                end)
               (ended c)
               (if higher then or0 (speedKmh s) else peak c)))
      (tOver + dt) 0
  else
    match cur st with
    | None => st
    | Some c =>
        if below o c s then
          let under := timeUnderPeak st + dt in
          if Rleb (endGraceS o) under then
            mkDetState
              (if valid_wave o c then found st ++ [c] else found st)
              None 0 0
          else mkDetState (found st) (Some c) (timeOver st) under
        else
          let higher := num_gt (speedKmh s) (maxKmh c) in
          mkDetState (found st)
            (Some (mkWave (startIdx c) i
                     (wDistM c + or0 (distM s))
                     (durationS c + dt)
                     (if higher then or0 (speedKmh s) else maxKmh c)
                     (segmentIndices c ++ [i])
                     (match bearingDeg s with
                      | Some bd => bearings c ++ [bd]
                      | None => bearings c
                      end)
                     (ended c)
                     (if higher then or0 (speedKmh s) else peak c)))
            (timeOver st) 0
    end.

(** [for (let i=0; i<segments.length; i++)], from index [i] on the
    segments [rest]. *)
Fixpoint det_loop (o : Options) (local : option (list (option LocalStat)))
    (i : nat) (rest : list Segment) (st : DetState) : DetState :=
  match rest with
  | [] => st
  | s :: rest' => det_loop o local (S i) rest' (det_body o local i s st)
  end.

(** End of the trace: the candidate still open is validated with no
    grace. *)
Definition det_close (o : Options) (st : DetState) : list Wave :=
  match cur st with
  | Some c => if valid_wave o c then found st ++ [c] else found st
  | None => found st
  end.

(** The predicate of the direction stability filter. *)
Definition stable (o : Options) (w : Wave) : bool :=
  let sd := circularStdDeg (map Some (bearings w)) in
  negb (isFinite (dirStdMaxDeg o)) || isNaN sd || num_le sd (dirStdMaxDeg o).

(** [local]: the statistics in adaptive mode, [null] otherwise. *)
Definition local_of (o : Options) (segments : list Segment)
    : option (list (option LocalStat)) :=
  if useAdaptive o then Some (computeLocalStats segments (winSec o)) else None.

(** The state after the first [n] segments have been processed, and the
    state when the loop ends. *)
Definition det_state_at (o : Options) (segments : list Segment) (n : nat)
    : DetState :=
  det_loop o (local_of o segments) 0 (firstn n segments) det_init.

(** [found], before the stability filter. *)
Definition found_waves (o : Options) (segments : list Segment) : list Wave :=
  det_close o (det_loop o (local_of o segments) 0 segments det_init).

Definition detectWavesV2 (o : Options) (segments : list Segment) : list Wave :=
  filter (stable o) (found_waves o segments).

(** ** Enrichment and the direction post-filter: [runWaveDetection] *)

(** The fields [enrichWave] adds that do not depend on the map library
    ([bounds], [startPoint] and [midPoint] are Leaflet objects). *)
Record EnrichedWave := mkEnriched {
  wave : Wave;
  e_startIdx : nat;
  e_endIdx : nat;
  indices : list nat;
  directionDeg : num;
  e_avgKmh : num;
  startTime : num;
  peakIdx : option nat;
  peakVal : num;
  speeds : list num
}.

(** [getDirectionSettings()]: the values read from the direction
    controls, already normalised and clamped. *)
Record DirectionSettings := mkDirectionSettings {
  enabled : bool;
  direction : R;
  tolerance : R;
  stdMax : R
}.

(** What [runWaveDetection] reads from the controls: [parseFloat] or
    [Number] of each text field, and the direction settings. *)
Record Controls := mkControls {
  thresholdInput : num;
  autoThreshold : option R;
  minDurationInput : num;
  useAdaptiveToggle : bool;
  winSecondsInput : num;
  kSigmaInput : num;
  dropPctInput : num;
  endGraceInput : num;
  directionSettings : DirectionSettings
}.

(** [x || d]: [d] when [x] is [NaN] or 0. *)
Definition or_default (x : num) (d : R) : R :=
  match x with
  | Some v => if Req_dec_T v 0 then d else v
  | None => d
  end.

Definition clamp (v lo hi : R) : R := Rmax lo (Rmin hi v).

Definition options_of (ui : Controls) : Options :=
  mkOptions
    (match thresholdInput ui with
     | Some t => t
     | None => match autoThreshold ui with Some t => t | None => 15 end
     end)
    (Rmax 0 (or_default (minDurationInput ui) 0))
    (useAdaptiveToggle ui)
    (Rmax 1 (or_default (winSecondsInput ui) 8))
    (Rmax 0 (or_default (kSigmaInput ui) 0.8))
    (clamp (or_default (dropPctInput ui) 35) 0 100)
    (Rmax 0 (or_default (endGraceInput ui) 1))
    (Some (stdMax (directionSettings ui))).

(** The least and the greatest member: the first and the last element of
    the de-duplicated, sorted index array. *)
Definition first_sorted (l : list nat) : nat := fold_right Nat.min (hd O l) l.
Definition last_sorted (l : list nat) : nat := fold_right Nat.max (hd O l) l.

(** The peak search: [(peakIdx, peakVal)], where [peakVal = None] stands
    for [-Infinity]. *)
Definition peak_step (segs : list Segment) (acc : option nat * num) (i : nat)
    : option nat * num :=
  match nth_error segs i with
  | Some s =>
      match speedKmh s, snd acc with
      | Some v, Some pv => if Rltb pv v then (Some i, Some v) else acc
      | Some v, None => (Some i, Some v)
      | None, _ => acc
      end
  | None => acc
  end.

Definition enrichWave (pts : list Point) (segs : list Segment) (w : Wave)
    : EnrichedWave :=
  let overIdx := segmentIndices w in
  let hasOver := negb (length overIdx =? 0)%nat in
  let start := if hasOver then first_sorted overIdx else startIdx w in
  let endCandidate := if hasOver then last_sorted overIdx else endIdx w in
  let end_ := Nat.min (length segs - 1) endCandidate in
  let idx := if (length segs =? 0)%nat then []
             else seq start (S end_ - start) in
  let sl := slice pts start (end_ + 2) in
  let samples :=
    finite_vals
      (map (fun i => match nth_error segs i with
                     | Some s => bearingDeg s
                     | None => None
                     end) idx) in
  let dir :=
    match samples with
    | _ :: _ =>
        let sn := reduce_sum (fun d => sin (toRad d)) samples in
        let cs := reduce_sum (fun d => cos (toRad d)) samples in
        if Rltb (1e-6) (Rabs sn) || Rltb (1e-6) (Rabs cs)
        then normalizeBearing (Some (atan2 sn cs * 180 / PI))
        else None
    | [] =>
        match sl with
        | first :: _ :: _ =>
            let lst := last sl first in
            bearingDegrees (lat first, lon first) (lat lst, lon lst)
        | _ => None
        end
    end in
  let pk := fold_left (peak_step segs) idx (hd_error idx, None) in
  mkEnriched w start end_ idx dir
    (if Rltb 0 (durationS w) then Some (wDistM w / durationS w * 3.6)
     else None)
    (match nth_error pts start with
     | Some p => time p
     | None => match sl with p :: _ => time p | [] => None end
     end)
    (fst pk) (snd pk)
    (map (fun i => match nth_error segs i with
                   | Some s => speedKmh s
                   | None => Some 0
                   end) idx).

(** The predicate of the optional direction filter. *)
Definition direction_ok (ds : DirectionSettings) (w : EnrichedWave) : bool :=
  if isFinite (directionDeg w) then
    let delta := angularDifference (directionDeg w) (Some (direction ds)) in
    isFinite delta && num_le delta (Some (tolerance ds))
  else false.

Definition direction_filter (ds : DirectionSettings) (enriched : list EnrichedWave)
    : list EnrichedWave :=
  if enabled ds then filter (direction_ok ds) enriched else enriched.

(** ** Threshold controls *)

(** [Math.floor] and [Math.round] (halves go up). *)
Definition js_floor (x : R) : Z := Int_part x.
Definition js_round (x : R) : Z := Int_part (x + 0.5).

(** [computeAutoThreshold]: the speed three quarters of the way up the
    sorted speeds above 1 km/h, clamped to [[5, 120]]; 15 without such a
    speed.  [Math.floor(0.75 * (n - 1))] is [3 * (n - 1) / 4] in whole
    numbers. *)
Definition computeAutoThreshold (segs : list Segment) : R :=
  let speeds := filter (fun v => Rltb 1 v) (finite_vals (map speedKmh segs)) in
  match speeds with
  | [] => 15
  | _ =>
      let sorted := RSort.sort speeds in
      let idx := (3 * (length sorted - 1) / 4)%nat in
      clamp (nth idx sorted 0) 5 120
  end.

(** [setThreshold]: the value it returns; [rangeMin] and [rangeMax] are
    [Number(thresholdRange.min)] and [Number(thresholdRange.max)]. *)
Definition setThreshold (value : R) (rangeMin rangeMax : num) : R :=
  let lo := or_default rangeMin 0 in
  let hi := or_default rangeMax 100 in
  let clamped := clamp value lo hi in
  IZR (js_round (clamped * 2)) / 2.

(** [Math.ceil]. *)
Definition js_ceil (x : R) : Z := (- Int_part (- x))%Z.

Definition DEFAULT_THRESHOLD_MIN : R := 5.
Definition DEFAULT_THRESHOLD_MAX : R := 50.

(** The controls with the threshold field and [autoThreshold] replaced. *)
Definition set_threshold_controls (ui : Controls) (auto : option R)
    (value : R) : Controls :=
  mkControls (Some value) auto (minDurationInput ui) (useAdaptiveToggle ui)
             (winSecondsInput ui) (kSigmaInput ui) (dropPctInput ui)
             (endGraceInput ui) (directionSettings ui).

(** [configureThresholdControls]: it sets the range of the slider from
    the speeds of the track, stores the suggested threshold in
    [autoThreshold] and has [setThreshold] write it to the threshold
    field, which then reads back as the value [setThreshold] returned.
    Without a segment or a finite speed the range is the default one,
    [autoThreshold] is [null] and the field holds 15. *)
Definition configureThresholdControls (ui : Controls) (segs : list Segment)
    : Controls :=
  let fallback :=
    set_threshold_controls ui None
      (setThreshold 15 (Some DEFAULT_THRESHOLD_MIN)
                    (Some DEFAULT_THRESHOLD_MAX)) in
  match segs with
  | [] => fallback
  | _ =>
      match finite_vals (map speedKmh segs) with
      | [] => fallback
      | speeds =>
          let sorted := RSort.sort speeds in
          let minVal := Rmax 0 (IZR (js_floor (Rmin (nth 0 sorted 0) 5))) in
          let maxSpeed := last sorted 0 in
          let maxVal :=
            Rmax (minVal + 5) (IZR (js_ceil (Rmax maxSpeed 10))) in
          let auto := computeAutoThreshold segs in
          set_threshold_controls ui (Some auto)
            (setThreshold auto (Some minVal)
                          (Some (Rmax maxVal DEFAULT_THRESHOLD_MAX)))
      end
  end.

(** ** Application state and file loading *)

(** The module-level variables of the viewer. *)
Record AppState := mkAppState {
  points : list Point;
  segments : list Segment;
  stats : option Stats;
  waves : list EnrichedWave
}.

(** [runWaveDetection]: the assignment to [waves] (rendering apart). *)
Definition runWaveDetection (ui : Controls) (st : AppState) : AppState :=
  match segments st with
  | [] => mkAppState (points st) (segments st) (stats st) []
  | _ =>
      let detected := detectWavesV2 (options_of ui) (segments st) in
      let enriched := map (enrichWave (points st) (segments st)) detected in
      mkAppState (points st) (segments st) (stats st)
                 (direction_filter (directionSettings ui) enriched)
  end.

(** The extension of the chosen file, and what the parser called for it
    does on the file's text: it throws, or it returns the points. *)
Inductive FileKind := Gpx | Csv | OtherKind.

Inductive ParseResult :=
| ParseThrows
| ParseReturns (pts : list Point).

Inductive LoadOutcome :=
| Loaded
| UnsupportedFormat
| ParserError
| NotEnoughPoints.

(** The [change] handler of the file input: the state it leaves and how
    the [try] block ended.  The assignment [points = parse...(text)]
    comes before the test of [points.length].  On success
    [configureThresholdControls()] overwrites the threshold field before
    [runWaveDetection()] reads it; [setEnabled(true)] in between enables
    the controls and changes none of their values, so the other fields of
    [ui] are the controls as [runWaveDetection] reads them, the direction
    toggle being enabled by then. *)
Definition load_file (ui : Controls) (kind : FileKind) (parsed : ParseResult)
    (st : AppState) : AppState * LoadOutcome :=
  match kind with
  | OtherKind => (st, UnsupportedFormat)
  | _ =>
      match parsed with
      | ParseThrows => (st, ParserError)
      | ParseReturns pts =>
          let st1 := mkAppState pts (segments st) (stats st) (waves st) in
          if (length pts <? 2)%nat then (st1, NotEnoughPoints)
          else
            let '(segs, sts) := computeSegmentsAndStats pts in
            (runWaveDetection (configureThresholdControls ui segs)
               (mkAppState pts segs (Some sts) (waves st)),
             Loaded)
      end
  end.

(** ** The first detector: [detectWaves] *)

(** The wave object of the first detector ([app.js]). *)
Record SimpleWave := mkSimpleWave {
  sw_startIdx : nat;
  sw_endIdx : nat;
  sw_distM : R;
  sw_durationS : R;
  sw_maxKmh : R
}.

(** [over]: [s.speedKmh >= thresholdKmh && Number.isFinite(s.dtS) &&
    s.dtS > 0]. *)
Definition over1 (thr : R) (s : Segment) : bool :=
  num_ge (speedKmh s) thr && positive (dtS s).

(** The body of the first loop at segment [i], on the pair
    [(found, cur)]; a new wave starts at [Math.max(0, i-1)]. *)
Definition detect1_body (thr minDur : R) (i : nat) (s : Segment)
    (st : list SimpleWave * option SimpleWave)
    : list SimpleWave * option SimpleWave :=
  if over1 thr s then
    let c := match snd st with
             | Some c => c
             | None => mkSimpleWave (i - 1) i 0 0 0
             end in
    (fst st,
     Some (mkSimpleWave (sw_startIdx c) i
             (sw_distM c + or0 (distM s))
             (sw_durationS c + or0 (dtS s))
             (if num_gt (speedKmh s) (sw_maxKmh c) then or0 (speedKmh s)
              else sw_maxKmh c)))
  else
    match snd st with
    | Some c =>
        (if Rleb minDur (sw_durationS c) then fst st ++ [c] else fst st, None)
    | None => st
    end.

Fixpoint detect1_loop (thr minDur : R) (i : nat) (rest : list Segment)
    (st : list SimpleWave * option SimpleWave)
    : list SimpleWave * option SimpleWave :=
  match rest with
  | [] => st
  | s :: rest' => detect1_loop thr minDur (S i) rest'
                    (detect1_body thr minDur i s st)
  end.

(** [found] when the first loop and the test after it are done. *)
Definition detect1_found (segs : list Segment) (thr minDur : R)
    : list SimpleWave :=
  let st := detect1_loop thr minDur 0 segs ([], None) in
  match snd st with
  | Some c => if Rleb minDur (sw_durationS c) then fst st ++ [c] else fst st
  | None => fst st
  end.

(** [shortGap]: the segment after [prev] exists and its elapsed time is
    finite and at most one second. *)
Definition short_gap (segs : list Segment) (prev : SimpleWave)
    : option Segment :=
  match nth_error segs (S (sw_endIdx prev)) with
  | Some gap =>
      match dtS gap with
      | Some d => if Rleb d 1 then Some gap else None
      | None => None
      end
  | None => None
  end.

(** The merge loop.  [prev] is [merged[merged.length-1]], the only
    element of [merged] the loop still changes; [rest] holds the waves of
    [found] not yet visited. *)
Fixpoint merge_from (segs : list Segment) (prev : SimpleWave)
    (rest : list SimpleWave) : list SimpleWave :=
  match rest with
  | [] => [prev]
  | f :: rest' =>
      match short_gap segs prev with
      | Some gap =>
          merge_from segs
            (mkSimpleWave (sw_startIdx prev) (sw_endIdx f)
               (sw_distM prev + (or0 (distM gap) + sw_distM f))
               (sw_durationS prev + (or0 (dtS gap) + sw_durationS f))
               (Rmax (sw_maxKmh prev) (sw_maxKmh f)))
            rest'
      | None => prev :: merge_from segs f rest'
      end
  end.

Definition detectWaves (segs : list Segment) (thresholdKmh minDurationS : R)
    : list SimpleWave :=
  match detect1_found segs thresholdKmh minDurationS with
  | [] => []
  | f :: rest => merge_from segs f rest
  end.

(** ** Best wave, formatting and colours *)

(** The selection loop of [bestWaveLabel]: [None] stands for the
    [undefined] of [ws[0]] on an empty array. *)
Definition better (w best : EnrichedWave) : bool :=
  Rltb (maxKmh (wave best)) (maxKmh (wave w))
  || ((if Req_dec_T (maxKmh (wave w)) (maxKmh (wave best)) then true else false)
      && Rltb (wDistM (wave best)) (wDistM (wave w))).

Definition bestWave (ws : list EnrichedWave) : option EnrichedWave :=
  match ws with
  | [] => None
  | w0 :: _ =>
      Some (fold_left (fun best w => if better w best then w else best) ws w0)
  end.

(** [fmtDuration]: the hours, minutes and seconds it computes ([None]
    for the dash of a non-finite duration; the text shows the hours only
    when they are positive). *)
Definition fmtDuration (s : num) : option (Z * Z * Z) :=
  match s with
  | None => None
  | Some x =>
      Some (js_floor (x / 3600),
            js_floor (js_rem x 3600 / 60),
            js_floor (js_rem x 60))
  end.

(** [SPEED_COLOR_STOPS] and [speedToColor]: the three channels of the
    [rgb(...)] text. *)
Definition SPEED_COLOR_STOPS : list (R * R * R) :=
  [(59, 130, 246); (16, 185, 129); (132, 204, 22);
   (250, 204, 21); (249, 115, 22); (220, 38, 38)].

Definition lerp (x y t : R) : R := x + (y - x) * t.

Definition speedToColor (speed minKmh maxKmh : num) : Z * Z * Z :=
  let '(lo, hi) :=
    match minKmh, maxKmh with
    | Some lo, Some hi => (lo, hi)
    | _, _ => (or0 speed, or0 speed + 1)
    end in
  let v := match speed with Some v => v | None => lo end in
  let range := Rmax (1e-3) (hi - lo) in
  let t := clamp ((v - lo) / range) 0 1 in
  let scaled := t * 5 in
  let idx := js_floor scaled in
  let frac := scaled - IZR idx in
  let '(sr, sg, sb) := nth (Z.to_nat idx) SPEED_COLOR_STOPS (0, 0, 0) in
  let '(er, eg, eb) :=
    nth (Z.to_nat (Z.min (idx + 1) 5)) SPEED_COLOR_STOPS (0, 0, 0) in
  (js_round (lerp sr er frac), js_round (lerp sg eg frac),
   js_round (lerp sb eb frac)).

(** What [getDirectionSettings] reads once its guard has found the
    toggle, the angle field and the tolerance field on the page: the
    state of the toggle, [parseFloat] of the two fields, and [parseFloat]
    of the field [#dirStdMax] when the page has that control
    ([stdMaxInput = None] when it is missing: the guard does not test
    it). *)
Record DirectionInputs := mkDirectionInputs {
  toggleDisabled : bool;
  toggleChecked : bool;
  angleInput : num;
  toleranceInput : num;
  stdMaxInput : option num
}.

Definition DEFAULT_DIRECTION_TOLERANCE : R := 45.

(** [getDirectionSettings]; [inputs = None] when one of the three
    controls of the guard is missing.  The result [None] stands for the
    [TypeError] of reading [dirStdMaxInput.value] on a missing control. *)
Definition getDirectionSettings (inputs : option DirectionInputs)
    : option DirectionSettings :=
  match inputs with
  | None => Some (mkDirectionSettings false 0 DEFAULT_DIRECTION_TOLERANCE 25)
  | Some i =>
      let enabled := negb (toggleDisabled i) && toggleChecked i in
      let direction :=
        or0 (normalizeBearing
               (Some (match angleInput i with Some d => d | None => 0 end))) in
      let tolerance :=
        clamp (match toleranceInput i with
               | Some t => t
               | None => DEFAULT_DIRECTION_TOLERANCE
               end) 0 180 in
      match stdMaxInput i with
      | None => None
      | Some field =>
          Some (mkDirectionSettings enabled direction tolerance
                  (clamp (match field with Some m => m | None => 25 end)
                         0 180))
      end
  end.

(** * Specification predicates *)

(** ** The segmenter *)

(** What holds of a candidate's member list once [n] segments have been
    processed. *)
Definition members_ok (n : nat) (w : Wave) : Prop :=
  segmentIndices w <> []
  /\ StronglySorted lt (segmentIndices w)
  /\ Forall (fun k => (k < n)%nat) (segmentIndices w)
  /\ hd O (segmentIndices w) = startIdx w
  /\ last (segmentIndices w) O = endIdx w.

(** The invariant of the detection loop after [n] segments. *)
Definition det_inv (o : Options) (n : nat) (st : DetState) : Prop :=
  Forall (fun w => members_ok n w /\ minDurationS o <= durationS w) (found st)
  /\ match cur st with
     | Some c => members_ok n c
     | None => True
     end.

(** While a candidate is open the grace timer is below [endGraceS]. *)
Definition grace_inv (o : Options) (st : DetState) : Prop :=
  match cur st with
  | Some _ => 0 <= timeUnderPeak st < endGraceS o
  | None => True
  end.

(** The running maximum and the peak of a candidate agree and are not
    negative. *)
Definition peak_inv (st : DetState) : Prop :=
  match cur st with
  | Some c => peak c = maxKmh c /\ 0 <= peak c
  | None => True
  end.

(** The member indices form a contiguous, non-empty, ascending run within
    [[0, n-1]]. *)
Definition contiguous_run (n : nat) (l : list nat) : Prop :=
  l <> [] /\ l = seq (hd O l) (length l)
  /\ Forall (fun k => (k < n)%nat) l.

(** Folding segment [i] into a candidate, in the specification's words:
    add the distance, the duration and the bearing sample, and let the
    peak be the greater of the peak and the segment's speed. *)
Definition fold_segment (c : Wave) (i : nat) (s : Segment) : Wave :=
  mkWave (startIdx c) i
         (wDistM c + or0 (distM s))
         (durationS c + seg_dt s)
         (Rmax (maxKmh c) (or0 (speedKmh s)))
         (segmentIndices c ++ [i])
         (bearings c ++ finite_vals [bearingDeg s])
         (ended c)
         (Rmax (peak c) (or0 (speedKmh s))).

(** [dropPercent = 100 * (1 - currentSpeed / peak)], or 100 if the peak
    is 0. *)
Definition dropPercent (c : Wave) (s : Segment) : R :=
  if Req_dec_T (peak c) 0 then 100
  else 100 * (1 - or0 (speedKmh s) / peak c).

(** The segment's elapsed time is undefined or not positive. *)
Definition invalid_dt (s : Segment) : Prop :=
  forall d, dtS s = Some d -> d <= 0.

(** The options [o] with [baseThresholdKmh] set to [t]. *)
Definition with_threshold (o : Options) (t : R) : Options :=
  mkOptions t (minDurationS o) (useAdaptive o) (winSec o) (kSigma o)
            (dropPct o) (endGraceS o) (dirStdMaxDeg o).

(** The number of segments for which [over] is true. *)
Fixpoint over_count (o : Options) (local : option (list (option LocalStat)))
    (i : nat) (rest : list Segment) : nat :=
  match rest with
  | [] => O
  | s :: rest' =>
      ((if over o local i s then 1 else 0) + over_count o local (S i) rest')%nat
  end.

(** 1 while a candidate is open, else 0. *)
Definition open_count (st : DetState) : nat :=
  match cur st with Some _ => 1%nat | None => O end.

(** ** The local window *)

Definition Rsum (l : list R) : R := fold_right Rplus 0 l.

(** The speed value of segment [k]. *)
Definition speed_at (segs : list Segment) (k : nat) : R :=
  match nth_error segs k with
  | Some s => or0 (speedKmh s)
  | None => 0
  end.

(** The speed values and the accumulated elapsed time of the index window
    [[l .. i]]. *)
Definition window_speeds (segs : list Segment) (l i : nat) : list R :=
  map (speed_at segs) (seq l (S i - l)).

Definition window_time (segs : list Segment) (l i : nat) : R :=
  Rsum (map (dt_at segs) (seq l (S i - l))).

(** The middle value of a sorted list, or the average of the two middle
    values when the count is even. *)
Definition middle (sorted : list R) : R :=
  let n := length sorted in
  if Nat.odd n then nth (n / 2) sorted 0
  else (nth (n / 2 - 1) sorted 0 + nth (n / 2) sorted 0) / 2.

Definition is_median (xs : list R) (m : R) : Prop :=
  exists sorted,
    Permutation xs sorted /\ StronglySorted Rle sorted /\ m = middle sorted.

(** The Bessel-corrected sample standard deviation, its denominator
    [n - 1] floored at 1. *)
Definition sample_std (xs : list R) : R :=
  let n := INR (length xs) in
  let mean := Rsum xs / n in
  sqrt (Rsum (map (fun x => (x - mean) * (x - mean)) xs) / Rmax 1 (n - 1)).

(** The left pointer after each turn of the loop of [computeLocalStats]:
    the same recursion as [stats_loop], keeping [left] instead of the
    statistic. *)
Fixpoint window_lefts (segs : list Segment) (win : R) (rest : list Segment)
    (right left : nat) (timeSpan : R) : list nat :=
  match rest with
  | [] => []
  | sR :: rest' =>
      let '(left', span') :=
        shrink segs win (right - left) left (timeSpan + or0 (dtS sR)) in
      left' :: window_lefts segs win rest' (S right) left' span'
  end.

(** The pointer the loop starts from at segment [k]: the pointer it left
    at segment [k - 1], and [left] at the first segment. *)
Definition previous_left (left : nat) (L : list nat) (k : nat) : nat :=
  match k with
  | O => left
  | S k' => nth k' L O
  end.

(** ** The stability filter *)

(** The circular standard deviation of bearing samples in degrees:
    [sqrt(max(0, -2 ln R)) * 180 / PI] with [R] the mean resultant length
    [sqrt((sum sin)^2 + (sum cos)^2) / n], kept at or above [1e-9]. *)
Definition resultant_length (bs : list R) : R :=
  sqrt ((Rsum (map (fun d => sin (toRad d)) bs))²
        + (Rsum (map (fun d => cos (toRad d)) bs))²)
  / INR (length bs).

Definition circular_std (bs : list R) : R :=
  sqrt (Rmax 0 (-2 * ln (Rmax (resultant_length bs) (1e-9)))) * 180 / PI.

(** The deviation of a resultant length at or under [1e-9]: the
    greatest circular deviation there is. *)
Definition deviation_cap : R := sqrt (-2 * ln (1e-9)) * 180 / PI.

(** The stability filter rejects wave [w]. *)
Definition rejected (o : Options) (w : Wave) : Prop :=
  exists m, dirStdMaxDeg o = Some m
            /\ bearings w <> [] /\ m < circular_std (bearings w).

(** ** The kinematics engine *)

(** What the engine records for the pair of points [p], [q]. *)
Definition segment_of (p q : Point) (s : Segment) : Prop :=
  a s = (lat p, lon p) /\ b s = (lat q, lon q)
  /\ distM s = haversineDistanceM p q
  /\ dtS s = elapsed p q
  /\ speedKmh s
     = num_map2 Rmult
         (if positive (elapsed p q)
          then num_map2 Rdiv (haversineDistanceM p q) (elapsed p q)
          else Some 0)
         (Some 3.6)
  /\ bearingDeg s
     = if isFinite (haversineDistanceM p q)
       then bearingDegrees (lat p, lon p) (lat q, lon q)
       else None.

(** ** What a wave has accumulated *)

(** The elapsed time, the distance and the bearing the detector reads
    from segment [k]. *)
Definition member_dt (segs : list Segment) (k : nat) : R :=
  match nth_error segs k with Some s => seg_dt s | None => 0 end.

Definition member_dist (segs : list Segment) (k : nat) : R :=
  match nth_error segs k with Some s => or0 (distM s) | None => 0 end.

Definition member_bearing (segs : list Segment) (k : nat) : num :=
  match nth_error segs k with Some s => bearingDeg s | None => None end.

(** The greatest of 0 and the values of a list. *)
Definition max_of (l : list R) : R := fold_right Rmax 0 l.

(** The accumulators of wave [w] are the sums, the samples and the
    maximum over its member segments. *)
Definition wave_sums (segs : list Segment) (w : Wave) : Prop :=
  durationS w = Rsum (map (member_dt segs) (segmentIndices w))
  /\ wDistM w = Rsum (map (member_dist segs) (segmentIndices w))
  /\ bearings w = finite_vals (map (member_bearing segs) (segmentIndices w))
  /\ maxKmh w = max_of (map (speed_at segs) (segmentIndices w))
  /\ peak w = maxKmh w.

(** Wave [w1] ends before wave [w2] starts. *)
Definition before (w1 w2 : Wave) : Prop := (endIdx w1 < startIdx w2)%nat.

(** The invariant behind the order of the waves found. *)
Definition order_inv (n : nat) (st : DetState) : Prop :=
  StronglySorted before (found st)
  /\ Forall (fun w => (endIdx w < n)%nat) (found st)
  /\ match cur st with
     | Some c => Forall (fun w => (endIdx w < startIdx c)%nat) (found st)
                 /\ (startIdx c <= endIdx c < n)%nat
     | None => True
     end.

(** The options [o] with [useAdaptive] set to [flag]. *)
Definition with_adaptive (o : Options) (flag : bool) : Options :=
  mkOptions (baseThresholdKmh o) (minDurationS o) flag (winSec o) (kSigma o)
            (dropPct o) (endGraceS o) (dirStdMaxDeg o).

(** Everything the further properties need of the state after [n]
    segments: the accumulators are sums over the members, the running
    maximum has reached the fixed threshold, the duration is positive,
    and the waves are in order. *)
Definition wave_facts (o : Options) (segs : list Segment) (w : Wave) : Prop :=
  wave_sums segs w /\ baseThresholdKmh o <= maxKmh w /\ 0 < durationS w.

Definition det_facts (o : Options) (segs : list Segment) (n : nat)
    (st : DetState) : Prop :=
  Forall (wave_facts o segs) (found st)
  /\ match cur st with
     | Some c => wave_facts o segs c
     | None => True
     end
  /\ order_inv n st.

(** ** The track totals *)

(** The totals of the statistics are those of the segments pushed. *)
Definition kin_totals (acc : KinAcc) : Prop :=
  k_distM acc = Rsum (map (fun s => or0 (distM s)) (k_segments acc))
  /\ k_durationS acc = Rsum (map seg_dt (k_segments acc))
  /\ k_maxKmh acc = max_of (map (fun s => or0 (speedKmh s)) (k_segments acc)).

(** The acceleration the engine records for a segment that follows
    [prev] ([None] for the first segment). *)
Definition accel_after (prev : option Segment) (s : Segment) : num :=
  match prev with
  | Some p =>
      if positive (dtS p)
      then num_map2 Rdiv (num_map2 Rminus (speedKmh s) (speedKmh p)) (dtS p)
      else Some 0
  | None => Some 0
  end.

(** ** Enrichment *)

(** The speed of segment [k], [None] when it is [NaN] or the segment is
    missing. *)
Definition speed_of (segs : list Segment) (k : nat) : num :=
  match nth_error segs k with Some s => speedKmh s | None => None end.

(** ** The first detector *)

(** Wave [w1] ends before wave [w2] starts. *)
Definition before1 (w1 w2 : SimpleWave) : Prop :=
  (sw_endIdx w1 < sw_startIdx w2)%nat.

(** What holds of a wave of the first detector on a track of [n]
    segments. *)
Definition simple_ok (thr minDur : R) (n : nat) (w : SimpleWave) : Prop :=
  (sw_startIdx w <= sw_endIdx w < n)%nat
  /\ thr <= sw_maxKmh w /\ minDur <= sw_durationS w /\ 0 <= sw_durationS w.

(** The invariant of the first loop after [n] segments. *)
Definition detect1_inv (thr minDur : R) (n : nat)
    (st : list SimpleWave * option SimpleWave) : Prop :=
  StronglySorted before1 (fst st)
  /\ Forall (fun w => (S (sw_endIdx w) < n)%nat /\ simple_ok thr minDur n w)
            (fst st)
  /\ match snd st with
     | Some c =>
         (sw_startIdx c <= sw_endIdx c < n)%nat
         /\ thr <= sw_maxKmh c /\ 0 <= sw_durationS c
         /\ Forall (fun w => (sw_endIdx w < sw_startIdx c)%nat) (fst st)
     | None => True
     end.

(** No finite elapsed time of the track is negative: the timestamps do
    not go back. *)
Definition monotone_time (segs : list Segment) : Prop :=
  forall s d, In s segs -> dtS s = Some d -> 0 <= d.

(** ** Best wave *)

(** Wave [w] ranks no higher than wave [best]: a lower peak, or the same
    peak and no greater distance. *)
Definition ranks_below (w best : EnrichedWave) : Prop :=
  maxKmh (wave w) < maxKmh (wave best)
  \/ (maxKmh (wave w) = maxKmh (wave best)
      /\ wDistM (wave w) <= wDistM (wave best)).

(** ** Colours *)

(** A colour channel is a whole number from 0 to 255. *)
Definition channel (c : Z) : Prop := (0 <= c <= 255)%Z.

(** The first and the last colour stop: [BLUE] and [RED]. *)
Definition BLUE : Z * Z * Z := (59, 130, 246)%Z.
Definition RED : Z * Z * Z := (220, 38, 38)%Z.

(** ** Distance *)

(** The haversine term of two points. *)
Definition haversine_term (p q : Point) : R :=
  (sin (toRad (lat q - lat p) / 2))²
  + cos (toRad (lat p)) * cos (toRad (lat q))
    * (sin (toRad (lon q - lon p) / 2))².

(** ** Loading a file *)

(** Two states of the controls that differ at most in the threshold
    field and in [autoThreshold]. *)
Definition same_settings (ui ui' : Controls) : Prop :=
  minDurationInput ui = minDurationInput ui'
  /\ useAdaptiveToggle ui = useAdaptiveToggle ui'
  /\ winSecondsInput ui = winSecondsInput ui'
  /\ kSigmaInput ui = kSigmaInput ui'
  /\ dropPctInput ui = dropPctInput ui'
  /\ endGraceInput ui = endGraceInput ui'
  /\ directionSettings ui = directionSettings ui'.

(** The suggested threshold of a track, rounded to the nearest half. *)
Definition stepped_threshold (segs : list Segment) : R :=
  IZR (js_round (computeAutoThreshold segs * 2)) / 2.

(** * Example tracks and sessions *)

(** The options [detectWavesV2] defaults to, in non-adaptive and in
    adaptive mode. *)
Definition default_options : Options :=
  mkOptions 15 2 false 8 0.8 35 1 (Some 25).

Definition adaptive_options : Options :=
  mkOptions 15 2 true 8 0.8 35 1 (Some 25).

(** A segment heading east: [d] metres in [dt] seconds. *)
Definition east (d dt : R) : Segment :=
  mkSegment (0, 0) (0, 0) (Some d) (Some dt) (Some (d / dt * 3.6))
            (Some 90) (Some 0).

(** A segment of [d] metres between two points of which one has no
    timestamp: its elapsed time is undefined and its speed 0. *)
Definition untimed (d : R) : Segment :=
  mkSegment (0, 0) (0, 0) (Some d) None (Some 0) (Some 90) (Some 0).

(** A fast second, half a slow second, a fast second. *)
Definition dip_track : list Segment :=
  [east 10 1; east 0.5 0.5; east 10 1].

(** The candidate open on [dip_track] after its first segment, and the
    wave the detector returns on it. *)
Definition dip_candidate : Wave :=
  mkWave 0 0 (0 + 10) (0 + 1) (10 / 1 * 3.6) [O] [90] false (10 / 1 * 3.6).

Definition dip_wave : Wave :=
  mkWave 0 2 (0 + 10 + 10) (0 + 1 + 1) (10 / 1 * 3.6) [0; 2]%nat [90; 90]
         false (10 / 1 * 3.6).

(** A fast second, a segment without elapsed time, a fast second. *)
Definition gap_track : list Segment := [east 10 1; untimed 5; east 10 1].

(** Two fast seconds, one second at 21.6 km/h, two fast seconds. *)
Definition split_track : list Segment :=
  [east 10 1; east 10 1; east 6 1; east 10 1; east 10 1].

(** A wave riding towards 10 degrees, and direction settings that ask for
    350 degrees within 20. *)
Definition north_wave : EnrichedWave :=
  mkEnriched dip_candidate 0 0 [O] (Some 10) (Some 36) None (Some O)
             (Some 36) [Some 36].

Definition north_settings : DirectionSettings :=
  mkDirectionSettings true 350 20 25.

(** Three fixes one second apart, and controls that hold the detector's
    default values with adaptive mode and the direction filter off. *)
Definition fix_a : Point := mkPoint 0 0 None (Some 0).
Definition fix_b : Point := mkPoint 0 0.0001 None (Some 1000).
Definition fix_c : Point := mkPoint 0 0.0002 None (Some 2000).

Definition default_controls : Controls :=
  mkControls (Some 15) None (Some 2) false (Some 8) (Some 0.8) (Some 35)
             (Some 1) (mkDirectionSettings false 0 45 25).

(** The session when the page opens, and after a GPX file with the
    first two fixes has been loaded. *)
Definition empty_state : AppState := mkAppState [] [] None [].

Definition loaded_state : AppState :=
  fst (load_file default_controls Gpx (ParseReturns [fix_a; fix_b])
                 empty_state).

(** Two seconds at 3.6 km/h. *)
Definition flat_track : list Segment := [east 1 1; east 1 1].

(** Adaptive mode with a window of 0 seconds. *)
Definition zero_window_options : Options :=
  mkOptions 15 2 true 0 0.8 35 1 (Some 25).

(** The two segments of the track through the three example fixes. *)
Definition fix_track : list Point := [fix_a; fix_b; fix_c].

(** A wave whose two bearing samples are opposite. *)
Definition zigzag_wave : Wave :=
  mkWave 0 1 20 2 36 [0; 1]%nat [0; 180] false 36.



(** Two fast seconds, half a slow second, two fast seconds: the first
    detector finds a wave on either side of the slow segment and merges
    them. *)
Definition merge_track : list Segment :=
  [east 10 1; east 10 1; east 1 0.5; east 10 1; east 10 1].

(** Three waves of a session: a slower one, and two with the same peak of
    which the last is the longer. *)
Definition slow_wave : EnrichedWave :=
  mkEnriched (mkWave 3 4 15 2 27 [3; 4]%nat [90; 90] false 27) 3 4
             [3; 4]%nat (Some 90) (Some 27) None (Some 3%nat) (Some 27)
             [Some 27; Some 27].

Definition long_wave : EnrichedWave :=
  mkEnriched dip_wave 0 2 [0; 1; 2]%nat (Some 90) (Some 36) None (Some O)
             (Some 36) [Some 36; Some 3.6; Some 36].

Definition session_waves : list EnrichedWave :=
  [slow_wave; north_wave; long_wave].

(** The default controls with 40 km/h typed into the threshold field. *)
Definition fast_controls : Controls :=
  mkControls (Some 40) (Some 30) (Some 2) false (Some 8) (Some 0.8) (Some 35)
             (Some 1) (mkDirectionSettings false 0 45 25).

(** * Properties *)

(** ** Comparisons *)

Lemma Rleb_iff (x y : R) : Rleb x y = true <-> x <= y.
Proof. unfold Rleb. destruct (Rle_dec x y); split; intros; try easy. Qed.

Lemma Rltb_iff (x y : R) : Rltb x y = true <-> x < y.
Proof. unfold Rltb. destruct (Rlt_dec x y); split; intros; try easy. Qed.

Lemma Rleb_false_iff (x y : R) : Rleb x y = false <-> y < x.
Proof.
  unfold Rleb. destruct (Rle_dec x y); split; intros; try easy; lra.
Qed.

Lemma Rltb_false_iff (x y : R) : Rltb x y = false <-> y <= x.
Proof.
  unfold Rltb. destruct (Rlt_dec x y); split; intros; try easy; lra.
Qed.

Lemma Rleb_true (x y : R) : x <= y -> Rleb x y = true.
Proof. apply Rleb_iff. Qed.

Lemma Rleb_false (x y : R) : y < x -> Rleb x y = false.
Proof. apply Rleb_false_iff. Qed.

Lemma Rltb_true (x y : R) : x < y -> Rltb x y = true.
Proof. apply Rltb_iff. Qed.

Lemma Rltb_false (x y : R) : y <= x -> Rltb x y = false.
Proof. apply Rltb_false_iff. Qed.

(** Decide the comparisons of a goal whose numbers are literals. *)
Ltac rcompare :=
  repeat match goal with
    | |- context [Rleb ?x ?y] =>
        first [ rewrite (Rleb_true x y) by lra
              | rewrite (Rleb_false x y) by lra ]
    | |- context [Rltb ?x ?y] =>
        first [ rewrite (Rltb_true x y) by lra
              | rewrite (Rltb_false x y) by lra ]
    end.

(** Run the detector on a concrete track: unfold the program, leave the
    real numbers alone, decide the comparisons. *)
Ltac det_unfold :=
  cbv -[Rleb Rltb Rplus Rmult Rminus Rdiv Rinv Ropp IZR Rmax Rmin
        circularStdDeg].

(** One turn of the loop from a state that is already a value. *)
Ltac det_step :=
  match goal with
  | |- context [det_body ?o ?l ?i ?s (mkDetState ?f ?c ?t ?u)] =>
      let st := fresh "st" in
      let E := fresh "E" in
      evar (st : DetState);
      assert (E : det_body o l i s (mkDetState f c t u) = st)
        by (subst st; det_unfold; rcompare; reflexivity);
      rewrite E; clear E; subst st
  end.

Ltac det_eval :=
  cbv -[Rleb Rltb Rplus Rmult Rminus Rdiv Rinv Ropp IZR Rmax Rmin
        circularStdDeg det_body det_close stable dropPercent];
  repeat det_step;
  repeat (det_unfold; rcompare).

Lemma seg_dt_nonneg (s : Segment) : 0 <= seg_dt s.
Proof.
  unfold seg_dt, positive. destruct (dtS s) as [d|]; simpl; [|lra].
  destruct (Rltb 0 d) eqn:E; [apply Rltb_iff in E|]; lra.
Qed.

Lemma seg_dt_invalid (s : Segment) :
  positive (dtS s) = false -> seg_dt s = 0.
Proof. unfold seg_dt. now intros ->. Qed.

Lemma finite_vals_map_Some (l : list R) : finite_vals (map Some l) = l.
Proof. induction l; simpl; congruence. Qed.

(** ** The segmenter's invariant *)


Lemma members_ok_mono (n m : nat) (w : Wave) :
  (n <= m)%nat -> members_ok n w -> members_ok m w.
Proof.
  intros Hnm (H1 & H2 & H3 & H4 & H5). repeat split; auto.
  eapply Forall_impl; [|exact H3]. simpl. intros; lia.
Qed.

Lemma StronglySorted_snoc (l : list nat) (i : nat) :
  StronglySorted lt l -> Forall (fun k => (k < i)%nat) l ->
  StronglySorted lt (l ++ [i]).
Proof.
  induction 1 as [|x l Hs IH Hx]; intros Hall; simpl.
  - repeat constructor.
  - inversion Hall; subst. constructor; [auto|].
    apply Forall_app. split; [assumption|]. now repeat constructor.
Qed.

(** Pushing index [i] on a candidate that is new or sound. *)
Lemma members_ok_push (i : nat) (c : Wave) (d u m : R) (bs : list R)
    (e : bool) (p : R) :
  (segmentIndices c = [] /\ startIdx c = i \/ members_ok i c) ->
  members_ok (S i)
    (mkWave (startIdx c) i d u m (segmentIndices c ++ [i]) bs e p).
Proof.
  intros [[Hnil Hst] | (H1 & H2 & H3 & H4 & H5)]; unfold members_ok; simpl.
  - rewrite Hnil. simpl.
    repeat split; auto; try discriminate; repeat constructor.
  - repeat split.
    + destruct (segmentIndices c); discriminate.
    + now apply StronglySorted_snoc.
    + apply Forall_app. split.
      * eapply Forall_impl; [|exact H3]. simpl. intros; lia.
      * repeat constructor.
    + destruct (segmentIndices c); [contradiction|]. exact H4.
    + apply last_last.
Qed.

Lemma found_mono (o : Options) (n m : nat) (l : list Wave) :
  (n <= m)%nat ->
  Forall (fun w => members_ok n w /\ minDurationS o <= durationS w) l ->
  Forall (fun w => members_ok m w /\ minDurationS o <= durationS w) l.
Proof.
  intros Hnm H. eapply Forall_impl; [|exact H]. simpl.
  intros w [Hw Hd]. split; [eapply members_ok_mono; eauto | exact Hd].
Qed.

Lemma valid_wave_duration (o : Options) (c : Wave) :
  valid_wave o c = true -> minDurationS o <= durationS c.
Proof.
  unfold valid_wave. intros H. apply andb_prop in H as [H _].
  now apply Rleb_iff.
Qed.

Lemma det_body_inv (o : Options) local (i : nat) (s : Segment) (st : DetState) :
  det_inv o i st -> det_inv o (S i) (det_body o local i s st).
Proof.
  intros [Hf Hc]. unfold det_body.
  destruct (over o local i s).
  - split; simpl.
    + eapply found_mono; [|exact Hf]. lia.
    + destruct (cur st) as [c|].
      * apply members_ok_push. now right.
      * apply members_ok_push. left. now split.
  - unfold det_inv. destruct (cur st) as [c|] eqn:Ec.
    + destruct (below o c s).
      * destruct (Rleb (endGraceS o) (timeUnderPeak st + seg_dt s)).
        -- split; simpl; [|exact I].
           destruct (valid_wave o c) eqn:Hv.
           ++ apply Forall_app. split.
              ** eapply found_mono; [|exact Hf]. lia.
              ** constructor; [|constructor]. split.
                 --- eapply members_ok_mono; [|exact Hc]. lia.
                 --- now apply valid_wave_duration.
           ++ eapply found_mono; [|exact Hf]. lia.
        -- split; simpl.
           ++ eapply found_mono; [|exact Hf]. lia.
           ++ eapply members_ok_mono; [|exact Hc]. lia.
      * split; simpl.
        -- eapply found_mono; [|exact Hf]. lia.
        -- apply members_ok_push. now right.
    + split.
      * eapply found_mono; [|exact Hf]. lia.
      * now rewrite Ec.
Qed.

Lemma det_loop_inv (o : Options) local (rest : list Segment) :
  forall (i : nat) (st : DetState),
    det_inv o i st ->
    det_inv o (i + length rest) (det_loop o local i rest st).
Proof.
  induction rest as [|s rest IH]; intros i st H; simpl.
  - now rewrite Nat.add_0_r.
  - rewrite <- Nat.add_succ_comm. apply IH. now apply det_body_inv.
Qed.

Lemma det_init_inv (o : Options) : det_inv o 0 det_init.
Proof. split; simpl; [constructor | exact I]. Qed.

Lemma det_loop_app (o : Options) local (l1 l2 : list Segment) :
  forall (i : nat) (st : DetState),
    det_loop o local i (l1 ++ l2) st
    = det_loop o local (i + length l1) l2 (det_loop o local i l1 st).
Proof.
  induction l1 as [|s l1 IH]; intros i st; simpl.
  - now rewrite Nat.add_0_r.
  - rewrite IH. now rewrite Nat.add_succ_comm.
Qed.

(** The state after [S n] segments is the loop body at segment [n] run
    from the state after [n] segments. *)
Lemma det_state_at_S (o : Options) (segs : list Segment) (n : nat) (s : Segment) :
  nth_error segs n = Some s ->
  det_state_at o segs (S n)
  = det_body o (local_of o segs) n s (det_state_at o segs n).
Proof.
  intros Hn. unfold det_state_at.
  assert (Hlen : (n < length segs)%nat)
    by (apply nth_error_Some; congruence).
  assert (Hf : firstn (S n) segs = firstn n segs ++ [s]).
  { clear Hlen. revert n Hn. induction segs as [|x segs IH]; intros [|n] Hn;
      simpl in *; try discriminate.
    - now inversion Hn.
    - f_equal. now apply IH. }
  rewrite Hf, det_loop_app. simpl.
  rewrite length_firstn, Nat.min_l by lia. reflexivity.
Qed.

Lemma det_state_at_end (o : Options) (segs : list Segment) :
  found_waves o segs = det_close o (det_state_at o segs (length segs)).
Proof. unfold found_waves, det_state_at. now rewrite firstn_all. Qed.

Lemma det_state_at_inv (o : Options) (segs : list Segment) (n : nat) :
  det_inv o (Nat.min n (length segs)) (det_state_at o segs n).
Proof.
  unfold det_state_at.
  rewrite <- (length_firstn n segs).
  apply (det_loop_inv o _ (firstn n segs) 0). apply det_init_inv.
Qed.

Lemma found_waves_ok (o : Options) (segs : list Segment) :
  Forall (fun w => members_ok (length segs) w
                   /\ minDurationS o <= durationS w)
         (found_waves o segs).
Proof.
  rewrite det_state_at_end.
  pose proof (det_state_at_inv o segs (length segs)) as [Hf Hc].
  rewrite Nat.min_id in *.
  unfold det_close. destruct (cur _) as [c|]; [|exact Hf].
  destruct (valid_wave o c) eqn:Hv; [|exact Hf].
  apply Forall_app. split; [exact Hf|].
  constructor; [|constructor]. split; [exact Hc|].
  now apply valid_wave_duration.
Qed.


Lemma det_body_grace (o : Options) local (i : nat) (s : Segment) (st : DetState) :
  0 < endGraceS o -> grace_inv o st ->
  grace_inv o (det_body o local i s st).
Proof.
  intros Hg H. unfold det_body, grace_inv in *.
  destruct (over o local i s); simpl; [lra|].
  destruct (cur st) as [c|] eqn:Ec; [|now rewrite Ec].
  destruct (below o c s); simpl; [|lra].
  destruct (Rleb (endGraceS o) (timeUnderPeak st + seg_dt s)) eqn:E; simpl;
    [exact I|].
  apply Rleb_false_iff in E. pose proof (seg_dt_nonneg s). lra.
Qed.

Lemma det_loop_grace (o : Options) local (rest : list Segment) :
  0 < endGraceS o ->
  forall (i : nat) (st : DetState),
    grace_inv o st -> grace_inv o (det_loop o local i rest st).
Proof.
  intros Hg. induction rest as [|s rest IH]; intros i st H; simpl; [exact H|].
  apply IH. now apply det_body_grace.
Qed.

Lemma det_state_at_grace (o : Options) (segs : list Segment) (n : nat) :
  0 < endGraceS o -> grace_inv o (det_state_at o segs n).
Proof.
  intros Hg. unfold det_state_at. apply det_loop_grace; [exact Hg|].
  exact I.
Qed.

(** ** Evaluating the detector on a concrete track *)

Lemma reduce_sum_repeat (f : R -> R) (d : R) (n : nat) :
  reduce_sum f (repeat d n) = INR n * f d.
Proof.
  unfold reduce_sum.
  assert (H : forall acc, fold_left (fun a v => a + f v) (repeat d n) acc
                          = acc + INR n * f d).
  { induction n as [|n IH]; intros acc.
    - simpl. lra.
    - cbn [repeat fold_left]. rewrite IH, S_INR. lra. }
  rewrite H. lra.
Qed.

(** Bearing samples that are all equal have circular deviation 0. *)
Lemma circularStdDeg_repeat (d : R) (n : nat) :
  circularStdDeg (map Some (repeat d (S n))) = Some 0.
Proof.
  unfold circularStdDeg. rewrite finite_vals_map_Some.
  cbn [repeat]. change (d :: repeat d n) with (repeat d (S n)).
  rewrite !reduce_sum_repeat, repeat_length.
  set (k := INR (S n)).
  assert (Hk : 0 < k) by (apply lt_0_INR; lia).
  replace (k * sin (toRad d) * (k * sin (toRad d))
           + k * cos (toRad d) * (k * cos (toRad d)))
    with (k * k * ((sin (toRad d))² + (cos (toRad d))²))
    by (unfold Rsqr; ring).
  rewrite sin2_cos2, Rmult_1_r, sqrt_square by lra.
  replace (k / k) with 1 by (field; lra).
  rewrite (Rmax_left 1) by lra.
  rewrite ln_1. replace (-2 * 0) with 0 by ring.
  rewrite (Rmax_left 0) by lra. rewrite sqrt_0. f_equal. field.
  apply PI_neq0.
Qed.

Lemma detect_dip_track :
  detectWavesV2 default_options dip_track = [dip_wave].
Proof.
  det_eval.
  rewrite (circularStdDeg_repeat 90 1
           : circularStdDeg [Some 90; Some 90] = Some 0).
  det_eval. reflexivity.
Qed.

(** ** C1: the members of an emitted wave *)

(** C1, as the code has it: every wave the detector returns has a
    non-empty, strictly ascending list of member indices, all below
    [segments.length], that starts at [startIdx] and ends at [endIdx], and
    a cumulative duration of at least [minDurationS].  Contiguity is not
    part of it: a segment that only feeds the grace timer is skipped. *)
Theorem detect_members_ascending (o : Options) (segs : list Segment) (w : Wave) :
  In w (detectWavesV2 o segs) ->
  segmentIndices w <> []
  /\ StronglySorted lt (segmentIndices w)
  /\ Forall (fun k => (k < length segs)%nat) (segmentIndices w)
  /\ hd O (segmentIndices w) = startIdx w
  /\ last (segmentIndices w) O = endIdx w
  /\ minDurationS o <= durationS w.
Proof.
  unfold detectWavesV2. intros Hin.
  apply filter_In in Hin as [Hin _].
  pose proof (found_waves_ok o segs) as H.
  rewrite Forall_forall in H.
  destruct (H w Hin) as [(H1 & H2 & H3 & H4 & H5) H6].
  repeat split; assumption.
Qed.

(** C1 as stated fails: on [dip_track] with the default options the
    detector returns one wave whose members are the segments 0 and 2; the
    slow segment 1 between them only fed the grace timer. *)
Lemma detect_members_not_contiguous :
  ~ (forall w, In w (detectWavesV2 default_options dip_track) ->
               contiguous_run (length dip_track) (segmentIndices w)
               /\ minDurationS default_options <= durationS w).
Proof.
  intros H. rewrite detect_dip_track in H.
  destruct (H dip_wave (or_introl eq_refl)) as [(_ & Hseq & _) _].
  discriminate.
Qed.

(** The wave of [dip_track]: members 0 and 2, two seconds long. *)
Lemma detect_members_ascending_witness :
  segmentIndices dip_wave <> []
  /\ StronglySorted lt (segmentIndices dip_wave)
  /\ Forall (fun k => (k < length dip_track)%nat) (segmentIndices dip_wave)
  /\ hd O (segmentIndices dip_wave) = startIdx dip_wave
  /\ last (segmentIndices dip_wave) O = endIdx dip_wave
  /\ minDurationS default_options <= durationS dip_wave.
Proof.
  apply (detect_members_ascending default_options dip_track dip_wave).
  rewrite detect_dip_track. now left.
Defined.

(** ** The peak of a candidate *)

Lemma det_body_peak local (o : Options) (i : nat) (s : Segment) (st : DetState) :
  peak_inv st -> peak_inv (det_body o local i s st).
Proof.
  intros H. unfold det_body, peak_inv in *.
  assert (Hpush : forall c, (peak c = maxKmh c /\ 0 <= peak c) ->
    (if num_gt (speedKmh s) (maxKmh c) then or0 (speedKmh s) else peak c)
    = (if num_gt (speedKmh s) (maxKmh c) then or0 (speedKmh s) else maxKmh c)
    /\ 0 <= (if num_gt (speedKmh s) (maxKmh c) then or0 (speedKmh s)
             else peak c)).
  { intros c [Hp H0]. unfold num_gt.
    destruct (speedKmh s) as [v|]; simpl; [|now split].
    destruct (Rltb (maxKmh c) v) eqn:E; [|now split].
    apply Rltb_iff in E. split; [reflexivity | lra]. }
  destruct (over o local i s); simpl.
  - destruct (cur st) as [c|]; apply Hpush; [exact H|].
    simpl. split; [reflexivity | lra].
  - destruct (cur st) as [c|] eqn:Ec; [|now rewrite Ec].
    destruct (below o c s); simpl.
    + destruct (Rleb _ _); simpl; [exact I | exact H].
    + apply Hpush. exact H.
Qed.

Lemma det_state_at_peak (o : Options) (segs : list Segment) (n : nat) :
  peak_inv (det_state_at o segs n).
Proof.
  unfold det_state_at. generalize (firstn n segs) as l.
  assert (H : forall l i st, peak_inv st ->
                peak_inv (det_loop o (local_of o segs) i l st)).
  { induction l as [|s l IH]; intros i st Hst; simpl; [exact Hst|].
    apply IH. now apply det_body_peak. }
  intros l. apply H. exact I.
Qed.

(** On a candidate whose peak is its running maximum, the code's update
    is [fold_segment]. *)
Lemma push_is_fold (c : Wave) (i : nat) (s : Segment) :
  peak c = maxKmh c -> 0 <= peak c ->
  mkWave (startIdx c) i
         (wDistM c + or0 (distM s))
         (durationS c + seg_dt s)
         (if num_gt (speedKmh s) (maxKmh c) then or0 (speedKmh s)
          else maxKmh c)
         (segmentIndices c ++ [i])
         (match bearingDeg s with
          | Some bd => bearings c ++ [bd]
          | None => bearings c
          end)
         (ended c)
         (if num_gt (speedKmh s) (maxKmh c) then or0 (speedKmh s) else peak c)
  = fold_segment c i s.
Proof.
  intros Hp H0. unfold fold_segment.
  assert (Hb : match bearingDeg s with
               | Some bd => bearings c ++ [bd]
               | None => bearings c
               end = bearings c ++ finite_vals [bearingDeg s]).
  { destruct (bearingDeg s); simpl; [reflexivity | now rewrite app_nil_r]. }
  rewrite Hb. unfold num_gt.
  destruct (speedKmh s) as [v|]; simpl.
  - destruct (Rltb (maxKmh c) v) eqn:E.
    + apply Rltb_iff in E.
      rewrite (Rmax_right (maxKmh c) v), (Rmax_right (peak c) v) by lra.
      reflexivity.
    + apply Rltb_false_iff in E.
      rewrite (Rmax_left (maxKmh c) v), (Rmax_left (peak c) v) by lra.
      reflexivity.
  - rewrite (Rmax_left (maxKmh c) 0), (Rmax_left (peak c) 0) by lra.
    reflexivity.
Qed.

Lemma drop_of_spec (c : Wave) (s : Segment) :
  0 <= peak c -> drop_of c s = dropPercent c s.
Proof.
  intros H0. unfold drop_of, dropPercent.
  destruct (Req_dec_T (peak c) 0) as [E|E].
  - rewrite E. now rewrite Rltb_false by lra.
  - rewrite Rltb_true by lra. ring.
Qed.

(** ** C2: a segment under the threshold while a candidate is open *)

Lemma valid_wave_iff (o : Options) (c : Wave) :
  valid_wave o c = true
  <-> minDurationS o <= durationS c /\ segmentIndices c <> [].
Proof.
  unfold valid_wave. rewrite andb_true_iff, Rleb_iff, negb_true_iff.
  destruct (segmentIndices c); simpl; split; intros [H1 H2]; split;
    auto; try discriminate. contradiction.
Qed.

Lemma det_close_spec (o : Options) (st : DetState) (c : Wave) :
  cur st = Some c ->
  (minDurationS o <= durationS c /\ segmentIndices c <> [] ->
   det_close o st = found st ++ [c])
  /\ (~ (minDurationS o <= durationS c /\ segmentIndices c <> []) ->
      det_close o st = found st).
Proof.
  intros Hc. unfold det_close. rewrite Hc.
  destruct (valid_wave o c) eqn:Hv; split; intros H; try reflexivity.
  - apply valid_wave_iff in Hv. contradiction.
  - apply valid_wave_iff in H. congruence.
Qed.

(** The loop body on an open candidate, by cases. *)
Lemma det_body_active (o : Options) local (i : nat) (s : Segment)
    (st : DetState) (c : Wave) :
  cur st = Some c -> peak c = maxKmh c -> 0 <= peak c ->
  let st' := det_body o local i s st in
  let grace := timeUnderPeak st + seg_dt s in
  (over o local i s = true ->
     cur st' = Some (fold_segment c i s)
     /\ timeUnderPeak st' = 0 /\ found st' = found st)
  /\ (over o local i s = false -> dropPercent c s < dropPct o ->
     cur st' = Some (fold_segment c i s)
     /\ timeUnderPeak st' = 0 /\ found st' = found st)
  /\ (over o local i s = false -> dropPct o <= dropPercent c s ->
      grace < endGraceS o ->
     cur st' = Some c /\ timeUnderPeak st' = grace /\ found st' = found st)
  /\ (over o local i s = false -> dropPct o <= dropPercent c s ->
      endGraceS o <= grace ->
     cur st' = None /\ timeUnderPeak st' = 0
     /\ found st' = det_close o st).
Proof.
  intros Hc Hp H0. cbv zeta. unfold det_body, det_close. rewrite Hc.
  unfold below. rewrite (drop_of_spec c s H0).
  split; [|split; [|split]].
  - intros Ho. rewrite Ho. simpl.
    now rewrite push_is_fold by assumption.
  - intros Ho Hd. rewrite Ho, Rleb_false by lra. simpl.
    now rewrite push_is_fold by assumption.
  - intros Ho Hd Hg.
    rewrite Ho, (Rleb_true _ _ Hd), (Rleb_false _ _ Hg). now simpl.
  - intros Ho Hd Hg.
    rewrite Ho, (Rleb_true _ _ Hd), (Rleb_true _ _ Hg). now simpl.
Qed.

(** C2: a candidate [c] is open when segment [i] arrives and the
    segment's speed is under the threshold.  With
    [dropPercent = 100 * (1 - speed / peak)] (100 when the peak is 0):
    below the configured [dropPct] the segment is folded into the
    candidate and the grace timer reset, which is also what an
    over-threshold segment does to an open candidate; otherwise the
    segment's elapsed time is added to the grace timer, and when the
    timer reaches [endGraceS] the candidate closes, is emitted exactly
    when its duration is at least [minDurationS] and it has a member, and
    the state is Idle again.  A candidate still open at the end of the
    sequence is closed and emitted under the same condition. *)
Theorem under_threshold_rule (o : Options) (segs : list Segment) (i : nat)
    (s : Segment) (c : Wave) :
  nth_error segs i = Some s ->
  cur (det_state_at o segs i) = Some c ->
  num_ge (speedKmh s) (threshold o (local_of o segs) i) = false ->
  let st := det_state_at o segs i in
  let st' := det_state_at o segs (S i) in
  let grace := timeUnderPeak st + seg_dt s in
  let valid (w : Wave) := minDurationS o <= durationS w /\ segmentIndices w <> [] in
  (dropPercent c s < dropPct o ->
     cur st' = Some (fold_segment c i s)
     /\ timeUnderPeak st' = 0 /\ found st' = found st)
  /\ (forall j sj cj,
        nth_error segs j = Some sj ->
        cur (det_state_at o segs j) = Some cj ->
        over o (local_of o segs) j sj = true ->
        cur (det_state_at o segs (S j)) = Some (fold_segment cj j sj)
        /\ timeUnderPeak (det_state_at o segs (S j)) = 0
        /\ found (det_state_at o segs (S j)) = found (det_state_at o segs j))
  /\ (dropPct o <= dropPercent c s -> grace < endGraceS o ->
      cur st' = Some c /\ timeUnderPeak st' = grace /\ found st' = found st)
  /\ (dropPct o <= dropPercent c s -> endGraceS o <= grace ->
      cur st' = None /\ timeUnderPeak st' = 0
      /\ (valid c -> found st' = found st ++ [c])
      /\ (~ valid c -> found st' = found st))
  /\ (forall cN,
        cur (det_state_at o segs (length segs)) = Some cN ->
        (valid cN ->
         found_waves o segs = found (det_state_at o segs (length segs)) ++ [cN])
        /\ (~ valid cN ->
            found_waves o segs = found (det_state_at o segs (length segs)))).
Proof.
  intros Hs Hc Hu. cbv zeta.
  assert (Ho : over o (local_of o segs) i s = false)
    by (unfold over; now rewrite Hu).
  pose proof (det_state_at_peak o segs i) as Hp.
  unfold peak_inv in Hp. rewrite Hc in Hp. destruct Hp as [Hp H0].
  rewrite (det_state_at_S o segs i s Hs).
  destruct (det_body_active o (local_of o segs) i s _ c Hc Hp H0)
    as (_ & Hfold & Hgrace & Hclose).
  split; [now apply Hfold|].
  split.
  { intros j sj cj Hj Hcj Hoj.
    pose proof (det_state_at_peak o segs j) as Hpj.
    unfold peak_inv in Hpj. rewrite Hcj in Hpj. destruct Hpj as [Hpj H0j].
    rewrite (det_state_at_S o segs j sj Hj).
    destruct (det_body_active o (local_of o segs) j sj _ cj Hcj Hpj H0j)
      as (Hover & _). now apply Hover. }
  split; [now apply Hgrace|].
  split.
  { intros Hd Hg. destruct (Hclose Ho Hd Hg) as (H1 & H2 & H3).
    destruct (det_close_spec o _ c Hc) as [Hv Hnv].
    repeat split; auto.
    - intros Hval. rewrite H3. now apply Hv.
    - intros Hval. rewrite H3. now apply Hnv. }
  intros cN HcN. rewrite det_state_at_end. now apply det_close_spec.
Qed.

(** On [dip_track] the slow segment 1 meets the drop criterion and adds
    its half second to the grace timer; the candidate stays open. *)
Lemma under_threshold_rule_witness :
  cur (det_state_at default_options dip_track 2) = Some dip_candidate
  /\ timeUnderPeak (det_state_at default_options dip_track 2)
     = timeUnderPeak (det_state_at default_options dip_track 1)
       + seg_dt (east 0.5 0.5)
  /\ found (det_state_at default_options dip_track 2)
     = found (det_state_at default_options dip_track 1).
Proof.
  assert (H1 : nth_error dip_track 1 = Some (east 0.5 0.5)) by reflexivity.
  assert (H2 : cur (det_state_at default_options dip_track 1)
               = Some dip_candidate) by (det_eval; reflexivity).
  assert (H3 : num_ge (speedKmh (east 0.5 0.5))
                 (threshold default_options
                    (local_of default_options dip_track) 1) = false)
    by (det_eval; reflexivity).
  destruct (under_threshold_rule default_options dip_track 1 (east 0.5 0.5)
              dip_candidate H1 H2 H3) as (_ & _ & Hgrace & _).
  apply Hgrace.
  - unfold dropPercent. det_eval.
    destruct (Req_dec_T _ _) as [E|E]; lra.
  - det_eval. lra.
Defined.

(** ** C9: the local statistics window *)

Lemma reduce_sum_Rsum (f : R -> R) (l : list R) :
  reduce_sum f l = Rsum (map f l).
Proof.
  unfold reduce_sum.
  assert (H : forall acc, fold_left (fun u v => u + f v) l acc
                          = acc + Rsum (map f l)).
  { induction l as [|x l IH]; intros acc; simpl; [lra|].
    rewrite IH. lra. }
  rewrite H. lra.
Qed.

Lemma Rsum_Permutation (l l' : list R) :
  Permutation l l' -> Rsum l = Rsum l'.
Proof. induction 1; simpl; lra. Qed.

Lemma Rsum_app (l l' : list R) : Rsum (l ++ l') = Rsum l + Rsum l'.
Proof. induction l as [|x l IH]; simpl; lra. Qed.

Lemma Rleb_trans : Transitive (fun x y => is_true (Rleb x y)).
Proof.
  intros x y z Hxy Hyz. apply Rleb_iff in Hxy, Hyz.
  apply Rleb_iff. lra.
Qed.

Lemma sort_sorted (xs : list R) : StronglySorted Rle (RSort.sort xs).
Proof.
  pose proof (RSort.StronglySorted_sort xs Rleb_trans) as H.
  induction H as [|x l Hl IH Hx]; constructor; [exact IH|].
  eapply Forall_impl; [|exact Hx]. intros y Hy. now apply Rleb_iff.
Qed.

(** What the code computes for a window is the median and the sample
    standard deviation of its values. *)
Lemma window_stat_spec (xs : list R) :
  is_median xs (median (window_stat xs))
  /\ std (window_stat xs) = sample_std xs.
Proof.
  destruct xs as [|x xs].
  - split.
    + exists []. repeat split; [constructor | constructor |].
      unfold middle. simpl. lra.
    + unfold sample_std. simpl. unfold Rdiv at 1.
      now rewrite Rmult_0_l, sqrt_0.
  - unfold window_stat. cbv beta iota zeta. cbn [median std].
    set (l := x :: xs).
    pose proof (RSort.Permuted_sort l) as Hperm.
    pose proof (Permutation_length Hperm) as Hlen.
    split.
    + exists (RSort.sort l). repeat split; [exact Hperm | apply sort_sorted |].
      unfold middle. destruct (Nat.odd _); [reflexivity | lra].
    + unfold sample_std. rewrite !reduce_sum_Rsum, map_id, <- Hlen.
      rewrite <- (Rsum_Permutation _ _ Hperm).
      rewrite <- (Rsum_Permutation _ _ (Permutation_map _ Hperm)).
      reflexivity.
Qed.

Lemma Rsum_seq_split (f : nat -> R) (l m r : nat) :
  (l <= m <= r)%nat ->
  Rsum (map f (seq l (r - l)))
  = Rsum (map f (seq l (m - l))) + Rsum (map f (seq m (r - m))).
Proof.
  intros H. replace (r - l)%nat with ((m - l) + (r - m))%nat by lia.
  rewrite seq_app, map_app, Rsum_app.
  now replace (l + (m - l))%nat with m by lia.
Qed.

(** The inner loop stops at a pointer between [left] and [left + n]; it
    has subtracted the elapsed time of the segments it left behind, and
    it stops either under the window length or at [left + n]. *)
Lemma shrink_spec (segs : list Segment) (win : R) (n : nat) :
  forall (left : nat) (ts : R) (l' : nat) (ts' : R),
    shrink segs win n left ts = (l', ts') ->
    (left <= l' <= left + n)%nat
    /\ ts' = ts - Rsum (map (dt_at segs) (seq left (l' - left)))
    /\ (ts' <= win \/ l' = (left + n)%nat).
Proof.
  induction n as [|n IH]; intros left ts l' ts' H; simpl in H.
  - inversion H; subst. rewrite Nat.sub_diag. simpl.
    split; [lia|]. split; [lra|]. right. lia.
  - destruct (Rltb win ts) eqn:E.
    + apply IH in H as (Hl & Hts & Hstop).
      split; [lia|]. split.
      * replace (l' - left)%nat with (S (l' - S left)) by lia.
        simpl. rewrite Hts. lra.
      * destruct Hstop as [Hstop|Hstop]; [now left | right; lia].
    + inversion H; subst. apply Rltb_false_iff in E.
      rewrite Nat.sub_diag. simpl.
      split; [lia|]. split; [lra|]. now left.
Qed.

Lemma skipn_cons_inv {A} (l : list A) (n : nat) (x : A) (r : list A) :
  skipn n l = x :: r -> nth_error l n = Some x /\ skipn (S n) l = r.
Proof.
  revert n. induction l as [|y l IH]; intros [|n] H; simpl in *;
    try discriminate.
  - inversion H. now split.
  - now apply IH.
Qed.

(** The pointers of the outer loop.  [timeSpan] enters as the elapsed
    time of the segments [[left .. right-1]]. *)
Lemma window_lefts_spec (segs : list Segment) (win : R) (rest : list Segment) :
  forall (right left : nat) (ts : R),
    (left <= right)%nat ->
    skipn right segs = rest ->
    ts = Rsum (map (dt_at segs) (seq left (right - left))) ->
    let L := window_lefts segs win rest right left ts in
    length L = length rest
    /\ forall k, (k < length rest)%nat ->
         (left <= nth k L O <= right + k)%nat
         /\ (window_time segs (nth k L O) (right + k) <= win
             \/ nth k L O = (right + k)%nat)
         /\ forall j, (j <= k)%nat -> (nth j L O <= nth k L O)%nat.
Proof.
  induction rest as [|sR rest IH]; intros right left ts Hle Hskip Hts; cbv zeta.
  - simpl. split; [reflexivity | intros k Hk; lia].
  - apply skipn_cons_inv in Hskip as [HsR Hskip].
    cbn [window_lefts].
    destruct (shrink segs win (right - left) left (ts + or0 (dtS sR)))
      as [l' ts'] eqn:Hsh.
    apply shrink_spec in Hsh as (Hl & Hts' & Hstop).
    assert (Hdt : or0 (dtS sR) = dt_at segs right)
      by (unfold dt_at; now rewrite HsR).
    assert (Hspan : ts' = window_time segs l' right).
    { unfold window_time. rewrite Hts', Hts, Hdt.
      pose proof (Rsum_seq_split (dt_at segs) left l' (S right)
                    ltac:(lia)) as HA.
      assert (HB : Rsum (map (dt_at segs) (seq left (S right - left)))
                   = Rsum (map (dt_at segs) (seq left (right - left)))
                     + dt_at segs right).
      { replace (S right - left)%nat with ((right - left) + 1)%nat by lia.
        rewrite seq_app, map_app, Rsum_app. simpl.
        replace (left + (right - left))%nat with right by lia. lra. }
      lra. }
    assert (Hin : ts' = Rsum (map (dt_at segs) (seq l' (S right - l'))))
      by exact Hspan.
    destruct (IH (S right) l' ts' ltac:(lia) Hskip Hin) as [Hlen Hk].
    cbv zeta in Hlen, Hk. simpl. split; [now rewrite Hlen|].
    intros [|k] Hlt.
    + rewrite Nat.add_0_r. repeat split; try lia.
      * destruct Hstop as [Hstop|Hstop]; [left; now rewrite <- Hspan|].
        right. lia.
      * intros j Hj. now replace j with O by lia.
    + destruct (Hk k ltac:(lia)) as (Hb & Hw & Hm).
      rewrite <- Nat.add_succ_comm. repeat split; try lia; [exact Hw|].
      intros [|j] Hj; [lia|]. apply Hm. lia.
Qed.

(** The inner loop moves the pointer only past positions at which the
    elapsed time still exceeds the window length. *)
Lemma shrink_advances (segs : list Segment) (win : R) (n : nat) :
  forall (left : nat) (ts : R) (l' : nat) (ts' : R),
    shrink segs win n left ts = (l', ts') ->
    forall m, (left <= m < l')%nat ->
      win < ts - Rsum (map (dt_at segs) (seq left (m - left))).
Proof.
  induction n as [|n IH]; intros left ts l' ts' H m Hm; simpl in H.
  - inversion H; subst. lia.
  - destruct (Rltb win ts) eqn:E.
    + apply Rltb_iff in E.
      destruct (Nat.eq_dec m left) as [->|Hne].
      * rewrite Nat.sub_diag. simpl. lra.
      * pose proof (IH _ _ _ _ H m ltac:(lia)) as Hm'.
        replace (m - left)%nat with (S (m - S left)) by lia.
        simpl. lra.
    + inversion H; subst. lia.
Qed.

(** Each turn of the outer loop moves the pointer on from where the turn
    before left it, and only past positions whose window exceeds the
    window length. *)
Lemma window_lefts_advance (segs : list Segment) (win : R) (rest : list Segment) :
  forall (right left : nat) (ts : R),
    (left <= right)%nat ->
    skipn right segs = rest ->
    ts = Rsum (map (dt_at segs) (seq left (right - left))) ->
    let L := window_lefts segs win rest right left ts in
    forall k, (k < length rest)%nat ->
      (previous_left left L k <= nth k L O)%nat
      /\ forall m, (previous_left left L k <= m < nth k L O)%nat ->
           win < window_time segs m (right + k).
Proof.
  induction rest as [|sR rest IH]; intros right left ts Hle Hskip Hts; cbv zeta.
  - simpl. intros k Hk. lia.
  - apply skipn_cons_inv in Hskip as [HsR Hskip].
    cbn [window_lefts].
    destruct (shrink segs win (right - left) left (ts + or0 (dtS sR)))
      as [l' ts'] eqn:Hsh.
    pose proof (shrink_advances _ _ _ _ _ _ _ Hsh) as Hadv.
    apply shrink_spec in Hsh as (Hl & Hts' & Hstop).
    assert (Hdt : or0 (dtS sR) = dt_at segs right)
      by (unfold dt_at; now rewrite HsR).
    assert (HB : Rsum (map (dt_at segs) (seq left (S right - left)))
                 = Rsum (map (dt_at segs) (seq left (right - left)))
                   + dt_at segs right).
    { replace (S right - left)%nat with ((right - left) + 1)%nat by lia.
      rewrite seq_app, map_app, Rsum_app. simpl.
      replace (left + (right - left))%nat with right by lia. lra. }
    assert (Hin : ts' = Rsum (map (dt_at segs) (seq l' (S right - l')))).
    { rewrite Hts', Hts, Hdt.
      pose proof (Rsum_seq_split (dt_at segs) left l' (S right)
                    ltac:(lia)) as HA.
      lra. }
    pose proof (IH (S right) l' ts' ltac:(lia) Hskip Hin) as Hk.
    cbv zeta in Hk.
    intros [|k] Hlt.
    + cbn [previous_left nth]. rewrite Nat.add_0_r. split; [lia|].
      intros m Hm. specialize (Hadv m Hm).
      unfold window_time.
      pose proof (Rsum_seq_split (dt_at segs) left m (S right)
                    ltac:(lia)) as HA.
      lra.
    + destruct (Hk k ltac:(simpl in Hlt; lia)) as [Hprev Hmin].
      rewrite <- Nat.add_succ_comm. cbn [nth].
      assert (Hp : previous_left left
                     (l' :: window_lefts segs win rest (S right) l' ts') (S k)
                   = previous_left l'
                       (window_lefts segs win rest (S right) l' ts') k)
        by (destruct k; reflexivity).
      rewrite Hp. split; [exact Hprev | exact Hmin].
Qed.

Lemma stats_loop_nth (segs : list Segment) (win : R) (speeds : list num)
    (rest : list Segment) :
  forall (right left : nat) (ts : R),
    length (stats_loop segs win speeds rest right left ts) = length rest
    /\ forall k, (k < length rest)%nat ->
         nth_error (stats_loop segs win speeds rest right left ts) k
         = Some (Some (window_stat (finite_vals
             (slice speeds
                (nth k (window_lefts segs win rest right left ts) O)
                (S (right + k)))))).
Proof.
  induction rest as [|sR rest IH]; intros right left ts.
  - simpl. split; [reflexivity | intros k Hk; lia].
  - cbn [stats_loop window_lefts].
    destruct (shrink segs win (right - left) left (ts + or0 (dtS sR)))
      as [l' ts'].
    destruct (IH (S right) l' ts') as [Hlen Hk]. simpl.
    split; [now rewrite Hlen|].
    intros [|k] Hlt; simpl.
    + now rewrite Nat.add_0_r.
    + rewrite Hk by lia. now rewrite Nat.add_succ_comm.
Qed.

Lemma slice_map_seq {A B} (f : A -> B) (g : nat -> B) (l : list A)
    (from to : nat) :
  (forall k x, nth_error l k = Some x -> g k = f x) ->
  (to <= length l)%nat ->
  slice (map f l) from to = map g (seq from (to - from)).
Proof.
  intros Hg Hto. unfold slice. apply nth_error_ext. intros n.
  rewrite nth_error_firstn, nth_error_skipn, !nth_error_map, nth_error_seq.
  destruct (n <? to - from)%nat eqn:E; [|reflexivity].
  apply Nat.ltb_lt in E. simpl.
  destruct (nth_error l (from + n)) as [x|] eqn:Ex.
  - simpl. now rewrite (Hg _ _ Ex).
  - apply nth_error_None in Ex. lia.
Qed.

Lemma slice_speeds (segs : list Segment) (l i : nat) :
  (i < length segs)%nat ->
  finite_vals (slice (map (fun s => Some (or0 (speedKmh s))) segs) l (S i))
  = window_speeds segs l i.
Proof.
  intros Hi. unfold window_speeds.
  rewrite (slice_map_seq _ (fun k => Some (speed_at segs k)) segs l (S i)).
  - rewrite <- (map_map (speed_at segs) Some). apply finite_vals_map_Some.
  - intros k x Hk. unfold speed_at. now rewrite Hk.
  - lia.
Qed.

(** C9: for a window length [win > 0] the local statistics hold one pair
    per segment, and the left pointers [l_i <= i] of the two-pointer loop
    are non-decreasing in [i]: [l_i] starts from [l_(i-1)] (from 0 for
    the first segment) and moves on only past positions [m] whose window
    [[m .. i]] has an accumulated elapsed time above [win], so that the
    elapsed time accumulated over [[l_i .. i]] is at most [win] unless
    the window is the single segment [i]; this fixes every [l_i].  The
    pair at [i] is the median and the Bessel-corrected sample standard
    deviation of the speed values of the segments [[l_i .. i]]. *)
Theorem local_stats_window (segs : list Segment) (win : R) :
  0 < win ->
  length (computeLocalStats segs win) = length segs
  /\ exists lefts : list nat,
       length lefts = length segs
       /\ forall i, (i < length segs)%nat ->
            let l := nth i lefts O in
            (l <= i)%nat
            /\ (forall j, (j <= i)%nat -> (nth j lefts O <= l)%nat)
            /\ (window_time segs l i <= win \/ l = i)
            /\ (previous_left 0 lefts i <= l)%nat
            /\ (forall m, (previous_left 0 lefts i <= m < l)%nat ->
                   win < window_time segs m i)
            /\ exists st,
                 nth_error (computeLocalStats segs win) i = Some (Some st)
                 /\ is_median (window_speeds segs l i) (median st)
                 /\ std st = sample_std (window_speeds segs l i).
Proof.
  intros Hwin. unfold computeLocalStats.
  rewrite (Rleb_false win 0 Hwin), orb_false_r.
  destruct (length segs =? 0)%nat eqn:E.
  - apply Nat.eqb_eq in E. rewrite E. simpl. split; [reflexivity|].
    exists []. split; [reflexivity | intros i Hi; lia].
  - set (speeds := map (fun s => Some (or0 (speedKmh s))) segs).
    destruct (stats_loop_nth segs win speeds segs 0 0 0) as [Hlen Hnth].
    destruct (window_lefts_spec segs win segs 0 0 0 (Nat.le_refl 0)
                eq_refl ltac:(simpl; reflexivity)) as [HL Hk].
    pose proof (window_lefts_advance segs win segs 0 0 0 (Nat.le_refl 0)
                  eq_refl ltac:(simpl; reflexivity)) as Hadv.
    cbv zeta in HL, Hk, Hadv.
    split; [exact Hlen|].
    exists (window_lefts segs win segs 0 0 0). split; [exact HL|].
    intros i Hi. cbv zeta.
    destruct (Hk i Hi) as (Hb & Hw & Hm). simpl in Hb, Hw.
    destruct (Hadv i Hi) as [Hprev Hmin]. simpl in Hmin.
    split; [lia|]. split; [exact Hm|]. split; [exact Hw|].
    split; [exact Hprev|]. split; [exact Hmin|].
    eexists. split; [apply Hnth; exact Hi|].
    simpl. unfold speeds. rewrite slice_speeds by exact Hi.
    apply window_stat_spec.
Qed.

(** On [dip_track] (1 s, 0.5 s, 1 s) with a window of 1.2 s the pointer
    moves on at the second and at the third segment. *)
Lemma local_stats_window_witness :
  length (computeLocalStats dip_track 1.2) = length dip_track
  /\ exists lefts : list nat,
       length lefts = length dip_track
       /\ forall i, (i < length dip_track)%nat ->
            let l := nth i lefts O in
            (l <= i)%nat
            /\ (forall j, (j <= i)%nat -> (nth j lefts O <= l)%nat)
            /\ (window_time dip_track l i <= 1.2 \/ l = i)
            /\ (previous_left 0 lefts i <= l)%nat
            /\ (forall m, (previous_left 0 lefts i <= m < l)%nat ->
                   1.2 < window_time dip_track m i)
            /\ exists st,
                 nth_error (computeLocalStats dip_track 1.2) i = Some (Some st)
                 /\ is_median (window_speeds dip_track l i) (median st)
                 /\ std st = sample_std (window_speeds dip_track l i).
Proof. apply (local_stats_window dip_track 1.2). lra. Defined.

(** ** C3: when a candidate starts *)

Lemma computeLocalStats_defined (segs : list Segment) (win : R) (i : nat) :
  0 < win -> (i < length segs)%nat ->
  exists ls, nth_error (computeLocalStats segs win) i = Some (Some ls).
Proof.
  intros Hwin Hi. unfold computeLocalStats.
  rewrite (Rleb_false win 0 Hwin), orb_false_r.
  destruct (length segs =? 0)%nat eqn:E.
  - apply Nat.eqb_eq in E. lia.
  - eexists. now apply stats_loop_nth.
Qed.

Lemma seg_dt_positive (s : Segment) :
  Rltb 0 (seg_dt s) = true <-> exists d, dtS s = Some d /\ 0 < d.
Proof.
  unfold seg_dt, positive. destruct (dtS s) as [d|]; simpl.
  - destruct (Rltb 0 d) eqn:E.
    + split; [intros _; exists d; split; [reflexivity | now apply Rltb_iff]
             | intros _; exact E].
    + split.
      * intros H. apply Rltb_iff in H. lra.
      * intros (d' & Hd & Hpos). inversion Hd; subst.
        apply Rltb_false_iff in E. lra.
  - split.
    + intros H. apply Rltb_iff in H. lra.
    + intros (d & Hd & _). discriminate.
Qed.

Lemma over_iff (o : Options) local (i : nat) (s : Segment) :
  over o local i s = true
  <-> exists v d, speedKmh s = Some v /\ threshold o local i <= v
                  /\ dtS s = Some d /\ 0 < d.
Proof.
  unfold over. rewrite andb_true_iff, seg_dt_positive. unfold num_ge.
  split.
  - intros [Hv (d & Hd & Hpos)]. destruct (speedKmh s) as [v|]; [|discriminate].
    exists v, d. apply Rleb_iff in Hv. auto.
  - intros (v & d & Hv & Hthr & Hd & Hpos). rewrite Hv. split.
    + now apply Rleb_iff.
    + now exists d.
Qed.

(** The options [runWaveDetection] passes to the detector are in range:
    the window length is at least one second. *)
Lemma options_of_ranges (ui : Controls) :
  1 <= winSec (options_of ui)
  /\ 0 <= minDurationS (options_of ui)
  /\ 0 <= kSigma (options_of ui)
  /\ 0 <= dropPct (options_of ui) <= 100
  /\ 0 <= endGraceS (options_of ui).
Proof.
  unfold options_of, clamp. simpl.
  repeat split; try apply Rmax_l.
  apply Rmax_lub; [lra | apply Rmin_l].
Qed.

(** An open candidate started before the segment being processed. *)
Lemma open_started_before (o : Options) (segs : list Segment) (n : nat) (c : Wave) :
  cur (det_state_at o segs n) = Some c -> (startIdx c < n)%nat.
Proof.
  intros Hc. pose proof (det_state_at_inv o segs n) as [_ H].
  rewrite Hc in H. destruct H as (Hne & _ & Hall & Hhd & _).
  destruct (segmentIndices c) as [|k l]; [contradiction|].
  simpl in Hhd. subst k. inversion Hall; subst. lia.
Qed.

(** C3: a candidate with start index [i] is open after segment [i]
    exactly when no candidate was open before it (Idle), the segment's
    speed is at least the segment's threshold and its elapsed time is
    strictly positive; the new candidate's peak is the segment's speed.
    The threshold is the fixed [baseThresholdKmh] in non-adaptive mode and
    [max(baseThresholdKmh, median + kSigma * std)] of the segment's local
    statistic in adaptive mode.  Speeds are not negative, and the window
    length of adaptive mode is positive. *)
Theorem candidate_start (o : Options) (segs : list Segment) (i : nat)
    (s : Segment) :
  nth_error segs i = Some s ->
  (forall v, speedKmh s = Some v -> 0 <= v) ->
  (useAdaptive o = true -> 0 < winSec o) ->
  let st := det_state_at o segs i in
  let st' := det_state_at o segs (S i) in
  let thr := threshold o (local_of o segs) i in
  ((exists c, cur st' = Some c /\ startIdx c = i)
   <-> (cur st = None
        /\ exists v d, speedKmh s = Some v /\ thr <= v
                       /\ dtS s = Some d /\ 0 < d))
  /\ (forall c, cur st' = Some c -> startIdx c = i ->
        peak c = or0 (speedKmh s) /\ segmentIndices c = [i])
  /\ (useAdaptive o = false -> thr = baseThresholdKmh o)
  /\ (useAdaptive o = true ->
      exists ls,
        nth_error (computeLocalStats segs (winSec o)) i = Some (Some ls)
        /\ thr = Rmax (baseThresholdKmh o) (median ls + kSigma o * std ls)).
Proof.
  intros Hs Hv Hw. cbv zeta.
  rewrite (det_state_at_S o segs i s Hs).
  assert (Hstep :
    forall c, cur (det_body o (local_of o segs) i s (det_state_at o segs i))
              = Some c -> startIdx c = i ->
      cur (det_state_at o segs i) = None
      /\ over o (local_of o segs) i s = true
      /\ peak c = or0 (speedKmh s) /\ segmentIndices c = [i]).
  { intros c Hc Hi. unfold det_body in Hc.
    destruct (cur (det_state_at o segs i)) as [c0|] eqn:E0.
    - pose proof (open_started_before o segs i c0 E0) as Hlt.
      destruct (over o (local_of o segs) i s).
      + simpl in Hc. inversion Hc; subst c. simpl in Hi. lia.
      + destruct (below o c0 s).
        * destruct (Rleb _ _); simpl in Hc; [discriminate|].
          inversion Hc; subst c. lia.
        * simpl in Hc. inversion Hc; subst c. simpl in Hi. lia.
    - destruct (over o (local_of o segs) i s) eqn:Ho.
      + simpl in Hc. inversion Hc; subst c. simpl.
        repeat split; try reflexivity.
        apply over_iff in Ho as (v & d & Hsv & _).
        rewrite Hsv. simpl. specialize (Hv v Hsv).
        destruct (Rltb 0 v) eqn:E; [reflexivity|].
        apply Rltb_false_iff in E. lra.
      + rewrite E0 in Hc. discriminate. }
  split; [split|split; [|split]].
  - intros (c & Hc & Hi). destruct (Hstep c Hc Hi) as (H0 & Ho & _).
    split; [exact H0 | now apply over_iff].
  - intros [H0 Ho]. apply over_iff in Ho.
    unfold det_body. rewrite Ho, H0. simpl. eexists. split; reflexivity.
  - intros c Hc Hi. destruct (Hstep c Hc Hi) as (_ & _ & Hp & Hm).
    now split.
  - intros Ha. unfold threshold. now rewrite Ha.
  - intros Ha.
    assert (Hi : (i < length segs)%nat) by (apply nth_error_Some; congruence).
    destruct (computeLocalStats_defined segs (winSec o) i (Hw Ha) Hi)
      as [ls Hls].
    exists ls. split; [exact Hls|].
    unfold threshold, local_of. rewrite Ha.
    now rewrite (nth_error_nth _ _ None Hls).
Qed.

(** In adaptive mode, with the default options, at the first segment of
    [dip_track]. *)
Lemma candidate_start_witness :
  let o := adaptive_options in
  let st := det_state_at o dip_track 0 in
  let st' := det_state_at o dip_track 1 in
  let thr := threshold o (local_of o dip_track) 0 in
  ((exists c, cur st' = Some c /\ startIdx c = O)
   <-> (cur st = None
        /\ exists v d, speedKmh (east 10 1) = Some v /\ thr <= v
                       /\ dtS (east 10 1) = Some d /\ 0 < d))
  /\ (forall c, cur st' = Some c -> startIdx c = O ->
        peak c = or0 (speedKmh (east 10 1)) /\ segmentIndices c = [O])
  /\ (useAdaptive o = false -> thr = baseThresholdKmh o)
  /\ (useAdaptive o = true ->
      exists ls,
        nth_error (computeLocalStats dip_track (winSec o)) 0 = Some (Some ls)
        /\ thr = Rmax (baseThresholdKmh o) (median ls + kSigma o * std ls)).
Proof.
  apply (candidate_start adaptive_options dip_track 0 (east 10 1)).
  - reflexivity.
  - intros v Hv. inversion Hv. lra.
  - intros _. simpl. lra.
Defined.

(** ** C10: segments without a valid elapsed time *)

Lemma invalid_dt_positive (s : Segment) :
  invalid_dt s -> positive (dtS s) = false.
Proof.
  unfold invalid_dt, positive. intros H.
  destruct (dtS s) as [d|]; [|reflexivity].
  apply Rltb_false. now apply H.
Qed.

Lemma invalid_dt_not_over (o : Options) local (i : nat) (s : Segment) :
  invalid_dt s -> over o local i s = false.
Proof.
  intros H. unfold over.
  rewrite (seg_dt_invalid s (invalid_dt_positive s H)).
  rewrite (Rltb_false 0 0) by lra. apply andb_false_r.
Qed.

(** One step on a segment without valid elapsed time, from an open
    candidate. *)
Lemma invalid_dt_step (o : Options) (segs : list Segment) (i : nat)
    (s : Segment) (c : Wave) :
  0 < endGraceS o ->
  nth_error segs i = Some s ->
  invalid_dt s ->
  cur (det_state_at o segs i) = Some c ->
  found (det_state_at o segs (S i)) = found (det_state_at o segs i)
  /\ (dropPct o <= dropPercent c s ->
      cur (det_state_at o segs (S i)) = Some c
      /\ timeUnderPeak (det_state_at o segs (S i))
         = timeUnderPeak (det_state_at o segs i))
  /\ (dropPercent c s < dropPct o ->
      cur (det_state_at o segs (S i)) = Some (fold_segment c i s)
      /\ timeUnderPeak (det_state_at o segs (S i)) = 0).
Proof.
  intros Hg Hs Hinv Hc.
  pose proof (det_state_at_peak o segs i) as Hp.
  unfold peak_inv in Hp. rewrite Hc in Hp. destruct Hp as [Hp H0].
  pose proof (det_state_at_grace o segs i Hg) as Hgr.
  unfold grace_inv in Hgr. rewrite Hc in Hgr.
  pose proof (invalid_dt_not_over o (local_of o segs) i s Hinv) as Ho.
  pose proof (seg_dt_invalid s (invalid_dt_positive s Hinv)) as Hdt.
  rewrite (det_state_at_S o segs i s Hs).
  destruct (det_body_active o (local_of o segs) i s _ c Hc Hp H0)
    as (_ & Hfold & Hgrace & _).
  rewrite Hdt, Rplus_0_r in Hgrace.
  destruct (Rlt_dec (dropPercent c s) (dropPct o)) as [Hd|Hd].
  - destruct (Hfold Ho Hd) as (H1 & H2 & H3).
    split; [exact H3|]. split; [intros Hd'; lra | intros _; now split].
  - destruct (Hgrace Ho ltac:(lra) ltac:(lra)) as (H1 & H2 & H3).
    split; [exact H3|]. split; [intros _; now split | intros Hd'; lra].
Qed.

(** C10: with [endGraceS > 0], a segment whose elapsed time is undefined
    or not positive never closes an open candidate.  When the drop
    criterion is met the candidate and the grace timer are left as they
    were (the segment adds 0 to the timer and is not made a member);
    otherwise the segment is folded in.  Hence over any stretch of such
    segments the candidate stays open and no wave is emitted. *)
Theorem invalid_dt_keeps_candidate (o : Options) (segs : list Segment)
    (i : nat) (s : Segment) (c : Wave) :
  0 < endGraceS o ->
  nth_error segs i = Some s ->
  invalid_dt s ->
  cur (det_state_at o segs i) = Some c ->
  let st := det_state_at o segs i in
  let st' := det_state_at o segs (S i) in
  (exists c', cur st' = Some c' /\ startIdx c' = startIdx c)
  /\ found st' = found st
  /\ (dropPct o <= dropPercent c s ->
      cur st' = Some c /\ timeUnderPeak st' = timeUnderPeak st)
  /\ (dropPercent c s < dropPct o ->
      cur st' = Some (fold_segment c i s) /\ timeUnderPeak st' = 0)
  /\ (forall k,
        (forall j, (i <= j < i + k)%nat ->
           exists sj, nth_error segs j = Some sj /\ invalid_dt sj) ->
        (exists c', cur (det_state_at o segs (i + k)) = Some c'
                    /\ startIdx c' = startIdx c)
        /\ found (det_state_at o segs (i + k)) = found st).
Proof.
  intros Hg Hs Hinv Hc. cbv zeta.
  destruct (invalid_dt_step o segs i s c Hg Hs Hinv Hc) as (Hf & Hb & Hn).
  split.
  { destruct (Rlt_dec (dropPercent c s) (dropPct o)) as [Hd|Hd].
    - destruct (Hn Hd) as [H1 _]. eexists. split; [exact H1 | reflexivity].
    - destruct (Hb ltac:(lra)) as [H1 _]. exists c. now split. }
  split; [exact Hf|]. split; [exact Hb|]. split; [exact Hn|].
  induction k as [|k IH]; intros Hall.
  - rewrite Nat.add_0_r. split; [exists c; now split | reflexivity].
  - destruct IH as [(c' & Hc' & Hst) Hfk].
    { intros j Hj. apply Hall. lia. }
    destruct (Hall (i + k)%nat ltac:(lia)) as (sj & Hsj & Hinvj).
    replace (i + S k)%nat with (S (i + k)) by lia.
    destruct (invalid_dt_step o segs (i + k) sj c' Hg Hsj Hinvj Hc')
      as (Hf' & Hb' & Hn').
    split; [|congruence].
    destruct (Rlt_dec (dropPercent c' sj) (dropPct o)) as [Hd|Hd].
    + destruct (Hn' Hd) as [H1 _]. eexists. split; [exact H1 | exact Hst].
    + destruct (Hb' ltac:(lra)) as [H1 _]. exists c'. now split.
Qed.

(** On [gap_track] the segment without timestamps meets the drop
    criterion; the candidate opened by the first segment survives it
    unchanged. *)
Lemma invalid_dt_keeps_candidate_witness :
  cur (det_state_at default_options gap_track 2) = Some dip_candidate
  /\ timeUnderPeak (det_state_at default_options gap_track 2)
     = timeUnderPeak (det_state_at default_options gap_track 1).
Proof.
  assert (Hg : 0 < endGraceS default_options) by (simpl; lra).
  assert (Hs : nth_error gap_track 1 = Some (untimed 5)) by reflexivity.
  assert (Hinv : invalid_dt (untimed 5)) by (intros d Hd; discriminate).
  assert (Hc : cur (det_state_at default_options gap_track 1)
               = Some dip_candidate) by (det_eval; reflexivity).
  destruct (invalid_dt_keeps_candidate default_options gap_track 1
              (untimed 5) dip_candidate Hg Hs Hinv Hc)
    as (_ & _ & Hbelow & _).
  apply Hbelow. unfold dropPercent. det_eval.
  destruct (Req_dec_T _ _) as [E|E]; lra.
Defined.

(** ** C5: raising the fixed threshold *)

(** The waves found and the open candidate are never more than the
    over-threshold segments seen. *)
Lemma det_loop_count (o : Options) local (rest : list Segment) :
  forall (i : nat) (st : DetState),
    let st' := det_loop o local i rest st in
    (length (found st') + open_count st'
     <= length (found st) + open_count st + over_count o local i rest)%nat.
Proof.
  induction rest as [|s rest IH]; intros i st; cbv zeta; simpl; [lia|].
  specialize (IH (S i) (det_body o local i s st)). cbv zeta in IH.
  eapply Nat.le_trans; [exact IH|].
  unfold det_body, open_count. destruct (over o local i s); simpl.
  - destruct (cur st); lia.
  - destruct (cur st) as [c|] eqn:Ec; [|rewrite Ec; lia].
    destruct (below o c s); simpl; [|lia].
    destruct (Rleb _ _); simpl; [|lia].
    destruct (valid_wave o c); [rewrite length_app; simpl|]; lia.
Qed.

Lemma detect_count (o : Options) (segs : list Segment) :
  (length (detectWavesV2 o segs) <= over_count o (local_of o segs) 0 segs)%nat.
Proof.
  unfold detectWavesV2.
  eapply Nat.le_trans; [apply filter_length_le|].
  unfold found_waves.
  pose proof (det_loop_count o (local_of o segs) segs 0 det_init) as H.
  cbv zeta in H. unfold open_count in H. simpl in H. unfold det_close.
  destruct (cur _) as [c|]; [|lia].
  destruct (valid_wave o c); [rewrite length_app; simpl|]; lia.
Qed.

Lemma over_threshold_antitone (o : Options) (t1 t2 : R) (i : nat) (s : Segment) :
  useAdaptive o = false -> t1 <= t2 ->
  over (with_threshold o t2) None i s = true ->
  over (with_threshold o t1) None i s = true.
Proof.
  intros Ha Ht. unfold over, threshold, with_threshold. simpl. rewrite Ha.
  rewrite !andb_true_iff. intros [Hv Hd]. split; [|exact Hd].
  unfold num_ge in *. destruct (speedKmh s) as [v|]; [|discriminate].
  apply Rleb_iff in Hv. apply Rleb_iff. lra.
Qed.

Lemma over_count_antitone (o : Options) (t1 t2 : R) (rest : list Segment) :
  useAdaptive o = false -> t1 <= t2 ->
  forall i,
    (over_count (with_threshold o t2) None i rest
     <= over_count (with_threshold o t1) None i rest)%nat.
Proof.
  intros Ha Ht. induction rest as [|s rest IH]; intros i; simpl; [lia|].
  specialize (IH (S i)).
  pose proof (over_threshold_antitone o t1 t2 i s Ha Ht) as H.
  destruct (over (with_threshold o t2) None i s).
  - rewrite (H eq_refl). lia.
  - destruct (over (with_threshold o t1) None i s); lia.
Qed.

(** C5, as the code has it: in non-adaptive mode, for [t1 <= t2], every
    segment that is over the threshold at [t2] is over it at [t1], so the
    number of over-threshold segments does not increase, and the number
    of waves returned at [t2] is at most the number of over-threshold
    segments at [t1]. *)
Theorem threshold_monotone_over (o : Options) (segs : list Segment) (t1 t2 : R) :
  useAdaptive o = false -> t1 <= t2 ->
  (forall i s, nth_error segs i = Some s ->
     over (with_threshold o t2) (local_of (with_threshold o t2) segs) i s = true ->
     over (with_threshold o t1) (local_of (with_threshold o t1) segs) i s = true)
  /\ (over_count (with_threshold o t2) (local_of (with_threshold o t2) segs) 0 segs
      <= over_count (with_threshold o t1) (local_of (with_threshold o t1) segs) 0 segs)%nat
  /\ (length (detectWavesV2 (with_threshold o t2) segs)
      <= over_count (with_threshold o t1) (local_of (with_threshold o t1) segs) 0 segs)%nat.
Proof.
  intros Ha Ht.
  assert (Hl : forall t, local_of (with_threshold o t) segs = None)
    by (intros t; unfold local_of; simpl; now rewrite Ha).
  rewrite !Hl.
  split; [|split].
  - intros i s _. now apply over_threshold_antitone.
  - now apply over_count_antitone.
  - eapply Nat.le_trans; [apply detect_count|]. rewrite Hl.
    now apply over_count_antitone.
Qed.

Lemma threshold_monotone_over_witness :
  (over_count (with_threshold default_options 25)
     (local_of (with_threshold default_options 25) split_track) 0 split_track
   <= over_count (with_threshold default_options 15)
        (local_of (with_threshold default_options 15) split_track) 0 split_track)%nat.
Proof.
  apply (threshold_monotone_over default_options split_track 15 25).
  - reflexivity.
  - lra.
Defined.

Lemma detect_split_track_low :
  map segmentIndices (detectWavesV2 (with_threshold default_options 15) split_track)
  = [[0; 1; 2; 3; 4]%nat].
Proof.
  det_eval.
  rewrite (circularStdDeg_repeat 90 4
           : circularStdDeg [Some 90; Some 90; Some 90; Some 90; Some 90]
             = Some 0).
  det_eval. reflexivity.
Qed.

Lemma detect_split_track_high :
  map segmentIndices (detectWavesV2 (with_threshold default_options 25) split_track)
  = [[0; 1]%nat; [3; 4]%nat].
Proof.
  det_eval.
  rewrite (circularStdDeg_repeat 90 1
           : circularStdDeg [Some 90; Some 90] = Some 0).
  det_eval. reflexivity.
Qed.

(** C5 as stated fails: on [split_track], in non-adaptive mode with the
    other options at their defaults, the threshold 15 gives one wave and
    the threshold 25 gives two; the dip between them ended the first. *)
Lemma threshold_monotone_waves_fails :
  ~ (forall (o : Options) (segs : list Segment) (t1 t2 : R),
       useAdaptive o = false -> t1 <= t2 ->
       (length (detectWavesV2 (with_threshold o t2) segs)
        <= length (detectWavesV2 (with_threshold o t1) segs))%nat).
Proof.
  intros H.
  specialize (H default_options split_track 15 25 eq_refl ltac:(lra)).
  rewrite <- (length_map segmentIndices) in H.
  rewrite <- (length_map segmentIndices
                (detectWavesV2 (with_threshold default_options 15) split_track))
    in H.
  rewrite detect_split_track_low, detect_split_track_high in H.
  simpl in H. lia.
Qed.

(** ** C6: the direction stability filter *)

Lemma circularStdDeg_spec (bs : list R) :
  circularStdDeg (map Some bs)
  = match bs with [] => None | _ => Some (circular_std bs) end.
Proof.
  unfold circularStdDeg. rewrite finite_vals_map_Some.
  destruct bs as [|x bs]; [reflexivity|].
  rewrite !reduce_sum_Rsum. reflexivity.
Qed.

(** C6: the filter rejects a candidate exactly when the configured
    maximum is finite, the candidate has bearing samples, and their
    circular standard deviation exceeds the maximum; so a candidate with
    no bearing sample is never rejected, and the detector returns the
    found candidates that are not rejected. *)
Theorem stability_filter_rejects (o : Options) (w : Wave) :
  (stable o w = false <-> rejected o w)
  /\ (bearings w = [] -> stable o w = true)
  /\ (forall segs, In w (detectWavesV2 o segs)
                   <-> In w (found_waves o segs) /\ ~ rejected o w).
Proof.
  assert (H : stable o w = false <-> rejected o w).
  { unfold stable, rejected. rewrite circularStdDeg_spec.
    destruct (dirStdMaxDeg o) as [m|]; simpl.
    - destruct (bearings w) as [|x bs] eqn:Eb; simpl.
      + split; [discriminate|]. intros (m' & _ & Hne & _). now elim Hne.
      + rewrite Rleb_false_iff. split.
        * intros Hlt. exists m. repeat split; [discriminate | exact Hlt].
        * intros (m' & Hm & _ & Hlt). now inversion Hm; subst.
    - split; [discriminate|]. intros (m & Hm & _). discriminate. }
  split; [exact H|]. split.
  - intros Hb. apply not_false_is_true. intros E.
    apply H in E. destruct E as (m & _ & Hne & _). contradiction.
  - intros segs. unfold detectWavesV2. rewrite filter_In.
    split; intros [Hin Hs]; split; try exact Hin.
    + intros Hr. apply H in Hr. congruence.
    + apply not_false_is_true. intros E. apply H in E. contradiction.
Qed.

(** ** C7: the direction post-filter *)

Lemma Rtrunc_nonneg (x : R) :
  0 <= x -> IZR (Rtrunc x) <= x < IZR (Rtrunc x) + 1.
Proof.
  intros Hx. unfold Rtrunc. destruct (Rle_dec 0 x) as [_|Hn]; [|lra].
  pose proof (base_Int_part x). lra.
Qed.

Lemma Rtrunc_neg (x : R) :
  x < 0 -> IZR (Rtrunc x) - 1 < x <= IZR (Rtrunc x).
Proof.
  intros Hx. unfold Rtrunc. destruct (Rle_dec 0 x) as [Hn|_]; [lra|].
  pose proof (base_Int_part (- x)). rewrite opp_IZR. lra.
Qed.

(** The remainder has the sign of the dividend and is smaller than the
    divisor. *)
Lemma js_rem_range (x n : R) :
  0 < n ->
  (0 <= x -> 0 <= js_rem x n < n) /\ (x < 0 -> - n < js_rem x n <= 0).
Proof.
  intros Hn. unfold js_rem.
  assert (Hx : x = n * (x / n)) by (field; lra).
  set (q := x / n) in *. set (t := IZR (Rtrunc q)).
  split; intros H.
  - assert (Hq : 0 <= q).
    { unfold q. apply Rmult_le_pos; [lra|].
      apply Rlt_le, Rinv_0_lt_compat, Hn. }
    pose proof (Rtrunc_nonneg q Hq) as Ht. fold t in Ht.
    replace (x - n * t) with (n * (q - t)) by (unfold q; field; lra). nra.
  - assert (Hq : q < 0).
    { unfold q, Rdiv. rewrite <- (Rmult_0_l (/ n)).
      apply Rmult_lt_compat_r; [apply Rinv_0_lt_compat, Hn | exact H]. }
    pose proof (Rtrunc_neg q Hq) as Ht. fold t in Ht.
    replace (x - n * t) with (n * (q - t)) by (unfold q; field; lra). nra.
Qed.

Lemma js_rem_small (x n : R) : 0 <= x < n -> js_rem x n = x.
Proof.
  intros [H0 Hn]. unfold js_rem.
  assert (Hq : 0 <= x / n < 1).
  { split.
    - apply Rmult_le_pos; [lra|]. apply Rlt_le, Rinv_0_lt_compat. lra.
    - apply (Rmult_lt_reg_r n); [lra|]. field_simplify; lra. }
  assert (Ht : Rtrunc (x / n) = 0%Z).
  { unfold Rtrunc. destruct (Rle_dec 0 (x / n)) as [_|Hc]; [|lra].
    symmetry. apply Int_part_spec. simpl. lra. }
  rewrite Ht. simpl. lra.
Qed.

(** A normalised bearing lies in [[0, 360)] and differs from the bearing
    by a whole number of turns. *)
Lemma normalizeBearing_range (d : R) :
  exists w, normalizeBearing (Some d) = Some w
            /\ 0 <= w < 360 /\ exists k : Z, w = d + 360 * IZR k.
Proof.
  unfold normalizeBearing.
  destruct (js_rem_range d 360 ltac:(lra)) as [Hpos Hneg].
  destruct (Rltb (js_rem d 360) 0) eqn:E.
  - apply Rltb_iff in E. eexists. split; [reflexivity|].
    destruct (Rle_dec 0 d) as [Hd|Hd].
    + specialize (Hpos Hd). lra.
    + specialize (Hneg ltac:(lra)). split; [lra|].
      exists (1 - Rtrunc (d / 360))%Z. unfold js_rem.
      rewrite minus_IZR. simpl. lra.
  - apply Rltb_false_iff in E. eexists. split; [reflexivity|].
    destruct (Rle_dec 0 d) as [Hd|Hd].
    + specialize (Hpos Hd). split; [lra|].
      exists (- Rtrunc (d / 360))%Z. unfold js_rem.
      rewrite opp_IZR. lra.
    + specialize (Hneg ltac:(lra)). split; [lra|].
      exists (- Rtrunc (d / 360))%Z. unfold js_rem.
      rewrite opp_IZR. lra.
Qed.

Lemma normalizeBearing_small (d : R) :
  0 <= d < 360 -> normalizeBearing (Some d) = Some d.
Proof.
  intros H. unfold normalizeBearing. rewrite (js_rem_small d 360 H).
  now rewrite Rltb_false by lra.
Qed.

(** The angular difference of two normalised bearings is the smaller of
    the two arcs between them. *)
Lemma angularDifference_min (x y nx ny : R) :
  normalizeBearing (Some x) = Some nx ->
  normalizeBearing (Some y) = Some ny ->
  0 <= nx < 360 -> 0 <= ny < 360 ->
  angularDifference (Some x) (Some y)
  = Some (Rmin (Rabs (nx - ny)) (360 - Rabs (nx - ny)))
  /\ 0 <= Rmin (Rabs (nx - ny)) (360 - Rabs (nx - ny)) <= 180.
Proof.
  intros Hx Hy Rx Ry. unfold angularDifference. rewrite Hx, Hy.
  assert (Ha : 0 <= Rabs (nx - ny) < 360).
  { unfold Rabs. destruct (Rcase_abs (nx - ny)); lra. }
  rewrite (js_rem_small _ 360 Ha).
  set (arc := Rabs (nx - ny)) in *.
  destruct (Rltb 180 arc) eqn:E.
  - apply Rltb_iff in E. rewrite Rmin_right by lra. split; [reflexivity | lra].
  - apply Rltb_false_iff in E. rewrite Rmin_left by lra.
    split; [reflexivity | lra].
Qed.

Lemma direction_ok_iff (ds : DirectionSettings) (w : EnrichedWave) :
  direction_ok ds w = true
  <-> exists d delta,
        directionDeg w = Some d
        /\ angularDifference (Some d) (Some (direction ds)) = Some delta
        /\ delta <= tolerance ds.
Proof.
  unfold direction_ok. destruct (directionDeg w) as [d|]; cbn [isFinite].
  - destruct (angularDifference (Some d) (Some (direction ds)))
      as [delta|] eqn:E; cbn [isFinite num_le andb].
    + rewrite Rleb_iff. split.
      * intros H. exists d, delta. auto.
      * intros (d' & delta' & Hd & Hdelta & Hle).
        inversion Hd; subst d'. rewrite E in Hdelta.
        inversion Hdelta; subst. exact Hle.
    + split; [discriminate|]. intros (d' & delta' & Hd & Hdelta & _).
      inversion Hd; subst d'. congruence.
  - split; [discriminate|]. intros (d & delta & Hd & _). discriminate.
Qed.

(** C7: with the direction filter enabled, the waves kept are exactly the
    enriched waves whose mean direction is defined and whose angular
    difference to the target is at most the tolerance, and that is what
    [runWaveDetection] stores; the angular difference of two bearings is
    the smaller of the two arcs between their normalised values, between
    0 and 180; the angular difference of 10 and 350 is 20. *)
Theorem direction_post_filter (ds : DirectionSettings)
    (enriched : list EnrichedWave) :
  enabled ds = true ->
  (forall w,
     In w (direction_filter ds enriched)
     <-> In w enriched
         /\ exists d delta,
              directionDeg w = Some d
              /\ angularDifference (Some d) (Some (direction ds)) = Some delta
              /\ delta <= tolerance ds)
  /\ (forall ui st,
        directionSettings ui = ds -> segments st <> [] ->
        waves (runWaveDetection ui st)
        = filter (direction_ok ds)
            (map (enrichWave (points st) (segments st))
                 (detectWavesV2 (options_of ui) (segments st))))
  /\ (forall x y,
        exists nx ny,
          normalizeBearing (Some x) = Some nx
          /\ normalizeBearing (Some y) = Some ny
          /\ 0 <= nx < 360 /\ 0 <= ny < 360
          /\ (exists k : Z, nx = x + 360 * IZR k)
          /\ (exists k : Z, ny = y + 360 * IZR k)
          /\ angularDifference (Some x) (Some y)
             = Some (Rmin (Rabs (nx - ny)) (360 - Rabs (nx - ny)))
          /\ 0 <= Rmin (Rabs (nx - ny)) (360 - Rabs (nx - ny)) <= 180)
  /\ angularDifference (Some 10) (Some 350) = Some 20.
Proof.
  intros He. split; [|split; [|split]].
  - intros w. unfold direction_filter. rewrite He, filter_In.
    now rewrite direction_ok_iff.
  - intros ui st Hds Hne. unfold runWaveDetection.
    destruct (segments st) as [|s l] eqn:Es; [contradiction|].
    simpl. unfold direction_filter. now rewrite Hds, He.
  - intros x y.
    destruct (normalizeBearing_range x) as (nx & Hx & Rx & Kx).
    destruct (normalizeBearing_range y) as (ny & Hy & Ry & Ky).
    exists nx, ny.
    destruct (angularDifference_min x y nx ny Hx Hy Rx Ry) as [Hd Hr].
    repeat split; try assumption; lra.
  - destruct (angularDifference_min 10 350 10 350
                (normalizeBearing_small 10 ltac:(lra))
                (normalizeBearing_small 350 ltac:(lra))
                ltac:(lra) ltac:(lra)) as [Hd _].
    rewrite Hd. f_equal.
    unfold Rabs. destruct (Rcase_abs (10 - 350)); [|lra].
    rewrite Rmin_right by lra. lra.
Qed.

(** A wave heading 10 degrees is kept when the target is 350 degrees and
    the tolerance 20. *)
Lemma direction_post_filter_witness :
  In north_wave (direction_filter north_settings [north_wave]).
Proof.
  destruct (direction_post_filter north_settings [north_wave] eq_refl)
    as (Hkeep & _ & _ & H20).
  apply Hkeep. split; [now left|].
  exists 10, 20. split; [reflexivity|]. split; [exact H20|].
  simpl. lra.
Defined.

(** ** C8: the kinematics engine *)

Lemma toRad_minus (x y : R) : toRad (x - y) = toRad x - toRad y.
Proof. unfold toRad. field. Qed.

(** The haversine term lies between 0 and 1, whatever the coordinates. *)
Lemma haversine_term_range (p1 p2 l : R) :
  0 <= (sin ((p2 - p1) / 2))² + cos p1 * cos p2 * (sin l)² <= 1.
Proof.
  set (u := (p2 - p1) / 2). set (v := (p1 + p2) / 2).
  replace p1 with (v - u) by (unfold u, v; field).
  replace p2 with (v + u) by (unfold u, v; field).
  rewrite cos_minus, cos_plus.
  pose proof (sin2_cos2 u) as Hu. pose proof (sin2_cos2 v) as Hv.
  pose proof (sin2_cos2 l) as Hl.
  unfold Rsqr in *.
  set (su := sin u) in *. set (cu := cos u) in *.
  set (sv := sin v) in *. set (cv := cos v) in *.
  set (sl := sin l) in *. set (cl := cos l) in *.
  assert (HS : 0 <= sl * sl <= 1) by nra.
  assert (Hsu : 0 <= su * su <= 1) by nra.
  assert (Hcv : 0 <= cv * cv <= 1) by nra.
  replace (su * su + (cv * cu + sv * su) * (cv * cu - sv * su) * (sl * sl))
    with (su * su * (1 - sl * sl) + sl * sl * (cv * cv)).
  - assert (H1 : 0 <= su * su * (1 - sl * sl) <= 1 * (1 - sl * sl)).
    { split; [apply Rmult_le_pos; lra|].
      apply Rmult_le_compat_r; lra. }
    assert (H2 : 0 <= sl * sl * (cv * cv) <= sl * sl * 1).
    { split; [apply Rmult_le_pos; lra|].
      apply Rmult_le_compat_l; lra. }
    lra.
  - replace (cu * cu) with (1 - su * su) by lra.
    transitivity (su * su * (1 - sl * sl)
                  + sl * sl * (cv * cv * (su * su + cu * cu))
                  + sl * sl * (su * su) * (1 - (sv * sv + cv * cv))).
    + rewrite Hu, Hv. ring.
    + ring.
Qed.

Lemma asin_nonneg (x : R) : 0 <= x <= 1 -> 0 <= asin x.
Proof.
  intros Hx. destruct (Rle_dec 0 (asin x)) as [H|H]; [exact H|].
  exfalso. pose proof (asin_bound x) as Hb.
  assert (Hs : sin (asin x) < 0).
  { apply sin_lt_0_var; [|lra]. pose proof PI_RGT_0. lra. }
  rewrite sin_asin in Hs by lra. lra.
Qed.

(** The great-circle distance is always a finite, non-negative number. *)
Lemma haversine_defined (p q : Point) :
  exists d, haversineDistanceM p q = Some d /\ 0 <= d.
Proof.
  unfold haversineDistanceM. cbv zeta. rewrite !toRad_minus.
  set (h := (sin ((toRad (lat q) - toRad (lat p)) / 2))²
            + cos (toRad (lat p)) * cos (toRad (lat q))
              * (sin ((toRad (lon q) - toRad (lon p)) / 2))²).
  pose proof (haversine_term_range (toRad (lat p)) (toRad (lat q))
                ((toRad (lon q) - toRad (lon p)) / 2)) as Hh.
  fold h in Hh. unfold js_sqrt. rewrite (Rleb_true 0 h) by lra.
  assert (Hs : 0 <= sqrt h <= 1).
  { split; [apply sqrt_pos|]. rewrite <- sqrt_1. apply sqrt_le_1_alt. lra. }
  unfold js_asin. rewrite (Rleb_true (-1)), (Rleb_true _ 1) by lra. simpl.
  eexists. split; [reflexivity|].
  pose proof (asin_nonneg (sqrt h) Hs). nra.
Qed.

Lemma haversine_value (p q : Point) :
  haversineDistanceM p q
  = Some (2 * 6371000 * asin (sqrt (haversine_term p q))).
Proof.
  pose proof (haversine_term_range (toRad (lat p)) (toRad (lat q))
                (toRad (lon q - lon p) / 2)) as Hh.
  rewrite <- toRad_minus in Hh.
  unfold haversineDistanceM. cbv zeta. fold (haversine_term p q).
  fold (haversine_term p q) in Hh.
  unfold js_sqrt. rewrite (Rleb_true 0 _) by lra.
  assert (Hs : 0 <= sqrt (haversine_term p q) <= 1).
  { split; [apply sqrt_pos|]. rewrite <- sqrt_1. apply sqrt_le_1_alt. lra. }
  unfold js_asin. rewrite (Rleb_true (-1)), (Rleb_true _ 1) by lra.
  reflexivity.
Qed.



Lemma bearingDegrees_range (p q : R * R) :
  exists bd, bearingDegrees p q = Some bd /\ 0 <= bd < 360.
Proof.
  unfold bearingDegrees. cbv zeta.
  destruct (normalizeBearing_range
              (atan2 (sin (toRad (snd q - snd p)) * cos (toRad (fst q)))
                     (cos (toRad (fst p)) * sin (toRad (fst q))
                      - sin (toRad (fst p)) * cos (toRad (fst q))
                        * cos (toRad (snd q - snd p))) * 180 / PI))
    as (w & Hw & Hr & _).
  exists w. now split.
Qed.

Lemma kin_body_segment (acc : KinAcc) (pa pb : Point) :
  exists s, k_segments (kin_body acc pa pb) = k_segments acc ++ [s]
            /\ segment_of pa pb s.
Proof.
  unfold kin_body. cbv zeta. eexists. split; [reflexivity|].
  unfold segment_of. simpl. repeat split; reflexivity.
Qed.

(** The loop appends one segment per remaining point, built from that
    point and the one before it. *)
Lemma kin_loop_segments (rest : list Point) :
  forall (pa : Point) (acc : KinAcc),
  exists l,
    k_segments (kin_loop pa rest acc) = k_segments acc ++ l
    /\ length l = length rest
    /\ forall i s, nth_error l i = Some s ->
         exists p q, nth_error (pa :: rest) i = Some p
                     /\ nth_error (pa :: rest) (S i) = Some q
                     /\ segment_of p q s.
Proof.
  induction rest as [|pb rest IH]; intros pa acc; simpl.
  - exists []. rewrite app_nil_r. repeat split.
    intros [|i] s H; discriminate.
  - destruct (kin_body_segment acc pa pb) as (s0 & Hs0 & Hok).
    destruct (IH pb (kin_body acc pa pb)) as (l & Hl & Hlen & Hnth).
    exists (s0 :: l). rewrite Hl, Hs0, <- app_assoc. simpl.
    repeat split; [now rewrite Hlen|].
    intros [|i] s H; simpl in H.
    + injection H as <-. exists pa, pb.
      split; [reflexivity | split; [reflexivity | exact Hok]].
    + destruct (Hnth i s H) as (p & q & Hp & Hq & Hpq).
      exists p, q. split; [exact Hp | split; [exact Hq | exact Hpq]].
Qed.




(** ** C4: a file load that fails *)

(** A parser that throws, or an unsupported extension, leaves the state
    as it was. *)
Lemma load_failure_before_assignment (ui : Controls) (kind : FileKind)
    (parsed : ParseResult) (st : AppState) :
  kind = OtherKind \/ parsed = ParseThrows ->
  fst (load_file ui kind parsed st) = st
  /\ snd (load_file ui kind parsed st) <> Loaded.
Proof.
  intros [-> | ->]; [now split|].
  destruct kind; now split.
Qed.

(** A file with fewer than two points replaces [points] and leaves the
    segments, statistics and waves of the track loaded before. *)
Lemma load_too_few_points (ui : Controls) (kind : FileKind)
    (pts : list Point) (st : AppState) :
  kind <> OtherKind -> (length pts < 2)%nat ->
  load_file ui kind (ParseReturns pts) st
  = (mkAppState pts (segments st) (stats st) (waves st), NotEnoughPoints).
Proof.
  intros Hk Hlen. unfold load_file.
  apply Nat.ltb_lt in Hlen. rewrite Hlen.
  destruct kind; [reflexivity | reflexivity | contradiction].
Qed.

Lemma computeSegments_length (pts : list Point) :
  length (fst (computeSegmentsAndStats pts)) = (length pts - 1)%nat.
Proof.
  unfold computeSegmentsAndStats. cbv zeta. cbn [fst].
  unfold kin_run. destruct pts as [|p0 rest]; [reflexivity|].
  destruct (kin_loop_segments rest p0 kin_init) as (l & Hl & Hlen & _).
  rewrite Hl. simpl. lia.
Qed.

Lemma runWaveDetection_keeps (ui : Controls) (st : AppState) :
  points (runWaveDetection ui st) = points st
  /\ segments (runWaveDetection ui st) = segments st
  /\ stats (runWaveDetection ui st) = stats st.
Proof.
  unfold runWaveDetection. destruct (segments st) eqn:E; simpl;
    rewrite ?E; now repeat split.
Qed.

(** A load that succeeds stores the parsed points and one segment per
    pair of consecutive points. *)
Lemma load_success (ui : Controls) (kind : FileKind) (pts : list Point)
    (st : AppState) :
  kind <> OtherKind -> (2 <= length pts)%nat ->
  let r := load_file ui kind (ParseReturns pts) st in
  snd r = Loaded /\ points (fst r) = pts
  /\ length (segments (fst r)) = (length pts - 1)%nat.
Proof.
  intros Hk Hlen. cbv zeta.
  assert (E : load_file ui kind (ParseReturns pts) st
              = (runWaveDetection
                   (configureThresholdControls ui
                      (fst (computeSegmentsAndStats pts)))
                   (mkAppState pts (fst (computeSegmentsAndStats pts))
                      (Some (snd (computeSegmentsAndStats pts))) (waves st)),
                 Loaded)).
  { unfold load_file. apply Nat.ltb_ge in Hlen. rewrite Hlen.
    destruct (computeSegmentsAndStats pts) as [segs sts].
    destruct kind; [reflexivity | reflexivity | contradiction]. }
  rewrite E. cbn [fst snd].
  destruct (runWaveDetection_keeps
              (configureThresholdControls ui
                 (fst (computeSegmentsAndStats pts)))
              (mkAppState pts (fst (computeSegmentsAndStats pts))
                 (Some (snd (computeSegmentsAndStats pts))) (waves st)))
    as (Hp & Hs & _).
  rewrite Hp, Hs. simpl. split; [reflexivity|]. split; [reflexivity|].
  apply computeSegments_length.
Qed.

(** C4 fails on the code: with a two-point track loaded, choosing a GPX
    file that holds a single point ends in the error "not enough points",
    yet [points] now holds that single point while the segment, the
    statistics and the waves are still those of the earlier track. *)
Theorem load_single_point_file :
  let r := load_file default_controls Gpx (ParseReturns [fix_c]) loaded_state in
  snd r = NotEnoughPoints
  /\ points loaded_state = [fix_a; fix_b]
  /\ points (fst r) = [fix_c]
  /\ length (segments (fst r)) = 1%nat
  /\ segments (fst r) = segments loaded_state
  /\ stats (fst r) = stats loaded_state
  /\ waves (fst r) = waves loaded_state
  /\ fst r <> loaded_state.
Proof.
  cbv zeta.
  rewrite (load_too_few_points default_controls Gpx [fix_c] loaded_state)
    by (simpl; first [discriminate | lia]).
  cbn [fst snd points segments stats waves].
  destruct (load_success default_controls Gpx [fix_a; fix_b] empty_state
              ltac:(discriminate) ltac:(simpl; lia)) as (_ & Hp & Hs).
  fold loaded_state in Hp, Hs.
  split; [reflexivity|]. split; [exact Hp|]. split; [reflexivity|].
  split; [exact Hs|]. split; [reflexivity|]. split; [reflexivity|].
  split; [reflexivity|].
  intros H. apply (f_equal points) in H. rewrite Hp in H. discriminate.
Qed.

(** * Further properties of the detector *)

(** A property of the state after [n] segments follows from the initial
    state and one turn of the loop. *)
Lemma det_state_at_ind (o : Options) (segs : list Segment)
    (P : nat -> DetState -> Prop) :
  P O det_init ->
  (forall n s st, nth_error segs n = Some s -> P n st ->
                  P (S n) (det_body o (local_of o segs) n s st)) ->
  forall n, (n <= length segs)%nat -> P n (det_state_at o segs n).
Proof.
  intros H0 Hstep. induction n as [|n IH]; intros Hn.
  - exact H0.
  - destruct (nth_error segs n) as [s|] eqn:Es.
    + rewrite (det_state_at_S o segs n s Es). apply Hstep; [exact Es|].
      apply IH. lia.
    + apply nth_error_None in Es. lia.
Qed.

Lemma max_of_snoc (l : list R) (x : R) :
  max_of (l ++ [x]) = Rmax (max_of l) x.
Proof.
  unfold max_of. induction l as [|y l IH]; simpl.
  - apply Rmax_comm.
  - rewrite IH. now rewrite Rmax_assoc.
Qed.

Lemma max_of_nonneg (l : list R) : 0 <= max_of l.
Proof.
  unfold max_of. induction l as [|y l IH]; simpl; [lra|].
  eapply Rle_trans; [exact IH | apply Rmax_r].
Qed.

Lemma max_of_upper (l : list R) (x : R) : In x l -> x <= max_of l.
Proof.
  unfold max_of. induction l as [|y l IH]; simpl; [contradiction|].
  intros [-> | Hin]; [apply Rmax_l|].
  eapply Rle_trans; [now apply IH | apply Rmax_r].
Qed.

Lemma finite_vals_app (l1 l2 : list num) :
  finite_vals (l1 ++ l2) = finite_vals l1 ++ finite_vals l2.
Proof.
  induction l1 as [|[x|] l1 IH]; simpl; [reflexivity | now rewrite IH | exact IH].
Qed.

Lemma fold_segment_sums (segs : list Segment) (c : Wave) (i : nat) (s : Segment) :
  nth_error segs i = Some s ->
  wave_sums segs c -> wave_sums segs (fold_segment c i s).
Proof.
  intros Hs (Hd & Hm & Hb & Hx & Hp). unfold wave_sums, fold_segment. simpl.
  rewrite !map_app. cbn [map].
  rewrite !Rsum_app, finite_vals_app, max_of_snoc. simpl.
  unfold member_dt at 2. unfold member_dist at 2. unfold member_bearing at 2.
  unfold speed_at at 2. rewrite Hs, <- Hd, <- Hm, <- Hb, <- Hx, Hp.
  repeat split; try lra.
Qed.

(** The adaptive threshold is never below the fixed one. *)
Lemma threshold_ge_base (o : Options) local (i : nat) :
  baseThresholdKmh o <= threshold o local i.
Proof.
  unfold threshold. destruct (useAdaptive o); [|lra].
  destruct local as [l|]; [|lra].
  destruct (nth i l None) as [ls|]; [apply Rmax_l | lra].
Qed.

(** What one turn of the loop does to the state, by cases. *)
Lemma det_body_shape (o : Options) local (i : nat) (s : Segment) (st : DetState) :
  peak_inv st ->
  let st' := det_body o local i s st in
  (found st' = found st
   /\ (cur st' = cur st
       \/ (exists c0, cur st = Some c0
                      /\ cur st' = Some (fold_segment c0 i s))
       \/ (cur st = None /\ over o local i s = true
           /\ cur st' = Some (fold_segment (new_wave i) i s))))
  \/ (exists c, cur st = Some c /\ cur st' = None
                /\ (found st' = found st
                    \/ (found st' = found st ++ [c]
                        /\ valid_wave o c = true))).
Proof.
  intros Hp. cbv zeta. unfold det_body, peak_inv in *.
  destruct (over o local i s) eqn:Ho.
  - left. simpl. split; [reflexivity|]. right.
    destruct (cur st) as [c|].
    + left. exists c. split; [reflexivity|].
      destruct Hp as [Hp H0]. now rewrite push_is_fold.
    + right. split; [reflexivity|]. split; [reflexivity|].
      rewrite (push_is_fold (new_wave i) i s) by (simpl; lra). reflexivity.
  - destruct (cur st) as [c|] eqn:Ec.
    + destruct Hp as [Hp H0]. destruct (below o c s).
      * destruct (Rleb _ _); simpl.
        -- right. exists c. split; [reflexivity|]. split; [reflexivity|].
           destruct (valid_wave o c); [right; now split | now left].
        -- left. split; [reflexivity|]. now left.
      * left. simpl. split; [reflexivity|]. right. left.
        exists c. split; [reflexivity|]. now rewrite push_is_fold.
    + left. split; [reflexivity|]. left. now rewrite Ec.
Qed.

Lemma wave_sums_new (segs : list Segment) (i : nat) :
  wave_sums segs (new_wave i).
Proof. unfold wave_sums, new_wave. simpl. repeat split. Qed.

Lemma StronglySorted_app_one {A} (R : A -> A -> Prop) (l : list A) (x : A) :
  StronglySorted R l -> Forall (fun y => R y x) l ->
  StronglySorted R (l ++ [x]).
Proof.
  induction 1 as [|y l Hs IH Hy]; intros Hall; simpl.
  - repeat constructor.
  - inversion Hall; subst. constructor; [auto|].
    apply Forall_app. split; [assumption | now repeat constructor].
Qed.

Lemma det_body_facts (o : Options) (segs : list Segment) (n : nat)
    (s : Segment) (st : DetState) :
  nth_error segs n = Some s ->
  det_facts o segs n st ->
  det_facts o segs (S n) (det_body o (local_of o segs) n s st).
Proof.
  intros Hs (Hf & Hc & Hsorted & Hend & Hcur).
  assert (Hp : peak_inv st).
  { unfold peak_inv. destruct (cur st) as [c|]; [|exact I].
    destruct Hc as ((_ & _ & _ & Hx & Hpk) & _).
    split; [exact Hpk|]. rewrite Hpk, Hx. apply max_of_nonneg. }
  assert (Hend' : Forall (fun w => (endIdx w < S n)%nat) (found st)).
  { eapply Forall_impl; [|exact Hend]. simpl. intros; lia. }
  assert (Hfold : forall c0, wave_facts o segs c0 ->
                    wave_facts o segs (fold_segment c0 n s)).
  { intros c0 (Hsum & Hb & Hdur). split; [now apply fold_segment_sums|].
    simpl. split; [eapply Rle_trans; [exact Hb | apply Rmax_l]|].
    pose proof (seg_dt_nonneg s). lra. }
  destruct (det_body_shape o (local_of o segs) n s st Hp)
    as [[Hfd [Hsame | [(c0 & Hc0 & Hc') | (Hnone & Ho & Hc')]]]
       | (c & Hc0 & Hc' & Hfd)];
    unfold det_facts, order_inv.
  - rewrite Hfd, Hsame.
    split; [exact Hf|]. split; [exact Hc|]. split; [exact Hsorted|].
    split; [exact Hend'|].
    revert Hcur. destruct (cur st) as [c|]; [|easy].
    intros [H1 H2]. split; [exact H1 | lia].
  - rewrite Hfd, Hc'. rewrite Hc0 in Hc, Hcur. destruct Hcur as [H1 H2].
    split; [exact Hf|]. split; [now apply Hfold|]. split; [exact Hsorted|].
    split; [exact Hend'|]. split; [exact H1 | simpl; lia].
  - rewrite Hfd, Hc'.
    split; [exact Hf|]. split; [|split; [exact Hsorted|]].
    + split; [apply fold_segment_sums; [exact Hs | apply wave_sums_new]|].
      simpl. pose proof Ho as Ho'.
      apply over_iff in Ho as (v & d & Hv & Hthr & _).
      rewrite Hv. simpl. split.
      * eapply Rle_trans; [|apply Rmax_r].
        eapply Rle_trans; [apply threshold_ge_base | exact Hthr].
      * unfold over in Ho'. apply andb_prop in Ho' as [_ Hdt].
        apply Rltb_iff in Hdt. lra.
    + split; [exact Hend'|]. split; [exact Hend | simpl; lia].
  - rewrite Hc'. rewrite Hc0 in Hc, Hcur. destruct Hcur as [H1 H2].
    destruct Hfd as [Hfd | [Hfd _]]; rewrite Hfd.
    + split; [exact Hf|]. split; [exact I|]. split; [exact Hsorted|].
      split; [exact Hend' | exact I].
    + split; [apply Forall_app; split; [exact Hf | constructor; [exact Hc | constructor]]|].
      split; [exact I|].
      split; [now apply StronglySorted_app_one|].
      split; [|exact I].
      apply Forall_app. split; [exact Hend'|]. repeat constructor. lia.
Qed.

Lemma det_state_at_facts (o : Options) (segs : list Segment) (n : nat) :
  (n <= length segs)%nat -> det_facts o segs n (det_state_at o segs n).
Proof.
  apply (det_state_at_ind o segs (det_facts o segs)).
  - unfold det_facts, order_inv. simpl.
    split; [constructor|]. split; [exact I|]. split; [constructor|].
    split; [constructor | exact I].
  - intros k s st Hs H. now apply det_body_facts.
Qed.

(** The waves found satisfy the facts and are in order. *)
Lemma found_waves_facts (o : Options) (segs : list Segment) :
  Forall (wave_facts o segs) (found_waves o segs)
  /\ StronglySorted before (found_waves o segs).
Proof.
  rewrite det_state_at_end.
  destruct (det_state_at_facts o segs (length segs) (Nat.le_refl _))
    as (Hf & Hc & Hsorted & _ & Hcur).
  unfold det_close. destruct (cur _) as [c|]; [|now split].
  destruct (valid_wave o c); [|now split].
  destruct Hcur as [H1 _]. split.
  - apply Forall_app. split; [exact Hf | constructor; [exact Hc | constructor]].
  - now apply StronglySorted_app_one.
Qed.

Lemma StronglySorted_filter_keep {A} (R : A -> A -> Prop) (f : A -> bool)
    (l : list A) :
  StronglySorted R l -> StronglySorted R (filter f l).
Proof.
  induction 1 as [|x l Hs IH Hx]; simpl; [constructor|].
  destruct (f x); [|exact IH]. constructor; [exact IH|].
  rewrite Forall_forall in *. intros y Hy. apply Hx.
  now apply filter_In in Hy as [Hy _].
Qed.

Lemma last_In {A} (l : list A) (d : A) : l <> [] -> In (last l d) l.
Proof.
  intros Hne. destruct (@exists_last _ l Hne) as (l' & z & E).
  rewrite E, last_last. apply in_or_app. right. now left.
Qed.

Lemma sorted_hd_le_last (l : list nat) :
  StronglySorted lt l -> (hd O l <= last l O)%nat.
Proof.
  induction 1 as [|x l Hs IH Hx]; simpl; [lia|].
  destruct l as [|y l]; [lia|].
  rewrite Forall_forall in Hx.
  specialize (Hx _ (last_In (y :: l) O ltac:(discriminate))). lia.
Qed.

(** X1: the accumulators of every wave returned are exactly what its
    member segments contribute: the duration is the sum of their valid
    elapsed times, the distance the sum of their finite distances, the
    bearing samples their finite bearings in order, and the peak the
    greatest of their speeds (and of 0). *)
Theorem wave_accumulators (o : Options) (segs : list Segment) (w : Wave) :
  In w (detectWavesV2 o segs) ->
  durationS w = Rsum (map (member_dt segs) (segmentIndices w))
  /\ wDistM w = Rsum (map (member_dist segs) (segmentIndices w))
  /\ bearings w = finite_vals (map (member_bearing segs) (segmentIndices w))
  /\ maxKmh w = max_of (map (speed_at segs) (segmentIndices w))
  /\ peak w = maxKmh w.
Proof.
  unfold detectWavesV2. intros Hin. apply filter_In in Hin as [Hin _].
  destruct (found_waves_facts o segs) as [Hf _].
  rewrite Forall_forall in Hf. destruct (Hf w Hin) as [Hs _]. exact Hs.
Qed.

Lemma wave_accumulators_witness :
  durationS dip_wave = Rsum (map (member_dt dip_track) (segmentIndices dip_wave))
  /\ wDistM dip_wave
     = Rsum (map (member_dist dip_track) (segmentIndices dip_wave))
  /\ bearings dip_wave
     = finite_vals (map (member_bearing dip_track) (segmentIndices dip_wave))
  /\ maxKmh dip_wave
     = max_of (map (speed_at dip_track) (segmentIndices dip_wave))
  /\ peak dip_wave = maxKmh dip_wave.
Proof.
  apply (wave_accumulators default_options dip_track dip_wave).
  rewrite detect_dip_track. now left.
Defined.

(** X2: the peak speed of every wave returned is at least the fixed
    threshold, in both modes, and no member segment is faster than the
    peak. *)
Theorem wave_peak_reaches_threshold (o : Options) (segs : list Segment)
    (w : Wave) :
  In w (detectWavesV2 o segs) ->
  baseThresholdKmh o <= maxKmh w
  /\ forall k, In k (segmentIndices w) -> speed_at segs k <= maxKmh w.
Proof.
  unfold detectWavesV2. intros Hin. apply filter_In in Hin as [Hin _].
  destruct (found_waves_facts o segs) as [Hf _].
  rewrite Forall_forall in Hf.
  destruct (Hf w Hin) as ((_ & _ & _ & Hx & _) & Hb & _).
  split; [exact Hb|]. intros k Hk. rewrite Hx.
  apply max_of_upper. now apply in_map.
Qed.

Lemma wave_peak_reaches_threshold_witness :
  baseThresholdKmh default_options <= maxKmh dip_wave
  /\ forall k, In k (segmentIndices dip_wave) ->
               speed_at dip_track k <= maxKmh dip_wave.
Proof.
  apply (wave_peak_reaches_threshold default_options dip_track dip_wave).
  rewrite detect_dip_track. now left.
Defined.

(** X3: the waves returned are in track order and do not overlap: each
    wave satisfies [startIdx <= endIdx < segments.length], and a wave ends
    before the next one starts. *)
Theorem waves_ordered_disjoint (o : Options) (segs : list Segment) :
  StronglySorted before (detectWavesV2 o segs)
  /\ Forall (fun w => (startIdx w <= endIdx w < length segs)%nat)
            (detectWavesV2 o segs).
Proof.
  unfold detectWavesV2. split.
  - apply StronglySorted_filter_keep. apply found_waves_facts.
  - apply Forall_forall. intros w Hin. apply filter_In in Hin as [Hin _].
    pose proof (found_waves_ok o segs) as H. rewrite Forall_forall in H.
    destruct (H w Hin) as [(Hne & Hs & Hall & Hhd & Hlast) _].
    rewrite <- Hhd, <- Hlast. split; [now apply sorted_hd_le_last|].
    rewrite Forall_forall in Hall. apply Hall. now apply last_In.
Qed.


Lemma over_count_none (o : Options) local (rest : list Segment) :
  (forall s, In s rest ->
     (forall v, speedKmh s = Some v -> v < baseThresholdKmh o)
     \/ invalid_dt s) ->
  forall i, over_count o local i rest = O.
Proof.
  induction rest as [|s rest IH]; intros H i; simpl; [reflexivity|].
  rewrite IH by (intros s' Hs'; apply H; now right).
  assert (Ho : over o local i s = false).
  { destruct (H s (or_introl eq_refl)) as [Hv | Hd].
    - unfold over, num_ge. destruct (speedKmh s) as [v|]; [|reflexivity].
      pose proof (threshold_ge_base o local i).
      rewrite Rleb_false by (specialize (Hv v eq_refl); lra). reflexivity.
    - now apply invalid_dt_not_over. }
  now rewrite Ho.
Qed.

(** X4: when every segment is slower than the fixed threshold or has no
    positive elapsed time, the detector returns no wave, in adaptive mode
    as in non-adaptive mode. *)
Theorem slow_track_no_wave (o : Options) (segs : list Segment) :
  (forall s, In s segs ->
     (forall v, speedKmh s = Some v -> v < baseThresholdKmh o)
     \/ invalid_dt s) ->
  detectWavesV2 o segs = [].
Proof.
  intros H. pose proof (detect_count o segs) as Hc.
  rewrite (over_count_none o _ segs H) in Hc.
  destruct (detectWavesV2 o segs); [reflexivity | simpl in Hc; lia].
Qed.

Lemma slow_track_no_wave_witness :
  detectWavesV2 adaptive_options flat_track = [].
Proof.
  apply (slow_track_no_wave adaptive_options flat_track).
  intros s [<- | [<- | []]]; left; intros v Hv; inversion Hv; simpl; lra.
Defined.

(** X5: adaptive mode never lowers the bar: the threshold of every
    segment is at least the fixed threshold, so a segment that is over
    the threshold in adaptive mode is over it in non-adaptive mode. *)
Theorem adaptive_not_below_fixed (o : Options) (segs : list Segment)
    (i : nat) (s : Segment) :
  baseThresholdKmh o <= threshold o (local_of o segs) i
  /\ (over o (local_of o segs) i s = true ->
      over (with_adaptive o false)
           (local_of (with_adaptive o false) segs) i s = true).
Proof.
  split; [apply threshold_ge_base|].
  rewrite !over_iff. intros (v & d & Hv & Hthr & Hd & Hpos).
  exists v, d. repeat split; try assumption.
  pose proof (threshold_ge_base o (local_of o segs) i).
  unfold threshold, with_adaptive. simpl. lra.
Qed.

Lemma det_body_same_threshold (o o' : Options) local local' (i : nat)
    (s : Segment) (st : DetState) :
  threshold o local i = threshold o' local' i ->
  minDurationS o = minDurationS o' -> dropPct o = dropPct o' ->
  endGraceS o = endGraceS o' ->
  det_body o local i s st = det_body o' local' i s st.
Proof.
  intros Ht Hm Hd Hg.
  unfold det_body, over, below, valid_wave. now rewrite Ht, Hm, Hd, Hg.
Qed.

Lemma threshold_no_window (o : Options) (segs : list Segment) (i : nat) :
  winSec o <= 0 ->
  threshold o (local_of o segs) i = baseThresholdKmh o.
Proof.
  intros Hw. unfold threshold, local_of.
  destruct (useAdaptive o); [|reflexivity].
  unfold computeLocalStats. rewrite (Rleb_true _ _ Hw), orb_true_r.
  destruct (Nat.lt_ge_cases i (length segs)) as [Hi|Hi].
  - rewrite (nth_error_nth _ _ None (nth_error_repeat None Hi)). reflexivity.
  - rewrite nth_overflow; [reflexivity | now rewrite repeat_length].
Qed.

(** X6: for a window length that is not positive [computeLocalStats]
    yields no local statistic: one [null] per segment, so that in
    adaptive mode the threshold of every segment is the fixed one, and
    the detector returns what it returns in non-adaptive mode. *)
Theorem adaptive_without_window (o : Options) (segs : list Segment) :
  winSec o <= 0 ->
  computeLocalStats segs (winSec o) = repeat None (length segs)
  /\ (forall i, threshold (with_adaptive o true)
                         (local_of (with_adaptive o true) segs) i
                = baseThresholdKmh o)
  /\ detectWavesV2 (with_adaptive o true) segs
     = detectWavesV2 (with_adaptive o false) segs.
Proof.
  intros Hw. split; [|split].
  { unfold computeLocalStats. now rewrite (Rleb_true _ _ Hw), orb_true_r. }
  { intros i. now rewrite (threshold_no_window (with_adaptive o true) segs i Hw). }
  unfold detectWavesV2.
  assert (Hfound : found_waves (with_adaptive o true) segs
                   = found_waves (with_adaptive o false) segs).
  { unfold found_waves.
    assert (Hloop : forall rest i st,
      det_loop (with_adaptive o true)
               (local_of (with_adaptive o true) segs) i rest st
      = det_loop (with_adaptive o false)
                 (local_of (with_adaptive o false) segs) i rest st).
    { induction rest as [|s rest IH]; intros i st; simpl; [reflexivity|].
      rewrite IH. f_equal. apply det_body_same_threshold; try reflexivity.
      rewrite (threshold_no_window (with_adaptive o true) segs i Hw).
      reflexivity. }
    rewrite Hloop. reflexivity. }
  rewrite Hfound. reflexivity.
Qed.

Lemma adaptive_without_window_witness :
  computeLocalStats dip_track (winSec zero_window_options)
  = repeat None (length dip_track)
  /\ (forall i, threshold (with_adaptive zero_window_options true)
                   (local_of (with_adaptive zero_window_options true) dip_track)
                   i
                = baseThresholdKmh zero_window_options)
  /\ detectWavesV2 (with_adaptive zero_window_options true) dip_track
     = detectWavesV2 (with_adaptive zero_window_options false) dip_track.
Proof.
  apply (adaptive_without_window zero_window_options dip_track).
  simpl. lra.
Defined.

(** * Further properties of the kinematics engine *)

Lemma Rsum_nonneg (l : list R) : Forall (fun x => 0 <= x) l -> 0 <= Rsum l.
Proof. induction 1; simpl; lra. Qed.

Lemma kin_body_totals (acc : KinAcc) (pa pb : Point) :
  kin_totals acc -> kin_totals (kin_body acc pa pb).
Proof.
  intros (Hd & Ht & Hm). unfold kin_totals, kin_body. cbv zeta.
  cbn [k_segments k_distM k_durationS k_maxKmh].
  rewrite !map_app. cbn [map]. rewrite !Rsum_app, max_of_snoc.
  cbn [Rsum fold_right distM speedKmh].
  rewrite <- Hd, <- Ht, <- Hm.
  assert (H0 : 0 <= k_maxKmh acc) by (rewrite Hm; apply max_of_nonneg).
  split; [|split].
  - destruct (haversineDistanceM pa pb); simpl; lra.
  - unfold seg_dt. simpl. destruct (positive (elapsed pa pb)); lra.
  - set (speed := num_map2 Rmult _ _). unfold num_gt.
    destruct speed as [v|]; simpl.
    + destruct (Rltb (k_maxKmh acc) v) eqn:E.
      * apply Rltb_iff in E. rewrite Rmax_right by lra. reflexivity.
      * apply Rltb_false_iff in E. rewrite Rmax_left by lra. reflexivity.
    + rewrite Rmax_left by lra. reflexivity.
Qed.

Lemma kin_run_totals (pts : list Point) : kin_totals (kin_run pts).
Proof.
  assert (H0 : kin_totals kin_init)
    by (unfold kin_totals; simpl; repeat split).
  unfold kin_run. destruct pts as [|p0 rest]; [exact H0|].
  revert H0. generalize kin_init. revert p0.
  induction rest as [|pb rest IH]; intros pa acc Hacc; simpl; [exact Hacc|].
  apply IH. now apply kin_body_totals.
Qed.

(** X7: the statistics of a track are the totals of its segments: the
    distance is the sum of the finite segment distances, the duration the
    sum of the positive elapsed times, the maximum speed the greatest
    segment speed (0 for an empty track), so no segment is faster than
    it; none of them is negative, and when the duration is positive the
    average speed is 3.6 * distance / duration. *)
Theorem track_totals (pts : list Point) :
  let segs := fst (computeSegmentsAndStats pts) in
  let st := snd (computeSegmentsAndStats pts) in
  st_distM st = Rsum (map (fun s => or0 (distM s)) segs)
  /\ st_durationS st = Rsum (map seg_dt segs)
  /\ st_maxKmh st = max_of (map (fun s => or0 (speedKmh s)) segs)
  /\ (forall s v, In s segs -> speedKmh s = Some v -> v <= st_maxKmh st)
  /\ 0 <= st_durationS st /\ 0 <= st_maxKmh st
  /\ (0 < st_durationS st ->
      avgKmh st = 3.6 * (st_distM st / st_durationS st)).
Proof.
  cbv zeta. unfold computeSegmentsAndStats. cbv zeta. cbn [fst snd].
  destruct (kin_run_totals pts) as (Hd & Ht & Hm). simpl.
  split; [exact Hd|]. split; [exact Ht|]. split; [exact Hm|].
  split; [|split; [|split]].
  - intros s v Hin Hv. rewrite Hm. apply max_of_upper.
    apply in_map_iff. exists s. rewrite Hv. now split.
  - rewrite Ht. apply Rsum_nonneg. apply Forall_forall.
    intros x Hx. apply in_map_iff in Hx as (s & <- & _). apply seg_dt_nonneg.
  - rewrite Hm. apply max_of_nonneg.
  - intros Hpos. destruct (Req_dec_T (k_durationS (kin_run pts) / 3600) 0)
      as [E|E]; [lra|].
    replace 3.6 with (36 / 10) by lra. field. lra.
Qed.


Lemma kin_loop_accel (rest : list Point) :
  forall (pa : Point) (acc : KinAcc),
  exists l,
    k_segments (kin_loop pa rest acc) = k_segments acc ++ l
    /\ forall i s, nth_error l i = Some s ->
         accelKmhS s
         = accel_after (match i with
                        | O => last (map Some (k_segments acc)) None
                        | S j => nth_error l j
                        end) s.
Proof.
  induction rest as [|pb rest IH]; intros pa acc; simpl.
  - exists []. rewrite app_nil_r. split; [reflexivity|].
    intros [|i] s H; discriminate.
  - destruct (IH pb (kin_body acc pa pb)) as (l & Hl & Hnth).
    set (s0 := mkSegment (lat pa, lon pa) (lat pb, lon pb)
                 (haversineDistanceM pa pb) (elapsed pa pb)
                 (num_map2 Rmult
                    (if positive (elapsed pa pb)
                     then num_map2 Rdiv (haversineDistanceM pa pb)
                                   (elapsed pa pb)
                     else Some 0) (Some 3.6))
                 (if isFinite (haversineDistanceM pa pb)
                  then bearingDegrees (lat pa, lon pa) (lat pb, lon pb)
                  else None)
                 (accel_after (last (map Some (k_segments acc)) None)
                    (mkSegment (lat pa, lon pa) (lat pb, lon pb)
                       (haversineDistanceM pa pb) (elapsed pa pb)
                       (num_map2 Rmult
                          (if positive (elapsed pa pb)
                           then num_map2 Rdiv (haversineDistanceM pa pb)
                                         (elapsed pa pb)
                           else Some 0) (Some 3.6))
                       None None))).
    assert (Hs0 : k_segments (kin_body acc pa pb) = k_segments acc ++ [s0])
      by reflexivity.
    exists (s0 :: l). rewrite Hl, Hs0, <- app_assoc. split; [reflexivity|].
    intros [|i] s H; simpl in H.
    + injection H as <-. reflexivity.
    + rewrite (Hnth i s H). destruct i as [|j]; [|reflexivity].
      rewrite Hs0, map_app. simpl. now rewrite last_last.
Qed.

(** X8: the acceleration of the first segment is 0; the acceleration of
    a later segment is the change of speed from the segment before it
    divided by that segment's elapsed time, and 0 when that elapsed time
    is undefined or not positive. *)
Theorem acceleration_rule (pts : list Point) (i : nat) (s : Segment) :
  nth_error (fst (computeSegmentsAndStats pts)) i = Some s ->
  (i = O -> accelKmhS s = Some 0)
  /\ (forall j prev,
        i = S j ->
        nth_error (fst (computeSegmentsAndStats pts)) j = Some prev ->
        (invalid_dt prev -> accelKmhS s = Some 0)
        /\ (forall dt v vp,
              dtS prev = Some dt -> 0 < dt ->
              speedKmh s = Some v -> speedKmh prev = Some vp ->
              accelKmhS s = Some ((v - vp) / dt))).
Proof.
  unfold computeSegmentsAndStats. cbv zeta. cbn [fst]. unfold kin_run.
  destruct pts as [|p0 rest]; [destruct i; discriminate|].
  destruct (kin_loop_accel rest p0 kin_init) as (l & Hl & Hnth).
  rewrite Hl. simpl. intros Hs. specialize (Hnth i s Hs). split.
  - intros ->. exact Hnth.
  - intros j prev -> Hprev. rewrite Hprev in Hnth. simpl in Hnth. split.
    + intros Hinv. rewrite Hnth.
      now rewrite (invalid_dt_positive prev Hinv).
    + intros dt v vp Hdt Hpos Hv Hvp. rewrite Hnth, Hdt, Hv, Hvp. simpl.
      now rewrite (Rltb_true 0 dt Hpos).
Qed.


Lemma fix_track_segment (i : nat) :
  (i < 2)%nat ->
  exists s, nth_error (fst (computeSegmentsAndStats fix_track)) i = Some s.
Proof.
  intros Hi.
  destruct (nth_error (fst (computeSegmentsAndStats fix_track)) i) as [s|] eqn:E.
  - now exists s.
  - apply nth_error_None in E. rewrite computeSegments_length in E.
    simpl in E. lia.
Qed.

(** The two segments of [fix_track]: the first lasts one second, and
    both have a speed. *)
Lemma fix_track_speeds :
  exists prev s vp v,
    nth_error (fst (computeSegmentsAndStats fix_track)) 0 = Some prev
    /\ nth_error (fst (computeSegmentsAndStats fix_track)) 1 = Some s
    /\ dtS prev = Some ((1000 - 0) / 1000)
    /\ speedKmh prev = Some vp /\ speedKmh s = Some v.
Proof.
  assert (Hspeed : forall p q s, segment_of p q s ->
                     exists v, speedKmh s = Some v).
  { intros p q s (_ & _ & _ & _ & Hv & _). rewrite Hv.
    destruct (haversine_defined p q) as (d & -> & _).
    destruct (elapsed p q) as [dt|]; simpl; [|eauto].
    destruct (Rltb 0 dt); simpl; eauto. }
  unfold computeSegmentsAndStats, fix_track, kin_run. cbv zeta. cbn [fst].
  destruct (kin_loop_segments [fix_b; fix_c] fix_a kin_init)
    as (l & Hl & Hlen & Hnth).
  rewrite Hl. cbn [k_segments kin_init app].
  destruct l as [|s0 [|s1 l]]; try discriminate.
  destruct (Hnth 0%nat s0 eq_refl) as (p & q & Hp & Hq & Hseg0).
  injection Hp as <-. injection Hq as <-.
  destruct (Hnth 1%nat s1 eq_refl) as (p & q & Hp & Hq & Hseg1).
  destruct (Hspeed _ _ _ Hseg0) as [vp Hvp].
  destruct (Hspeed _ _ _ Hseg1) as [v Hv].
  exists s0, s1, vp, v.
  split; [reflexivity|]. split; [reflexivity|].
  split; [|split; assumption].
  destruct Hseg0 as (_ & _ & _ & Hdt & _). rewrite Hdt. reflexivity.
Qed.

(** The second segment of [fix_track]: its acceleration is the change of
    speed from the first segment, divided by the one second the first
    segment lasts. *)
Lemma acceleration_rule_witness :
  exists prev s vp v,
    nth_error (fst (computeSegmentsAndStats fix_track)) 1 = Some s
    /\ nth_error (fst (computeSegmentsAndStats fix_track)) 0 = Some prev
    /\ speedKmh s = Some v /\ speedKmh prev = Some vp
    /\ accelKmhS s = Some ((v - vp) / ((1000 - 0) / 1000)).
Proof.
  destruct fix_track_speeds as (prev & s & vp & v & Hprev & Hs & Hdt & Hvp & Hv).
  exists prev, s, vp, v.
  split; [exact Hs|]. split; [exact Hprev|].
  split; [exact Hv|]. split; [exact Hvp|].
  destruct (acceleration_rule fix_track 1 s Hs) as [_ Hlater].
  destruct (Hlater 0%nat prev eq_refl Hprev) as [_ Hrule].
  apply (Hrule _ v vp Hdt ltac:(lra) Hv Hvp).
Defined.

(** X9: segment [i] runs from point [i] to point [i+1], so each segment
    starts where the one before it ends. *)
Theorem track_continuity (pts : list Point) (i : nat) (s : Segment) :
  nth_error (fst (computeSegmentsAndStats pts)) i = Some s ->
  (exists p q, nth_error pts i = Some p /\ nth_error pts (S i) = Some q
               /\ a s = (lat p, lon p) /\ b s = (lat q, lon q))
  /\ (forall s', nth_error (fst (computeSegmentsAndStats pts)) (S i) = Some s' ->
                 a s' = b s).
Proof.
  unfold computeSegmentsAndStats. cbv zeta. cbn [fst]. unfold kin_run.
  destruct pts as [|p0 rest]; [destruct i; discriminate|].
  destruct (kin_loop_segments rest p0 kin_init) as (l & Hl & _ & Hnth).
  rewrite Hl. simpl. intros Hs.
  destruct (Hnth i s Hs) as (p & q & Hp & Hq & Ha & Hb & _).
  split; [exists p, q; now repeat split|].
  intros s' Hs'.
  destruct (Hnth (S i) s' Hs') as (p' & q' & Hp' & _ & Ha' & _).
  rewrite Ha', Hb. simpl in Hp', Hq. congruence.
Qed.

(** The first segment of [fix_track] runs from the first fix to the
    second. *)
Lemma track_continuity_witness :
  exists s, nth_error (fst (computeSegmentsAndStats fix_track)) 0 = Some s
            /\ a s = (lat fix_a, lon fix_a) /\ b s = (lat fix_b, lon fix_b).
Proof.
  destruct (fix_track_segment 0 ltac:(lia)) as [s Hs].
  exists s. split; [exact Hs|].
  destruct (track_continuity fix_track 0 s Hs) as [(p & q & Hp & Hq & Ha & Hb) _].
  simpl in Hp, Hq. injection Hp as <-. injection Hq as <-. now split.
Defined.

(** * Further properties of the local statistics *)

Lemma window_stat_between (xs : list R) :
  xs <> [] ->
  0 <= std (window_stat xs)
  /\ exists x y, In x xs /\ In y xs
                 /\ x <= median (window_stat xs) <= y.
Proof.
  intros Hne. destruct xs as [|x0 xs]; [contradiction|].
  unfold window_stat. cbv beta iota zeta. cbn [median std].
  set (l := x0 :: xs).
  pose proof (RSort.Permuted_sort l) as Hperm.
  pose proof (Permutation_length Hperm) as Hlen.
  set (srt := RSort.sort l) in *.
  assert (Hn : (0 < length srt)%nat) by (rewrite <- Hlen; simpl; lia).
  assert (Hback : forall k, (k < length srt)%nat -> In (nth k srt 0) l).
  { intros k Hk. apply (Permutation_in _ (Permutation_sym Hperm)).
    now apply nth_In. }
  split; [apply sqrt_pos|].
  destruct (Nat.odd (length srt)) eqn:Hodd.
  - exists (nth (length srt / 2) srt 0), (nth (length srt / 2) srt 0).
    assert (Hk : (length srt / 2 < length srt)%nat)
      by (apply Nat.div_lt; lia).
    repeat split; try (now apply Hback); lra.
  - assert (H2 : (2 <= length srt)%nat).
    { destruct (length srt) as [|[|n]]; [lia | discriminate | lia]. }
    assert (Hk : (length srt / 2 < length srt)%nat)
      by (apply Nat.div_lt; lia).
    set (u := nth (length srt / 2 - 1) srt 0).
    set (v := nth (length srt / 2) srt 0).
    assert (Hu : In u l) by (apply Hback; lia).
    assert (Hv : In v l) by (apply Hback; lia).
    destruct (Rle_dec u v) as [Huv|Huv].
    + exists u, v. repeat split; try assumption; lra.
    + exists v, u. repeat split; try assumption; lra.
Qed.

(** X10: for a positive window length, the standard deviation of every
    segment's local statistic is not negative and its median lies
    between the speeds of two segments at or before that segment. *)
Theorem local_stat_bounds (segs : list Segment) (win : R) (i : nat) :
  0 < win -> (i < length segs)%nat ->
  exists ls,
    nth_error (computeLocalStats segs win) i = Some (Some ls)
    /\ 0 <= std ls
    /\ exists j k, (j <= i)%nat /\ (k <= i)%nat
                   /\ speed_at segs j <= median ls <= speed_at segs k.
Proof.
  intros Hwin Hi. unfold computeLocalStats.
  rewrite (Rleb_false win 0 Hwin), orb_false_r.
  destruct (length segs =? 0)%nat eqn:E; [apply Nat.eqb_eq in E; lia|].
  set (speeds := map (fun s => Some (or0 (speedKmh s))) segs).
  destruct (stats_loop_nth segs win speeds segs 0 0 0) as [_ Hnth].
  destruct (window_lefts_spec segs win segs 0 0 0 (Nat.le_refl 0)
              eq_refl ltac:(simpl; reflexivity)) as [_ Hk].
  cbv zeta in Hk. destruct (Hk i Hi) as ((_ & Hl) & _). simpl in Hl.
  eexists. split; [apply Hnth; exact Hi|]. simpl.
  unfold speeds. rewrite slice_speeds by exact Hi.
  set (l := nth i (window_lefts segs win segs 0 0 0) O) in *.
  destruct (window_stat_between (window_speeds segs l i)) as [Hstd Hmed].
  { unfold window_speeds. replace (S i - l)%nat with (S (i - l)) by lia.
    discriminate. }
  split; [exact Hstd|].
  destruct Hmed as (x & y & Hx & Hy & Hxy).
  unfold window_speeds in Hx, Hy.
  apply in_map_iff in Hx as (j & <- & Hj). apply in_map_iff in Hy as (k & <- & Hk').
  apply in_seq in Hj. apply in_seq in Hk'.
  exists j, k. repeat split; try lia; lra.
Qed.

Lemma local_stat_bounds_witness :
  exists ls,
    nth_error (computeLocalStats dip_track 8) 2 = Some (Some ls)
    /\ 0 <= std ls
    /\ exists j k, (j <= 2)%nat /\ (k <= 2)%nat
                   /\ speed_at dip_track j <= median ls <= speed_at dip_track k.
Proof.
  apply (local_stat_bounds dip_track 8 2); [lra | simpl; lia].
Defined.

(** * Further properties of enrichment and of a detection run *)

Lemma fold_min_ge (d : nat) (l : list nat) :
  Forall (fun y => (d <= y)%nat) l -> fold_right Nat.min d l = d.
Proof. induction 1; simpl; lia. Qed.

Lemma first_sorted_hd (l : list nat) :
  StronglySorted lt l -> first_sorted l = hd O l.
Proof.
  unfold first_sorted. destruct 1 as [|x l Hs Hx]; simpl; [reflexivity|].
  rewrite fold_min_ge; [lia|].
  eapply Forall_impl; [|exact Hx]. simpl. intros; lia.
Qed.

Lemma fold_max_sorted (l : list nat) :
  StronglySorted lt l -> l <> [] ->
  forall d, (d <= hd O l)%nat -> fold_right Nat.max d l = last l O.
Proof.
  induction 1 as [|x l Hs IH Hx]; intros Hne d Hd; [contradiction|].
  destruct l as [|y l]; simpl in *; [lia|].
  inversion Hx; subst.
  rewrite (IH ltac:(discriminate) d ltac:(lia)).
  pose proof (last_In (y :: l) O ltac:(discriminate)) as Hin.
  rewrite Forall_forall in Hx. specialize (Hx _ Hin). simpl in Hx. lia.
Qed.

Lemma last_sorted_last (l : list nat) :
  StronglySorted lt l -> last_sorted l = last l O.
Proof.
  intros Hs. unfold last_sorted. destruct l as [|x l]; [reflexivity|].
  apply fold_max_sorted; [exact Hs | discriminate | simpl; lia].
Qed.

Lemma sorted_between (l : list nat) (k : nat) :
  StronglySorted lt l -> In k l -> (hd O l <= k <= last l O)%nat.
Proof.
  induction 1 as [|x l Hs IH Hx]; intros Hin; [contradiction|].
  rewrite Forall_forall in Hx.
  destruct l as [|y l].
  - destruct Hin as [<- | []]. simpl. lia.
  - pose proof (last_In (y :: l) O ltac:(discriminate)) as Hl.
    destruct Hin as [<- | Hin].
    + specialize (Hx _ Hl). simpl in *. lia.
    + specialize (IH Hin). specialize (Hx _ Hin). simpl in *. lia.
Qed.

(** X11: for every wave the detector returns, enrichment keeps its start
    and end index and rebuilds the index range as the contiguous run from
    [startIdx] to [endIdx]; the run stays inside the segment array,
    contains every member segment (and the segments the grace timer
    skipped between them) and carries one speed per index. *)
Theorem enriched_indices (o : Options) (pts : list Point)
    (segs : list Segment) (w : Wave) :
  In w (detectWavesV2 o segs) ->
  let e := enrichWave pts segs w in
  e_startIdx e = startIdx w /\ e_endIdx e = endIdx w
  /\ indices e = seq (startIdx w) (S (endIdx w) - startIdx w)
  /\ (forall k, In k (indices e) -> (k < length segs)%nat)
  /\ incl (segmentIndices w) (indices e)
  /\ length (speeds e) = length (indices e).
Proof.
  unfold detectWavesV2. intros Hin. apply filter_In in Hin as [Hin _].
  pose proof (found_waves_ok o segs) as H. rewrite Forall_forall in H.
  destruct (H w Hin) as [(Hne & Hs & Hall & Hhd & Hlast) _].
  pose proof (last_In (segmentIndices w) O Hne) as Hl.
  rewrite Forall_forall in Hall. pose proof (Hall _ Hl) as Hend.
  rewrite Hlast in Hend.
  pose proof (sorted_hd_le_last _ Hs) as Hle. rewrite Hhd, Hlast in Hle.
  cbv zeta. unfold enrichWave. cbv zeta. cbn [e_startIdx e_endIdx indices speeds].
  assert (Hlen : (length (segmentIndices w) =? 0)%nat = false).
  { destruct (segmentIndices w); [contradiction | reflexivity]. }
  rewrite Hlen. cbn [negb].
  rewrite (first_sorted_hd _ Hs), (last_sorted_last _ Hs), Hhd, Hlast.
  rewrite (Nat.min_r (length segs - 1) (endIdx w)) by lia.
  assert (Hseg : (length segs =? 0)%nat = false) by (apply Nat.eqb_neq; lia).
  rewrite Hseg.
  split; [reflexivity|]. split; [reflexivity|]. split; [reflexivity|].
  split; [|split].
  - intros k Hk. apply in_seq in Hk. lia.
  - intros k Hk. apply in_seq.
    pose proof (sorted_between _ k Hs Hk) as Hb. rewrite Hhd, Hlast in Hb. lia.
  - now rewrite length_map.
Qed.

Lemma enriched_indices_witness :
  let e := enrichWave [fix_a; fix_b; fix_c] dip_track dip_wave in
  e_startIdx e = startIdx dip_wave /\ e_endIdx e = endIdx dip_wave
  /\ indices e = seq (startIdx dip_wave) (S (endIdx dip_wave) - startIdx dip_wave)
  /\ (forall k, In k (indices e) -> (k < length dip_track)%nat)
  /\ incl (segmentIndices dip_wave) (indices e)
  /\ length (speeds e) = length (indices e).
Proof.
  apply (enriched_indices default_options [fix_a; fix_b; fix_c] dip_track
           dip_wave).
  rewrite detect_dip_track. now left.
Defined.

(** The peak search keeps the greatest finite speed seen and an index
    where it was seen. *)
Lemma peak_fold (segs : list Segment) (idx : list nat) :
  forall (acc : option nat * num),
    let r := fold_left (peak_step segs) idx acc in
    (forall v0, snd acc = Some v0 -> exists v, snd r = Some v /\ v0 <= v)
    /\ (forall j vj, In j idx -> speed_of segs j = Some vj ->
          exists v, snd r = Some v /\ vj <= v)
    /\ (forall v, snd r = Some v ->
          (snd acc = Some v /\ fst r = fst acc)
          \/ exists k, In k idx /\ fst r = Some k /\ speed_of segs k = Some v).
Proof.
  induction idx as [|i idx IH]; intros acc; cbv zeta; simpl.
  - split; [|split].
    + intros v0 H. exists v0. split; [exact H | lra].
    + intros j vj [].
    + intros v H. left. now split.
  - destruct (IH (peak_step segs acc i)) as (Hkeep & Hall & Hsrc).
    cbv zeta in Hkeep, Hall, Hsrc.
    assert (Hstep : (forall v0, snd acc = Some v0 ->
                       exists v, snd (peak_step segs acc i) = Some v /\ v0 <= v)
                    /\ (forall vi, speed_of segs i = Some vi ->
                          exists v, snd (peak_step segs acc i) = Some v
                                    /\ vi <= v)
                    /\ (peak_step segs acc i = acc
                        \/ exists v, peak_step segs acc i = (Some i, Some v)
                                     /\ speed_of segs i = Some v)).
    { unfold peak_step, speed_of. destruct (nth_error segs i) as [s|].
      - destruct (speedKmh s) as [v|].
        + destruct (snd acc) as [pv|] eqn:Ea.
          * destruct (Rltb pv v) eqn:E.
            -- apply Rltb_iff in E. split; [|split].
               ++ intros v0 H0. inversion H0; subst. exists v.
                  split; [reflexivity | lra].
               ++ intros vi Hvi. inversion Hvi; subst. exists vi.
                  split; [reflexivity | lra].
               ++ right. exists v. now split.
            -- apply Rltb_false_iff in E. split; [|split].
               ++ intros v0 H0. exists v0. split; [congruence | lra].
               ++ intros vi Hvi. inversion Hvi; subst. exists pv.
                  split; [exact Ea | exact E].
               ++ now left.
          * split; [|split].
            -- intros v0 H0. discriminate.
            -- intros vi Hvi. inversion Hvi; subst. exists vi.
               split; [reflexivity | lra].
            -- right. exists v. now split.
        + split; [|split].
          * intros v0 H0. exists v0. split; [exact H0 | lra].
          * intros vi Hvi. discriminate.
          * now left.
      - split; [|split].
        + intros v0 H0. exists v0. split; [exact H0 | lra].
        + intros vi Hvi. discriminate.
        + now left. }
    destruct Hstep as (S1 & S2 & S3).
    split; [|split].
    + intros v0 H0. destruct (S1 v0 H0) as (v1 & Hv1 & Hle1).
      destruct (Hkeep v1 Hv1) as (v & Hv & Hle). exists v. split; [exact Hv | lra].
    + intros j vj [<- | Hj] Hvj.
      * destruct (S2 vj Hvj) as (v1 & Hv1 & Hle1).
        destruct (Hkeep v1 Hv1) as (v & Hv & Hle).
        exists v. split; [exact Hv | lra].
      * exact (Hall j vj Hj Hvj).
    + intros v Hv. destruct (Hsrc v Hv) as [[Ha Hf] | (k & Hk & Hfk & Hsk)].
      * destruct S3 as [Es | (v1 & Es & Hs1)].
        -- left. split; congruence.
        -- right. exists i.
           assert (E1 : snd (peak_step segs acc i) = Some v1)
             by (now rewrite Es).
           assert (E2 : fst (peak_step segs acc i) = Some i)
             by (now rewrite Es).
           split; [now left|]. split; congruence.
      * right. exists k. split; [now right | now split].
Qed.

(** X12: the peak value of an enriched wave is the greatest finite speed
    of the segments in its index range, and the peak index is a position
    in that range where this speed is found. *)
Theorem enriched_peak (pts : list Point) (segs : list Segment) (w : Wave) :
  let e := enrichWave pts segs w in
  (forall j vj, In j (indices e) -> speed_of segs j = Some vj ->
     exists v, peakVal e = Some v /\ vj <= v)
  /\ (forall v, peakVal e = Some v ->
        exists k, peakIdx e = Some k /\ In k (indices e)
                  /\ speed_of segs k = Some v).
Proof.
  cbv zeta. unfold enrichWave. cbv zeta. cbn [peakVal peakIdx indices].
  match goal with
  | |- context [fold_left (peak_step segs) ?idx ?acc] =>
      destruct (peak_fold segs idx acc) as (_ & Hall & Hsrc)
  end.
  cbv zeta in Hall, Hsrc. split; [exact Hall|].
  intros v Hv. destruct (Hsrc v Hv) as [[Ha _] | (k & Hk & Hfk & Hsk)].
  - discriminate.
  - exists k. now repeat split.
Qed.

(** X13: every wave the detector returns has a positive duration, also
    when [minDurationS] is 0, so its enriched average speed is always
    defined and is 3.6 * distance / duration; its mean direction, when
    defined, lies in [[0, 360]] (below 360 in exact arithmetic; the
    closed bound also holds when the addition [w + 360] of
    [normalizeBearing] is rounded). *)
Theorem enriched_speed_direction (o : Options) (pts : list Point)
    (segs : list Segment) (w : Wave) :
  In w (detectWavesV2 o segs) ->
  let e := enrichWave pts segs w in
  0 < durationS w
  /\ e_avgKmh e = Some (wDistM w / durationS w * 3.6)
  /\ forall d, directionDeg e = Some d -> 0 <= d <= 360.
Proof.
  unfold detectWavesV2. intros Hin. apply filter_In in Hin as [Hin _].
  destruct (found_waves_facts o segs) as [Hf _].
  rewrite Forall_forall in Hf. destruct (Hf w Hin) as (_ & _ & Hdur).
  cbv zeta. split; [exact Hdur|].
  unfold enrichWave. cbv zeta. cbn [e_avgKmh directionDeg].
  rewrite (Rltb_true 0 _ Hdur). split; [reflexivity|].
  intros d Hd.
  assert (Hnorm : forall x, normalizeBearing (Some x) = Some d ->
                            0 <= d <= 360).
  { intros x Hx. destruct (normalizeBearing_range x) as (d' & Hd' & Hr & _).
    rewrite Hd' in Hx. inversion Hx; subst. lra. }
  assert (Hbear : forall p q, bearingDegrees p q = Some d -> 0 <= d <= 360).
  { intros p q Hx. destruct (bearingDegrees_range p q) as (d' & Hd' & Hr).
    rewrite Hd' in Hx. inversion Hx; subst. lra. }
  destruct (finite_vals _) as [|x0 samples] in Hd.
  - destruct (slice pts _ _) as [|first [|second sl]] in Hd;
      try discriminate. exact (Hbear _ _ Hd).
  - destruct (_ || _) in Hd; [|discriminate]. exact (Hnorm _ Hd).
Qed.

Lemma enriched_speed_direction_witness :
  let e := enrichWave [fix_a; fix_b; fix_c] dip_track dip_wave in
  0 < durationS dip_wave
  /\ e_avgKmh e = Some (wDistM dip_wave / durationS dip_wave * 3.6)
  /\ forall d, directionDeg e = Some d -> 0 <= d <= 360.
Proof.
  apply (enriched_speed_direction default_options [fix_a; fix_b; fix_c]
           dip_track dip_wave).
  rewrite detect_dip_track. now left.
Defined.

Lemma runWaveDetection_ignores_waves (ui : Controls) (pts : list Point)
    (segs : list Segment) (sts : option Stats) (ws ws' : list EnrichedWave) :
  runWaveDetection ui (mkAppState pts segs sts ws)
  = runWaveDetection ui (mkAppState pts segs sts ws').
Proof. unfold runWaveDetection. simpl. destruct segs; reflexivity. Qed.

(** * The first detector *)

Lemma detect1_body_inv (thr minDur : R) (n : nat) (s : Segment)
    (st : list SimpleWave * option SimpleWave) :
  detect1_inv thr minDur n st ->
  detect1_inv thr minDur (S n) (detect1_body thr minDur n s st).
Proof.
  intros (Hs & Hf & Hc). unfold detect1_body, detect1_inv.
  assert (Hf' : Forall (fun w => (S (sw_endIdx w) < S n)%nat
                                 /\ simple_ok thr minDur (S n) w) (fst st)).
  { eapply Forall_impl; [|exact Hf]. simpl.
    intros w (H1 & (H2 & H3)). unfold simple_ok. repeat split; try lia;
      tauto. }
  destruct (over1 thr s) eqn:Ho.
  - unfold over1 in Ho. apply andb_prop in Ho as [Hv Hd].
    unfold num_ge in Hv. destruct (speedKmh s) as [v|]; [|discriminate].
    apply Rleb_iff in Hv. unfold positive in Hd.
    destruct (dtS s) as [d|]; [|discriminate]. apply Rltb_iff in Hd.
    cbn [fst snd sw_startIdx sw_endIdx sw_maxKmh sw_durationS num_gt or0].
    split; [exact Hs|]. split; [exact Hf'|].
    destruct (snd st) as [c|].
    + destruct Hc as (H1 & H2 & H3 & H4).
      split; [lia|]. split; [|split; [lra | exact H4]].
      destruct (Rltb (sw_maxKmh c) v); lra.
    + cbn [sw_startIdx sw_maxKmh sw_durationS].
      split; [lia|]. split; [|split; [lra|]].
      * destruct (Rltb 0 v) eqn:E; [lra|]. apply Rltb_false_iff in E. lra.
      * eapply Forall_impl; [|exact Hf]. simpl. intros w [H1 _]. lia.
  - destruct (snd st) as [c|] eqn:Ec.
    + destruct Hc as (H1 & H2 & H3 & H4). cbn [fst snd].
      destruct (Rleb minDur (sw_durationS c)) eqn:E.
      * apply Rleb_iff in E. split; [now apply StronglySorted_app_one|].
        split; [|exact I]. apply Forall_app. split; [exact Hf'|].
        constructor; [|constructor]. unfold simple_ok.
        repeat split; try lia; assumption.
      * split; [exact Hs|]. split; [exact Hf' | exact I].
    + rewrite Ec. split; [exact Hs|]. split; [exact Hf' | exact I].
Qed.

Lemma detect1_loop_inv (thr minDur : R) (rest : list Segment) :
  forall n st,
    detect1_inv thr minDur n st ->
    detect1_inv thr minDur (n + length rest) (detect1_loop thr minDur n rest st).
Proof.
  induction rest as [|s rest IH]; intros n st H; simpl.
  - now rewrite Nat.add_0_r.
  - rewrite <- Nat.add_succ_comm. apply IH. now apply detect1_body_inv.
Qed.

Lemma detect1_found_ok (segs : list Segment) (thr minDur : R) :
  StronglySorted before1 (detect1_found segs thr minDur)
  /\ Forall (simple_ok thr minDur (length segs)) (detect1_found segs thr minDur).
Proof.
  unfold detect1_found. cbv zeta.
  pose proof (detect1_loop_inv thr minDur segs 0 ([], None)) as H.
  simpl in H.
  destruct H as (Hs & Hf & Hc).
  { unfold detect1_inv. simpl. repeat split; constructor. }
  assert (Hf' : Forall (simple_ok thr minDur (length segs))
                       (fst (detect1_loop thr minDur 0 segs ([], None)))).
  { eapply Forall_impl; [|exact Hf]. simpl. tauto. }
  destruct (snd _) as [c|]; [|now split].
  destruct Hc as (H1 & H2 & H3 & H4).
  destruct (Rleb minDur (sw_durationS c)) eqn:E; [|now split].
  apply Rleb_iff in E. split; [now apply StronglySorted_app_one|].
  apply Forall_app. split; [exact Hf'|]. constructor; [|constructor].
  unfold simple_ok. repeat split; try lia; assumption.
Qed.

Lemma short_gap_spec (segs : list Segment) (prev : SimpleWave) (gap : Segment) :
  short_gap segs prev = Some gap ->
  In gap segs /\ exists d, dtS gap = Some d /\ d <= 1.
Proof.
  unfold short_gap. destruct (nth_error segs _) as [g|] eqn:E; [|discriminate].
  destruct (dtS g) as [d|] eqn:Ed; [|discriminate].
  destruct (Rleb d 1) eqn:El; [|discriminate].
  intros H. inversion H; subst. split; [eapply nth_error_In; eauto|].
  exists d. split; [exact Ed | now apply Rleb_iff].
Qed.

(** The merge keeps the order of the waves and every property that
    survives the absorption of a wave into the one before it. *)
Lemma merge_from_ok (segs : list Segment) (P : SimpleWave -> Prop) :
  (forall prev gap f,
     P prev -> P f -> short_gap segs prev = Some gap -> before1 prev f ->
     P (mkSimpleWave (sw_startIdx prev) (sw_endIdx f)
          (sw_distM prev + (or0 (distM gap) + sw_distM f))
          (sw_durationS prev + (or0 (dtS gap) + sw_durationS f))
          (Rmax (sw_maxKmh prev) (sw_maxKmh f)))) ->
  forall rest prev,
    StronglySorted before1 (prev :: rest) ->
    Forall (fun w => (sw_startIdx w <= sw_endIdx w)%nat /\ P w) (prev :: rest) ->
    StronglySorted before1 (merge_from segs prev rest)
    /\ Forall (fun w => (sw_startIdx prev <= sw_startIdx w)%nat
                        /\ (sw_startIdx w <= sw_endIdx w)%nat /\ P w)
              (merge_from segs prev rest).
Proof.
  intros Habs. induction rest as [|f rest IH]; intros prev Hs Hall; simpl.
  - inversion Hall as [|? ? [Hle HP] _]; subst.
    split; [repeat constructor|]. constructor; [|constructor].
    repeat split; [lia | exact Hle | exact HP].
  - inversion Hs as [|? ? Hs' Hprev]; subst.
    inversion Hprev as [|? ? Hpf Hprest]; subst.
    inversion Hs' as [|? ? Hs'' Hf]; subst.
    inversion Hall as [|? ? [Hle HP] Hall']; subst.
    inversion Hall' as [|? ? [Hlef HPf] Hall'']; subst.
    unfold before1 in Hpf.
    destruct (short_gap segs prev) as [gap|] eqn:Eg.
    + destruct (IH (mkSimpleWave (sw_startIdx prev) (sw_endIdx f)
                      (sw_distM prev + (or0 (distM gap) + sw_distM f))
                      (sw_durationS prev + (or0 (dtS gap) + sw_durationS f))
                      (Rmax (sw_maxKmh prev) (sw_maxKmh f))))
        as [IH1 IH2].
      * constructor; [exact Hs''|]. exact Hf.
      * constructor; [|exact Hall'']. simpl. split; [lia|].
        now apply Habs.
      * split; [exact IH1 | exact IH2].
    + destruct (IH f Hs' Hall') as [IH1 IH2]. split.
      * constructor; [exact IH1|].
        eapply Forall_impl; [|exact IH2]. simpl. unfold before1.
        intros w (H1 & _). lia.
      * constructor; [repeat split; [lia | exact Hle | exact HP]|].
        eapply Forall_impl; [|exact IH2]. simpl.
        intros w (H1 & H2 & H3). repeat split; [lia | exact H2 | exact H3].
Qed.

Lemma detect1_loop_idle (thr minDur : R) (rest : list Segment) :
  (forall s, In s rest -> over1 thr s = false) ->
  forall n, detect1_loop thr minDur n rest ([], None) = ([], None).
Proof.
  induction rest as [|s rest IH]; intros H n; simpl; [reflexivity|].
  unfold detect1_body. rewrite (H s (or_introl eq_refl)). simpl.
  apply IH. intros s' Hs'. apply H. now right.
Qed.

(** X16: the first detector returns its waves in track order, without
    overlap; each wave satisfies [startIdx <= endIdx < segs.length] and
    has a peak speed of at least the threshold; a track without a segment
    over the threshold gives no wave. *)
Theorem detectWaves_structure (segs : list Segment) (thr minDur : R) :
  StronglySorted before1 (detectWaves segs thr minDur)
  /\ Forall (fun w => (sw_startIdx w <= sw_endIdx w < length segs)%nat
                      /\ thr <= sw_maxKmh w)
            (detectWaves segs thr minDur)
  /\ ((forall s, In s segs -> over1 thr s = false) ->
      detectWaves segs thr minDur = []).
Proof.
  split; [|split].
  - unfold detectWaves. destruct (detect1_found_ok segs thr minDur) as [Hs Hf].
    destruct (detect1_found segs thr minDur) as [|f rest]; [constructor|].
    apply (merge_from_ok segs (fun _ => True)); [trivial | exact Hs|].
    eapply Forall_impl; [|exact Hf]. simpl. unfold simple_ok.
    intros w ((H1 & _) & _). now split.
  - unfold detectWaves. destruct (detect1_found_ok segs thr minDur) as [Hs Hf].
    destruct (detect1_found segs thr minDur) as [|f rest]; [constructor|].
    destruct (merge_from_ok segs
                (fun w => (sw_endIdx w < length segs)%nat /\ thr <= sw_maxKmh w))
      with (rest := rest) (prev := f) as [_ H].
    + intros prev gap f' [H1 H2] [H3 H4] _ _. simpl. split; [exact H3|].
      eapply Rle_trans; [exact H2 | apply Rmax_l].
    + exact Hs.
    + eapply Forall_impl; [|exact Hf]. simpl. unfold simple_ok.
      intros w ((H1 & H2) & H3 & _). repeat split; try lia. exact H3.
    + eapply Forall_impl; [|exact H]. simpl.
      intros w (_ & H1 & H2 & H3). repeat split; try lia. exact H3.
  - intros Hno. unfold detectWaves, detect1_found. cbv zeta.
    now rewrite (detect1_loop_idle thr minDur segs Hno 0).
Qed.

(** X17: when the timestamps of the track do not go back, every wave the
    first detector returns, merged or not, lasts at least
    [minDurationS]. *)
Theorem detectWaves_duration (segs : list Segment) (thr minDur : R) :
  monotone_time segs ->
  Forall (fun w => minDur <= sw_durationS w) (detectWaves segs thr minDur).
Proof.
  intros Hmono. unfold detectWaves.
  destruct (detect1_found_ok segs thr minDur) as [Hs Hf].
  destruct (detect1_found segs thr minDur) as [|f rest]; [constructor|].
  destruct (merge_from_ok segs
              (fun w => minDur <= sw_durationS w /\ 0 <= sw_durationS w))
    with (rest := rest) (prev := f) as [_ H].
  - intros prev gap f' [H1 H2] [H3 H4] Hgap _. simpl.
    apply short_gap_spec in Hgap as (Hin & d & Hd & _).
    pose proof (Hmono gap d Hin Hd) as H0. rewrite Hd. simpl. lra.
  - exact Hs.
  - eapply Forall_impl; [|exact Hf]. simpl. unfold simple_ok.
    intros w ((H1 & H2) & _ & H3 & H4). repeat split; try lia; assumption.
  - eapply Forall_impl; [|exact H]. simpl. tauto.
Qed.

(** On [merge_track] the first detector returns one wave, merged from
    the waves on either side of the slow segment. *)
Lemma detect_merge_track :
  exists w, detectWaves merge_track 15 2 = [w]
            /\ sw_startIdx w = 0%nat /\ sw_endIdx w = 4%nat.
Proof.
  eexists. split.
  - unfold detectWaves, detect1_found, merge_track.
    cbv -[Rleb Rltb Rplus Rmult Rminus Rdiv Rinv Ropp IZR Rmax Rmin].
    rcompare.
    cbv -[Rleb Rltb Rplus Rmult Rminus Rdiv Rinv Ropp IZR Rmax Rmin].
    rcompare. reflexivity.
  - split; reflexivity.
Qed.

(** The merged wave of [merge_track], from segment 0 to segment 4, lasts
    at least the two seconds asked for. *)
Lemma detectWaves_duration_witness :
  exists w, detectWaves merge_track 15 2 = [w]
            /\ sw_startIdx w = 0%nat /\ sw_endIdx w = 4%nat
            /\ 2 <= sw_durationS w.
Proof.
  destruct detect_merge_track as (w & Hw & Hs & He).
  exists w. split; [exact Hw|]. split; [exact Hs|]. split; [exact He|].
  assert (Hmono : monotone_time merge_track).
  { intros s d [<- | [<- | [<- | [<- | [<- | []]]]]] Hd; inversion Hd; lra. }
  pose proof (detectWaves_duration merge_track 15 2 Hmono) as H.
  rewrite Hw in H. inversion H. assumption.
Defined.

(** * Threshold helpers, formatting and colours *)

Lemma clamp_range (v lo hi : R) : lo <= hi -> lo <= clamp v lo hi <= hi.
Proof.
  intros H. unfold clamp. split; [apply Rmax_l|].
  apply Rmax_lub; [exact H | apply Rmin_l].
Qed.

Lemma finite_vals_In (l : list num) (v : R) :
  In v (finite_vals l) <-> In (Some v) l.
Proof.
  induction l as [|[x|] l IH]; simpl.
  - tauto.
  - rewrite IH. split; intros [H | H]; auto; left; congruence.
  - rewrite IH. split; [auto | intros [H | H]; [discriminate | exact H]].
Qed.

(** X18: the suggested threshold always lies in [[5, 120]]; it is 15
    when no segment is faster than 1 km/h, and otherwise it is the speed
    of one of the segments faster than 1 km/h, clamped to that range. *)
Theorem auto_threshold_range (segs : list Segment) :
  5 <= computeAutoThreshold segs <= 120
  /\ ((forall s v, In s segs -> speedKmh s = Some v -> v <= 1) ->
      computeAutoThreshold segs = 15)
  /\ (computeAutoThreshold segs = 15
      \/ exists s v, In s segs /\ speedKmh s = Some v /\ 1 < v
                     /\ computeAutoThreshold segs = clamp v 5 120).
Proof.
  unfold computeAutoThreshold. cbv zeta.
  remember (filter (fun v => Rltb 1 v) (finite_vals (map speedKmh segs)))
    as speeds eqn:E.
  assert (Hsrc : forall v, In v speeds ->
            exists s, In s segs /\ speedKmh s = Some v /\ 1 < v).
  { intros v Hv. rewrite E in Hv. apply filter_In in Hv as [Hv H1].
    apply Rltb_iff in H1.
    apply finite_vals_In, in_map_iff in Hv as (s & Hs & Hin).
    exists s. now repeat split. }
  clear E. destruct speeds as [|x0 l].
  - split; [lra|]. split; [reflexivity | now left].
  - cbv iota. set (speeds := x0 :: l) in *.
    pose proof (RSort.Permuted_sort speeds) as Hperm.
    set (srt := RSort.sort speeds) in *.
    assert (Hpos : (0 < length srt)%nat).
    { rewrite <- (Permutation_length Hperm). simpl. lia. }
    assert (Hidx : (3 * (length srt - 1) / 4 < length srt)%nat).
    { apply Nat.le_lt_trans with (length srt - 1)%nat; [|lia].
      apply Nat.Div0.div_le_upper_bound. lia. }
    assert (Hin : In (nth (3 * (length srt - 1) / 4) srt 0) speeds).
    { apply (Permutation_in _ (Permutation_sym Hperm)). now apply nth_In. }
    split; [apply clamp_range; lra|]. split.
    + intros Hslow. destruct (Hsrc _ Hin) as (s & Hs & Hv & H1).
      specialize (Hslow s _ Hs Hv). lra.
    + right. destruct (Hsrc _ Hin) as (s & Hs & Hv & H1).
      exists s, (nth (3 * (length srt - 1) / 4) srt 0). now repeat split.
Qed.

Lemma js_round_near (x : R) :
  -0.5 < IZR (js_round x) - x <= 0.5.
Proof.
  unfold js_round. pose proof (base_Int_part (x + 0.5)). lra.
Qed.

(** X19: the threshold applied is a multiple of 0.5 and lies within
    0.25 of the requested value clamped to the range of the slider. *)
Theorem setThreshold_steps (value : R) (rangeMin rangeMax : num) :
  let clamped := clamp value (or_default rangeMin 0) (or_default rangeMax 100) in
  (exists k : Z, setThreshold value rangeMin rangeMax = IZR k / 2)
  /\ -0.25 < setThreshold value rangeMin rangeMax - clamped <= 0.25.
Proof.
  cbv zeta. unfold setThreshold. cbv zeta. split; [eexists; reflexivity|].
  pose proof (js_round_near
                (clamp value (or_default rangeMin 0) (or_default rangeMax 100) * 2)).
  lra.
Qed.

Lemma ranks_below_trans (x y z : EnrichedWave) :
  ranks_below x y -> ranks_below y z -> ranks_below x z.
Proof. unfold ranks_below. intros [H1 | [H1 H2]] [H3 | [H3 H4]]; lra. Qed.

Lemma better_spec (w best : EnrichedWave) :
  (better w best = true -> ranks_below best w)
  /\ (better w best = false -> ranks_below w best).
Proof.
  unfold better, ranks_below.
  destruct (Rltb (maxKmh (wave best)) (maxKmh (wave w))) eqn:E1; simpl.
  - apply Rltb_iff in E1. split; [now left | discriminate].
  - apply Rltb_false_iff in E1.
    destruct (Req_dec_T _ _) as [Eq|Ne]; simpl.
    + destruct (Rltb (wDistM (wave best)) (wDistM (wave w))) eqn:E2.
      * apply Rltb_iff in E2. split; [right; lra | discriminate].
      * apply Rltb_false_iff in E2. split; [discriminate | right; lra].
    + split; [discriminate | left; lra].
Qed.

Lemma best_fold (ws : list EnrichedWave) :
  forall b0,
    let b := fold_left (fun best w => if better w best then w else best) ws b0 in
    (b = b0 \/ In b ws) /\ ranks_below b0 b
    /\ forall w, In w ws -> ranks_below w b.
Proof.
  induction ws as [|w ws IH]; intros b0; cbv zeta; simpl.
  - split; [now left|]. split; [right; lra | intros w []].
  - destruct (IH (if better w b0 then w else b0)) as (Hin & Hle & Hall).
    cbv zeta in Hin, Hle, Hall.
    destruct (better_spec w b0) as [Hb Hnb].
    destruct (better w b0) eqn:E.
    + specialize (Hb eq_refl). split; [|split].
      * destruct Hin as [-> | Hin]; [right; now left | right; now right].
      * eapply ranks_below_trans; eauto.
      * intros w' [<- | Hw']; [exact Hle | now apply Hall].
    + specialize (Hnb eq_refl). split; [|split].
      * destruct Hin as [-> | Hin]; [now left | right; now right].
      * exact Hle.
      * intros w' [<- | Hw']; [eapply ranks_below_trans; eauto | now apply Hall].
Qed.

(** X20: the best wave of a non-empty list is one of its waves, and no
    wave of the list has a higher peak speed, or the same peak speed and
    a greater distance. *)
Theorem bestWave_is_best (ws : list EnrichedWave) :
  ws <> [] ->
  exists best, bestWave ws = Some best /\ In best ws
               /\ forall w, In w ws -> ranks_below w best.
Proof.
  intros Hne. destruct ws as [|w0 ws]; [contradiction|].
  unfold bestWave. eexists. split; [reflexivity|].
  destruct (best_fold (w0 :: ws) w0) as (Hin & _ & Hall).
  cbv zeta in Hin, Hall. split; [|exact Hall].
  destruct Hin as [-> | Hin]; [now left | exact Hin].
Qed.

(** Of the three waves of [session_waves] the best is the last: it
    beats the first by its peak, and the second, which has the same peak,
    by its distance.  No other wave of the list meets the property. *)
Lemma bestWave_is_best_witness :
  bestWave session_waves = Some long_wave
  /\ forall w, In w session_waves -> ranks_below w long_wave.
Proof.
  destruct (bestWave_is_best session_waves ltac:(discriminate))
    as (best & Hbest & Hin & Hall).
  assert (E : best = long_wave).
  { pose proof (Hall long_wave ltac:(simpl; tauto)) as Hlong.
    destruct Hin as [<- | [<- | [<- | []]]]; [| |reflexivity];
      exfalso; unfold ranks_below in Hlong; simpl in Hlong; lra. }
  subst best. split; [exact Hbest | exact Hall].
Defined.

Lemma Int_part_unique (x : R) (k : Z) :
  IZR k <= x < IZR k + 1 -> Int_part x = k.
Proof. intros H. symmetry. apply Int_part_spec. lra. Qed.

Lemma Int_part_nonneg (x : R) : 0 <= x -> (0 <= Int_part x)%Z.
Proof.
  intros Hx. pose proof (base_Int_part x) as [_ H].
  assert (H1 : -1 < IZR (Int_part x)) by lra.
  apply lt_IZR in H1. lia.
Qed.

Lemma Int_part_below (x : R) (n : Z) : x < IZR n -> (Int_part x < n)%Z.
Proof.
  intros Hx. pose proof (base_Int_part x) as [H _].
  apply lt_IZR. lra.
Qed.

(** X21: for a finite duration that is not negative, the hours, minutes
    and seconds of [fmtDuration] are not negative, the minutes and the
    seconds are below 60, and together they are the whole seconds of the
    duration. *)
Theorem fmtDuration_parts (x : R) :
  0 <= x ->
  exists h m sec,
    fmtDuration (Some x) = Some (h, m, sec)
    /\ (0 <= h)%Z /\ (0 <= m < 60)%Z /\ (0 <= sec < 60)%Z
    /\ (3600 * h + 60 * m + sec)%Z = js_floor x.
Proof.
  intros Hx. unfold fmtDuration, js_floor. do 3 eexists.
  split; [reflexivity|].
  assert (T1 : Rtrunc (x / 3600) = Int_part (x / 3600)).
  { unfold Rtrunc. destruct (Rle_dec 0 (x / 3600)) as [_|Hn]; [reflexivity|].
    exfalso. apply Hn. apply Rmult_le_pos; [exact Hx|].
    apply Rlt_le, Rinv_0_lt_compat. lra. }
  assert (T2 : Rtrunc (x / 60) = Int_part (x / 60)).
  { unfold Rtrunc. destruct (Rle_dec 0 (x / 60)) as [_|Hn]; [reflexivity|].
    exfalso. apply Hn. apply Rmult_le_pos; [exact Hx|].
    apply Rlt_le, Rinv_0_lt_compat. lra. }
  unfold js_rem. rewrite T1, T2.
  set (h := Int_part (x / 3600)).
  pose proof (base_Int_part (x / 3600)) as Bh. fold h in Bh.
  assert (Hh : IZR h * 3600 <= x < (IZR h + 1) * 3600).
  { replace x with (x / 3600 * 3600) at 2 3 by (field). split; nra. }
  set (r := x - 3600 * IZR h).
  assert (Hr : 0 <= r < 3600) by (unfold r; lra).
  set (m := Int_part (r / 60)).
  pose proof (base_Int_part (r / 60)) as Bm. fold m in Bm.
  assert (Hm : IZR m * 60 <= r < (IZR m + 1) * 60).
  { replace r with (r / 60 * 60) at 2 3 by (field). split; nra. }
  assert (Hq : Int_part (x / 60) = (60 * h + m)%Z).
  { apply Int_part_unique. rewrite plus_IZR, mult_IZR.
    replace (x / 60) with ((3600 * IZR h + r) / 60) by (unfold r; field).
    split; lra. }
  rewrite Hq, plus_IZR, mult_IZR.
  replace (x - 60 * (60 * IZR h + IZR m)) with (r - 60 * IZR m)
    by (unfold r; ring).
  set (r2 := r - 60 * IZR m).
  assert (Hr2 : 0 <= r2 < 60) by (unfold r2; lra).
  pose proof (base_Int_part r2) as Bs.
  set (sec := Int_part r2) in *.
  assert (H0h : (0 <= h)%Z).
  { unfold h. apply Int_part_nonneg. apply Rmult_le_pos; [exact Hx|].
    apply Rlt_le, Rinv_0_lt_compat. lra. }
  assert (H0m : (0 <= m < 60)%Z).
  { unfold m. split.
    - apply Int_part_nonneg. apply Rmult_le_pos; [lra|].
      apply Rlt_le, Rinv_0_lt_compat. lra.
    - apply Int_part_below. lra. }
  assert (H0s : (0 <= sec < 60)%Z).
  { unfold sec. split; [apply Int_part_nonneg; lra|].
    apply Int_part_below. lra. }
  split; [exact H0h|]. split; [exact H0m|]. split; [exact H0s|].
  symmetry. apply Int_part_unique.
  rewrite !plus_IZR, !mult_IZR. unfold r2, r in *. lra.
Qed.

Lemma fmtDuration_parts_witness :
  exists h m sec,
    fmtDuration (Some 3725) = Some (h, m, sec)
    /\ (0 <= h)%Z /\ (0 <= m < 60)%Z /\ (0 <= sec < 60)%Z
    /\ (3600 * h + 60 * m + sec)%Z = js_floor 3725.
Proof. apply (fmtDuration_parts 3725). lra. Defined.


Lemma js_round_channel (y : R) : 0 <= y <= 255 -> channel (js_round y).
Proof.
  intros Hy. unfold channel, js_round. split.
  - apply Int_part_nonneg. lra.
  - assert (H : (Int_part (y + 0.5) < 256)%Z) by (apply Int_part_below; lra).
    lia.
Qed.

Lemma js_round_whole (k : Z) : js_round (IZR k) = k.
Proof. unfold js_round. apply Int_part_unique. lra. Qed.

Lemma lerp_between (x y t : R) :
  0 <= x <= 255 -> 0 <= y <= 255 -> 0 <= t <= 1 -> 0 <= lerp x y t <= 255.
Proof. intros Hx Hy Ht. unfold lerp. nra. Qed.

Lemma stop_channels (n : nat) :
  let '(r, g, b) := nth n SPEED_COLOR_STOPS (0, 0, 0) in
  0 <= r <= 255 /\ 0 <= g <= 255 /\ 0 <= b <= 255.
Proof.
  do 6 (destruct n as [|n]; [simpl; lra|]). destruct n; simpl; lra.
Qed.

(** X22: [speedToColor] always yields three channels between 0 and 255,
    whatever its arguments; with a finite scale, a speed at or below the
    minimum gives the first stop (blue), and a speed at or above the
    maximum gives the last stop (red) when the scale spans at least
    0.001 km/h. *)
Theorem speedToColor_channels (speed minKmh maxKmh : num) :
  (let '(r, g, b) := speedToColor speed minKmh maxKmh in
   channel r /\ channel g /\ channel b)
  /\ (forall v lo hi,
        speed = Some v -> minKmh = Some lo -> maxKmh = Some hi ->
        (v <= lo -> speedToColor speed minKmh maxKmh = BLUE)
        /\ (lo + 1e-3 <= hi -> hi <= v ->
            speedToColor speed minKmh maxKmh = RED)).
Proof.
  split.
  - unfold speedToColor.
    destruct (match minKmh, maxKmh with
              | Some lo, Some hi => (lo, hi)
              | _, _ => (or0 speed, or0 speed + 1)
              end) as [lo hi].
    cbv zeta.
    set (scaled := clamp _ 0 1 * 5).
    pose proof (base_Int_part scaled) as Hf. unfold js_floor.
    set (idx := Int_part scaled) in *.
    assert (Hfrac : 0 <= scaled - IZR idx <= 1) by lra.
    pose proof (stop_channels (Z.to_nat idx)) as Hs.
    pose proof (stop_channels (Z.to_nat (Z.min (idx + 1) 5))) as He.
    destruct (nth (Z.to_nat idx) SPEED_COLOR_STOPS (0, 0, 0)) as [[sr sg] sb].
    destruct (nth (Z.to_nat (Z.min (idx + 1) 5)) SPEED_COLOR_STOPS (0, 0, 0))
      as [[er eg] eb].
    destruct Hs as (Hs1 & Hs2 & Hs3). destruct He as (He1 & He2 & He3).
    repeat split; apply js_round_channel; now apply lerp_between.
  - intros v lo hi -> -> ->. unfold speedToColor. cbv zeta.
    assert (Hrange : 0 < Rmax (1e-3) (hi - lo)).
    { eapply Rlt_le_trans; [|apply Rmax_l]. lra. }
    split.
    + intros Hv.
      assert (Ht : clamp ((v - lo) / Rmax (1e-3) (hi - lo)) 0 1 = 0).
      { unfold clamp. apply Rmax_left. eapply Rle_trans; [apply Rmin_r|].
        unfold Rdiv. rewrite <- (Rmult_0_l (/ Rmax (1e-3) (hi - lo))).
        apply Rmult_le_compat_r; [|lra].
        apply Rlt_le, Rinv_0_lt_compat, Hrange. }
      rewrite Ht, Rmult_0_l. unfold js_floor.
      rewrite (Int_part_unique 0 0) by (simpl; lra). simpl.
      unfold lerp, BLUE. replace (0 - 0) with 0 by ring.
      rewrite !Rmult_0_r, !Rplus_0_r.
      now rewrite (js_round_whole 59), (js_round_whole 130),
        (js_round_whole 246).
    + intros Hspan Hv.
      assert (Hr : Rmax (1e-3) (hi - lo) = hi - lo)
        by (apply Rmax_right; lra).
      assert (Ht : clamp ((v - lo) / Rmax (1e-3) (hi - lo)) 0 1 = 1).
      { unfold clamp. rewrite Hr.
        assert (H1 : 1 <= (v - lo) / (hi - lo)).
        { apply (Rmult_le_reg_r (hi - lo)); [lra|].
          unfold Rdiv. rewrite Rmult_assoc, Rinv_l by lra. lra. }
        rewrite (Rmin_left 1) by exact H1. apply Rmax_right. lra. }
      rewrite Ht, Rmult_1_l. unfold js_floor.
      rewrite (Int_part_unique 5 5) by (simpl; lra). simpl.
      unfold lerp, RED. replace (5 - 5) with 0 by ring.
      rewrite !Rmult_0_r, !Rplus_0_r.
      now rewrite (js_round_whole 220), (js_round_whole 38).
Qed.

(** X23: [getDirectionSettings] fails exactly when the three controls
    of its guard are on the page and the field of the maximum deviation
    is not; when one of the three is missing it returns the defaults
    (filter off, 0, 45, 25).  The settings it returns are in range: the
    target bearing in [[0, 360]], the tolerance and the maximum deviation
    in [[0, 180]]; the filter is enabled only when the toggle is not
    disabled and checked; a field that does not parse takes its default
    (0, 45 and 25). *)
Theorem direction_settings_in_range (inputs : option DirectionInputs) :
  (getDirectionSettings inputs = None
   <-> exists i, inputs = Some i /\ stdMaxInput i = None)
  /\ (inputs = None ->
      getDirectionSettings inputs = Some (mkDirectionSettings false 0 45 25))
  /\ forall ds, getDirectionSettings inputs = Some ds ->
       0 <= direction ds <= 360
       /\ 0 <= tolerance ds <= 180
       /\ 0 <= stdMax ds <= 180
       /\ (enabled ds = true <->
           exists i, inputs = Some i /\ toggleDisabled i = false
                     /\ toggleChecked i = true)
       /\ (forall i, inputs = Some i ->
             (angleInput i = None -> direction ds = 0)
             /\ (toleranceInput i = None -> tolerance ds = 45)
             /\ (stdMaxInput i = Some None -> stdMax ds = 25)).
Proof.
  unfold getDirectionSettings. split; [|split].
  - destruct inputs as [i|]; cbv zeta.
    + destruct (stdMaxInput i) as [field|] eqn:E.
      * split; [discriminate|]. intros (i' & Hi & Hn).
        inversion Hi; subst i'. congruence.
      * split; [|reflexivity]. intros _. now exists i.
    + split; [discriminate|]. intros (i & Hi & _). discriminate.
  - intros ->. reflexivity.
  - intros ds Hds. destruct inputs as [i|]; cbv zeta in Hds.
    + destruct (stdMaxInput i) as [field|] eqn:E; [|discriminate].
      injection Hds as <-. cbn [direction tolerance stdMax enabled].
      set (d := match angleInput i with Some d => d | None => 0 end).
      destruct (normalizeBearing_range d) as (w & Hw & Hr & _).
      pose proof Hw as Hw'. unfold normalizeBearing in Hw'. cbv zeta in Hw'.
      injection Hw' as Hw'. rewrite Hw'.
      split; [lra|].
      split; [apply clamp_range; lra|]. split; [apply clamp_range; lra|].
      split.
      * rewrite andb_true_iff, negb_true_iff. split.
        -- intros [H1 H2]. exists i. now repeat split.
        -- intros (i' & Hi & H1 & H2). inversion Hi; subst. now split.
      * intros i' Hi. inversion Hi; subst i'. split; [|split].
        -- intros Ha. unfold d in Hw. rewrite Ha in Hw.
           rewrite normalizeBearing_small in Hw by lra. now inversion Hw.
        -- intros ->. unfold clamp, DEFAULT_DIRECTION_TOLERANCE.
           rewrite Rmin_right by lra. apply Rmax_right. lra.
        -- intros Hn. rewrite E in Hn. injection Hn as ->. unfold clamp.
           rewrite Rmin_right by lra. apply Rmax_right. lra.
    + injection Hds as <-. cbn [direction tolerance stdMax enabled].
      unfold DEFAULT_DIRECTION_TOLERANCE.
      split; [lra|]. split; [lra|]. split; [lra|]. split.
      * split; [discriminate|]. intros (i & Hi & _). discriminate.
      * intros i Hi. discriminate.
Qed.

Lemma or_default_missing (x : num) (d : R) :
  x = None \/ x = Some 0 -> or_default x d = d.
Proof.
  intros [-> | ->]; simpl; [reflexivity|].
  destruct (Req_dec_T 0 0); [reflexivity | contradiction].
Qed.

(** X24: the options a detection run passes to the detector are always
    in range (window at least 1 s, duration, sigma factor and grace not
    negative, drop percentage in [[0, 100]]), and a field that is empty,
    does not parse or holds 0 takes its default: window 8 s, sigma factor
    0.8, drop 35 %, grace 1 s, minimum duration 0; without a threshold in
    the field the suggested threshold is used, or 15. *)
Theorem detector_options_defaults (ui : Controls) :
  let o := options_of ui in
  1 <= winSec o /\ 0 <= minDurationS o /\ 0 <= kSigma o
  /\ 0 <= dropPct o <= 100 /\ 0 <= endGraceS o
  /\ (winSecondsInput ui = None \/ winSecondsInput ui = Some 0 -> winSec o = 8)
  /\ (kSigmaInput ui = None \/ kSigmaInput ui = Some 0 -> kSigma o = 0.8)
  /\ (dropPctInput ui = None \/ dropPctInput ui = Some 0 -> dropPct o = 35)
  /\ (endGraceInput ui = None \/ endGraceInput ui = Some 0 -> endGraceS o = 1)
  /\ (minDurationInput ui = None \/ minDurationInput ui = Some 0 ->
      minDurationS o = 0)
  /\ (thresholdInput ui = None ->
      baseThresholdKmh o
      = match autoThreshold ui with Some t => t | None => 15 end)
  /\ dirStdMaxDeg o = Some (stdMax (directionSettings ui)).
Proof.
  cbv zeta. destruct (options_of_ranges ui) as (H1 & H2 & H3 & H4 & H5).
  split; [exact H1|]. split; [exact H2|]. split; [exact H3|].
  split; [exact H4|]. split; [exact H5|].
  unfold options_of. simpl.
  split; [intros H; rewrite (or_default_missing _ 8 H); apply Rmax_right; lra|].
  split; [intros H; rewrite (or_default_missing _ 0.8 H); apply Rmax_right; lra|].
  split.
  { intros H. rewrite (or_default_missing _ 35 H). unfold clamp.
    rewrite Rmin_right by lra. apply Rmax_right. lra. }
  split; [intros H; rewrite (or_default_missing _ 1 H); apply Rmax_right; lra|].
  split; [intros H; rewrite (or_default_missing _ 0 H); apply Rmax_left; lra|].
  split; [intros ->; reflexivity | reflexivity].
Qed.

(** * Further properties of the stability filter and of the distance *)

Lemma ln_small : ln (1e-9) < -8.
Proof.
  assert (He : 0 < exp 1 <= 3) by (split; [apply exp_pos | apply exp_le_3]).
  assert (E2 : exp 2 = exp 1 * exp 1)
    by (rewrite <- exp_plus; f_equal; lra).
  assert (E4 : exp 4 = exp 2 * exp 2)
    by (rewrite <- exp_plus; f_equal; lra).
  assert (E8 : exp 8 = exp 4 * exp 4)
    by (rewrite <- exp_plus; f_equal; lra).
  assert (H2 : 0 < exp 2 <= 9) by (rewrite E2; nra).
  assert (H4 : 0 < exp 4 <= 81) by (rewrite E4; nra).
  assert (H8 : 0 < exp 8 <= 6561) by (rewrite E8; nra).
  assert (Hinv : exp (-8) * exp 8 = 1)
    by (rewrite <- exp_plus; replace (-8 + 8) with 0 by lra; apply exp_0).
  assert (Hm : 1e-9 < exp (-8)).
  { pose proof (exp_pos (-8)). nra. }
  rewrite <- (ln_exp (-8)). apply ln_increasing; [lra | exact Hm].
Qed.

(** X25: the circular deviation of a wave's bearing samples, when it is
    defined, lies between 0 and [deviation_cap], the deviation of a
    resultant length of [1e-9], which is more than 180 degrees.  Samples
    whose resultant length is at most [1e-9] (samples that cancel out)
    have exactly that deviation, so such a wave is rejected by every
    maximum below it, hence by every maximum the page allows; a maximum
    of at least [deviation_cap] rejects no wave. *)
Theorem stability_extremes (o : Options) (w : Wave) (m : R) :
  dirStdMaxDeg o = Some m ->
  180 < deviation_cap
  /\ (forall v, circularStdDeg (map Some (bearings w)) = Some v ->
        0 <= v <= deviation_cap)
  /\ (bearings w <> [] -> resultant_length (bearings w) <= 1e-9 ->
      circularStdDeg (map Some (bearings w)) = Some deviation_cap
      /\ (m < deviation_cap -> stable o w = false))
  /\ (deviation_cap <= m -> stable o w = true).
Proof.
  intros Hm. pose proof ln_small as Hl. pose proof PI_RGT_0 as Hpi.
  pose proof PI_4 as Hpi4.
  assert (Hscale : forall x y, x <= y -> x * 180 / PI <= y * 180 / PI).
  { intros x y Hxy. unfold Rdiv. apply Rmult_le_compat_r.
    - apply Rlt_le, Rinv_0_lt_compat, Hpi.
    - lra. }
  assert (Hcap : 180 < deviation_cap).
  { unfold deviation_cap.
    assert (H4 : 4 < sqrt (-2 * ln (1e-9))).
    { replace 4 with (sqrt (4 * 4)) by (apply sqrt_square; lra).
      apply sqrt_lt_1; lra. }
    apply (Rmult_lt_reg_r PI); [lra|].
    unfold Rdiv. rewrite Rmult_assoc, Rinv_l by lra. lra. }
  assert (Hrange : forall bs, 0 <= circular_std bs <= deviation_cap).
  { intros bs. unfold circular_std, deviation_cap. split.
    - apply Rmult_le_pos; [|apply Rlt_le, Rinv_0_lt_compat; lra].
      apply Rmult_le_pos; [apply sqrt_pos | lra].
    - apply Hscale, sqrt_le_1_alt.
      set (x := Rmax (resultant_length bs) (1e-9)).
      assert (Hx : 1e-9 <= x) by apply Rmax_r.
      assert (Hln : ln (1e-9) <= ln x).
      { destruct Hx as [Hx | <-]; [|lra].
        apply Rlt_le, ln_increasing; [lra | exact Hx]. }
      apply Rmax_lub; lra. }
  split; [exact Hcap|]. split; [|split].
  - intros v. rewrite circularStdDeg_spec.
    destruct (bearings w) as [|x l]; [discriminate|].
    intros [= <-]. apply Hrange.
  - intros Hne Hr.
    assert (E : circular_std (bearings w) = deviation_cap).
    { unfold circular_std, deviation_cap.
      rewrite (Rmax_right (resultant_length (bearings w)) (1e-9) Hr).
      rewrite (Rmax_right 0 (-2 * ln (1e-9))) by lra. reflexivity. }
    rewrite circularStdDeg_spec.
    destruct (bearings w) as [|x l] eqn:Eb; [contradiction|].
    rewrite E. split; [reflexivity|].
    intros Hlt. unfold stable. rewrite Eb, circularStdDeg_spec, E, Hm.
    simpl. now apply Rleb_false.
  - intros Hle. unfold stable. rewrite circularStdDeg_spec, Hm.
    destruct (bearings w) as [|x l]; [reflexivity|]. simpl.
    apply Rleb_true. pose proof (Hrange (x :: l)). lra.
Qed.

(** The two opposite samples of [zigzag_wave] cancel out: the wave is
    rejected by the default maximum of 25 degrees. *)
Lemma stability_extremes_witness :
  circularStdDeg (map Some (bearings zigzag_wave)) = Some deviation_cap
  /\ stable default_options zigzag_wave = false.
Proof.
  destruct (stability_extremes default_options zigzag_wave 25 eq_refl)
    as (Hcap & _ & H & _).
  assert (E180 : toRad 180 = PI) by (unfold toRad; field).
  assert (E0 : toRad 0 = 0) by (unfold toRad; field).
  destruct H as [Hv Hrej].
  - discriminate.
  - unfold resultant_length. simpl.
    rewrite E0, E180, sin_0, sin_PI, cos_0, cos_PI.
    replace ((0 + (0 + 0))² + (1 + (-1 + 0))²) with 0
      by (unfold Rsqr; ring).
    rewrite sqrt_0. lra.
  - split; [exact Hv|]. apply Hrej. lra.
Defined.

(** X26: the great-circle distance is symmetric, and from a point to
    itself it is 0; the bearing from a point to itself is defined and
    is 0. *)
Theorem distance_symmetric (p q : Point) :
  haversineDistanceM p q = haversineDistanceM q p
  /\ haversineDistanceM p p = Some 0
  /\ bearingDegrees (lat p, lon p) (lat p, lon p) = Some 0.
Proof.
  split; [|split].
  - rewrite !haversine_value.
    assert (E : haversine_term p q = haversine_term q p).
    { unfold haversine_term.
      replace (toRad (lat p - lat q) / 2) with (- (toRad (lat q - lat p) / 2))
        by (unfold toRad; field).
      replace (toRad (lon p - lon q) / 2) with (- (toRad (lon q - lon p) / 2))
        by (unfold toRad; field).
      rewrite !sin_neg, <- !Rsqr_neg. ring. }
    now rewrite E.
  - rewrite haversine_value. f_equal. unfold haversine_term.
    replace (toRad (lat p - lat p) / 2) with 0 by (unfold toRad; field).
    replace (toRad (lon p - lon p) / 2) with 0 by (unfold toRad; field).
    rewrite sin_0. unfold Rsqr. rewrite !Rmult_0_r, Rplus_0_r, sqrt_0, asin_0.
    ring.
  - unfold bearingDegrees. cbv zeta. cbn [fst snd].
    replace (toRad (lon p - lon p)) with 0 by (unfold toRad; field).
    rewrite sin_0, cos_0, Rmult_0_l, Rmult_1_r.
    replace (cos (toRad (lat p)) * sin (toRad (lat p))
             - sin (toRad (lat p)) * cos (toRad (lat p))) with 0 by ring.
    unfold atan2. rewrite !(Rltb_false 0 0) by lra.
    replace (0 * 180 / PI) with 0 by (field; apply PI_neq0).
    apply normalizeBearing_small. lra.
Qed.

(** * Loading a file *)

(** The suggested threshold is 15 or the clamped speed of a segment. *)
Lemma auto_threshold_cases (segs : list Segment) :
  5 <= computeAutoThreshold segs <= 120
  /\ (computeAutoThreshold segs = 15
      \/ exists v, In v (finite_vals (map speedKmh segs))
                   /\ computeAutoThreshold segs = clamp v 5 120).
Proof.
  unfold computeAutoThreshold. cbv zeta.
  remember (filter (fun v => Rltb 1 v) (finite_vals (map speedKmh segs)))
    as speeds eqn:E.
  assert (Hsrc : forall v, In v speeds ->
                   In v (finite_vals (map speedKmh segs))).
  { intros v Hv. rewrite E in Hv. now apply filter_In in Hv as [Hv _]. }
  clear E. destruct speeds as [|x0 l].
  - split; [lra | now left].
  - cbv iota. set (speeds := x0 :: l) in *.
    pose proof (RSort.Permuted_sort speeds) as Hperm.
    set (srt := RSort.sort speeds) in *.
    assert (Hpos : (0 < length srt)%nat).
    { rewrite <- (Permutation_length Hperm). simpl. lia. }
    assert (Hidx : (3 * (length srt - 1) / 4 < length srt)%nat).
    { apply Nat.le_lt_trans with (length srt - 1)%nat; [|lia].
      apply Nat.Div0.div_le_upper_bound. lia. }
    assert (Hin : In (nth (3 * (length srt - 1) / 4) srt 0) speeds).
    { apply (Permutation_in _ (Permutation_sym Hperm)). now apply nth_In. }
    split; [apply clamp_range; lra|].
    right. eexists. split; [apply Hsrc, Hin | reflexivity].
Qed.

(** No value of a sorted list is greater than its last. *)
Lemma sorted_last_max (l : list R) (x : R) :
  StronglySorted Rle l -> In x l -> x <= last l 0.
Proof.
  induction 1 as [|y l Hs IH Hall]; intros Hin; [contradiction|].
  destruct Hin as [<- | Hin].
  - destruct l as [|z l]; [simpl; lra|].
    rewrite Forall_forall in Hall.
    change (last (y :: z :: l) 0) with (last (z :: l) 0).
    apply Hall. apply last_In. discriminate.
  - destruct l as [|z l]; [contradiction|].
    change (last (y :: z :: l) 0) with (last (z :: l) 0). now apply IH.
Qed.

(** A value inside the range of the slider is only rounded to the
    nearest half. *)
Lemma setThreshold_inside (v lo hi : R) :
  lo <= v <= hi -> hi <> 0 ->
  setThreshold v (Some lo) (Some hi) = IZR (js_round (v * 2)) / 2.
Proof.
  intros Hv Hhi. unfold setThreshold. cbv zeta.
  assert (Elo : or_default (Some lo) 0 = lo).
  { simpl. destruct (Req_dec_T lo 0); [now subst | reflexivity]. }
  assert (Ehi : or_default (Some hi) 100 = hi).
  { simpl. destruct (Req_dec_T hi 0); [contradiction | reflexivity]. }
  rewrite Elo, Ehi. unfold clamp.
  rewrite (Rmin_right hi v) by lra. rewrite (Rmax_right lo v) by lra.
  reflexivity.
Qed.

(** The range [configureThresholdControls] gives the slider always holds
    the suggested threshold, so the threshold field receives it rounded
    to the nearest half. *)
Lemma configured_threshold (ui : Controls) (segs : list Segment) :
  thresholdInput (configureThresholdControls ui segs)
  = Some (stepped_threshold segs).
Proof.
  unfold stepped_threshold.
  assert (Hfall : computeAutoThreshold segs = 15 ->
            Some (setThreshold 15 (Some DEFAULT_THRESHOLD_MIN)
                               (Some DEFAULT_THRESHOLD_MAX))
            = Some (IZR (js_round (computeAutoThreshold segs * 2)) / 2)).
  { intros ->. f_equal. apply setThreshold_inside;
      unfold DEFAULT_THRESHOLD_MIN, DEFAULT_THRESHOLD_MAX; lra. }
  unfold configureThresholdControls. cbv zeta.
  destruct segs as [|s0 segs']; [now apply Hfall|].
  set (segs := s0 :: segs') in *.
  destruct (finite_vals (map speedKmh segs)) as [|x0 l] eqn:Ef.
  - apply Hfall. unfold computeAutoThreshold. now rewrite Ef.
  - cbn [thresholdInput set_threshold_controls]. f_equal.
    set (speeds := x0 :: l) in *.
    pose proof (RSort.Permuted_sort speeds) as Hperm.
    pose proof (sort_sorted speeds) as Hsorted.
    set (srt := RSort.sort speeds) in *.
    set (minVal := Rmax 0 (IZR (js_floor (Rmin (nth 0 srt 0) 5)))).
    set (maxVal := Rmax (minVal + 5) (IZR (js_ceil (Rmax (last srt 0) 10)))).
    destruct (auto_threshold_cases segs) as [Hr Hcase].
    assert (Hmin : minVal <= 5).
    { unfold minVal, js_floor. apply Rmax_lub; [lra|].
      pose proof (base_Int_part (Rmin (nth 0 srt 0) 5)) as [Hb _].
      pose proof (Rmin_r (nth 0 srt 0) 5). lra. }
    assert (Hceil : Rmax (last srt 0) 10 <= maxVal).
    { unfold maxVal, js_ceil. rewrite opp_IZR.
      pose proof (base_Int_part (- Rmax (last srt 0) 10)) as [Hb _].
      pose proof (Rmax_r (minVal + 5)
                    (- IZR (Int_part (- Rmax (last srt 0) 10)))). lra. }
    assert (Hmax : computeAutoThreshold segs <= Rmax maxVal DEFAULT_THRESHOLD_MAX).
    { pose proof (Rmax_l maxVal DEFAULT_THRESHOLD_MAX) as Hl.
      pose proof (Rmax_r maxVal DEFAULT_THRESHOLD_MAX) as Hrr.
      unfold DEFAULT_THRESHOLD_MAX in *.
      destruct Hcase as [-> | (v & Hv & ->)]; [lra|].
      rewrite Ef in Hv. fold speeds in Hv.
      pose proof (sorted_last_max srt v Hsorted
                    (Permutation_in _ Hperm Hv)) as Hlast.
      pose proof (Rmax_l (last srt 0) 10). pose proof (Rmax_r (last srt 0) 10).
      unfold clamp. apply Rmax_lub; [lra|].
      pose proof (Rmin_r 120 v). lra. }
    apply setThreshold_inside; [lra|].
    pose proof (Rmax_r maxVal DEFAULT_THRESHOLD_MAX).
    unfold DEFAULT_THRESHOLD_MAX in *. lra.
Qed.

(** The rounded threshold stays in the range of the suggested one and
    within a quarter of it. *)
Lemma stepped_threshold_range (segs : list Segment) :
  5 <= stepped_threshold segs <= 120
  /\ -0.25 < stepped_threshold segs - computeAutoThreshold segs <= 0.25.
Proof.
  unfold stepped_threshold.
  destruct (auto_threshold_cases segs) as [Hr _].
  pose proof (js_round_near (computeAutoThreshold segs * 2)) as Hn.
  set (k := js_round (computeAutoThreshold segs * 2)) in *.
  assert (H1 : (9 < k)%Z) by (apply lt_IZR; lra).
  assert (H2 : (k < 241)%Z) by (apply lt_IZR; lra).
  assert (H3 : 10 <= IZR k) by (apply IZR_le; lia).
  assert (H4 : IZR k <= 240) by (apply IZR_le; lia).
  lra.
Qed.

(** What the configuration step changes of the options. *)
Lemma configured_options (ui : Controls) (segs : list Segment) :
  options_of (configureThresholdControls ui segs)
  = with_threshold (options_of ui) (stepped_threshold segs)
  /\ directionSettings (configureThresholdControls ui segs)
     = directionSettings ui.
Proof.
  pose proof (configured_threshold ui segs) as Ht.
  unfold options_of, with_threshold. rewrite Ht.
  unfold configureThresholdControls. cbv zeta.
  destruct segs as [|s0 segs']; [split; reflexivity|].
  destruct (finite_vals (map speedKmh (s0 :: segs'))); split; reflexivity.
Qed.

Lemma configured_same (ui ui' : Controls) (segs : list Segment) :
  same_settings ui ui' ->
  configureThresholdControls ui segs = configureThresholdControls ui' segs.
Proof.
  intros (H1 & H2 & H3 & H4 & H5 & H6 & H7).
  unfold configureThresholdControls, set_threshold_controls.
  now rewrite H1, H2, H3, H4, H5, H6, H7.
Qed.

(** X15: a load that succeeds detects with the suggested threshold of the
    new track, rounded to the nearest half, whatever the threshold field
    held: the state it leaves depends neither on the state before nor on
    the threshold field and [autoThreshold] before.  That threshold lies
    in [[5, 120]], within a quarter of the suggested one; the waves stored
    are those the detector finds with it (enriched, and filtered by
    direction), and each of them has a peak speed of at least that
    threshold. *)
Theorem load_rebuilds_state (ui ui' : Controls) (kind : FileKind)
    (pts : list Point) (st st' : AppState) :
  kind <> OtherKind -> (2 <= length pts)%nat -> same_settings ui ui' ->
  let segs := fst (computeSegmentsAndStats pts) in
  let T := stepped_threshold segs in
  let r := load_file ui kind (ParseReturns pts) st in
  r = load_file ui' kind (ParseReturns pts) st'
  /\ 5 <= T <= 120
  /\ -0.25 < T - computeAutoThreshold segs <= 0.25
  /\ waves (fst r)
     = direction_filter (directionSettings ui)
         (map (enrichWave pts segs)
              (detectWavesV2 (with_threshold (options_of ui) T) segs))
  /\ forall e, In e (waves (fst r)) -> T <= maxKmh (wave e).
Proof.
  intros Hk Hlen Hsame. cbv zeta.
  set (segs := fst (computeSegmentsAndStats pts)).
  assert (E : forall u s, load_file u kind (ParseReturns pts) s
              = (runWaveDetection (configureThresholdControls u segs)
                   (mkAppState pts segs
                      (Some (snd (computeSegmentsAndStats pts))) []),
                 Loaded)).
  { intros u s. unfold load_file, segs.
    pose proof Hlen as Hlen'. apply Nat.ltb_ge in Hlen'. rewrite Hlen'.
    destruct (computeSegmentsAndStats pts) as [sg sts]. cbn [fst snd].
    rewrite (runWaveDetection_ignores_waves _ pts sg (Some sts)
               (waves s) []).
    destruct kind; [reflexivity | reflexivity | contradiction]. }
  assert (Hne : segs <> []).
  { intros H0. pose proof (computeSegments_length pts) as Hl.
    fold segs in Hl. rewrite H0 in Hl. simpl in Hl. lia. }
  destruct (configured_options ui segs) as [Ho Hd].
  assert (Hw : waves (fst (load_file ui kind (ParseReturns pts) st))
     = direction_filter (directionSettings ui)
         (map (enrichWave pts segs)
              (detectWavesV2 (with_threshold (options_of ui)
                                (stepped_threshold segs)) segs))).
  { rewrite E. cbn [fst]. unfold runWaveDetection. cbn [segments points].
    destruct segs as [|s0 sg] eqn:Es; [contradiction|].
    cbn [waves]. now rewrite Ho, Hd. }
  destruct (stepped_threshold_range segs) as [Hr Hq].
  split; [|split; [exact Hr | split; [exact Hq | split; [exact Hw|]]]].
  - rewrite (E ui st), (E ui' st'). now rewrite (configured_same ui ui' segs Hsame).
  - intros e He. rewrite Hw in He.
    assert (Hin : In e (map (enrichWave pts segs)
                      (detectWavesV2 (with_threshold (options_of ui)
                                        (stepped_threshold segs)) segs))).
    { unfold direction_filter in He.
      destruct (enabled (directionSettings ui)); [|exact He].
      now apply filter_In in He as [He _]. }
    apply in_map_iff in Hin as (w & <- & Hin).
    unfold detectWavesV2 in Hin. apply filter_In in Hin as [Hin _].
    destruct (found_waves_facts
                (with_threshold (options_of ui) (stepped_threshold segs)) segs)
      as [Hf _].
    rewrite Forall_forall in Hf. destruct (Hf w Hin) as (_ & Hpeak & _).
    exact Hpeak.
Qed.

(** Loading the three example fixes gives the same state when the page
    has just opened as when a track is loaded and 40 km/h is typed into
    the threshold field. *)
Lemma load_rebuilds_state_witness :
  load_file default_controls Gpx (ParseReturns fix_track) empty_state
  = load_file fast_controls Gpx (ParseReturns fix_track) loaded_state
  /\ 5 <= stepped_threshold (fst (computeSegmentsAndStats fix_track)) <= 120.
Proof.
  destruct (load_rebuilds_state default_controls fast_controls Gpx fix_track
              empty_state loaded_state)
    as (H1 & H2 & _).
  - discriminate.
  - simpl. lia.
  - unfold same_settings. repeat split.
  - split; [exact H1 | exact H2].
Defined.
